(** * go-smbios: entry points, memory scanner, structure decoder

    A shallow embedding of the Go package [smbios] (entry-point parsing, the
    /dev/mem paragraph scanner, [Decoder.Decode] / [Decoder.next] and the
    opaque stream wrapper) together with the properties stated about it.

    Conventions.
    - A Go [uint8]/[byte] is a [Z] in [0, 256); wider unsigned integers are
      [Z] as well, wrap-around is written out where the code can wrap.
    - A Go [[]byte] and a Go [string] are both [list Z] (a Go string is an
      immutable byte sequence); [str] turns a literal into such a list.
    - A Go call either returns a value, returns an error, or panics
      (index out of range).  [OutOfFuel] is not a Go outcome: it is what a
      loop of the model returns when its recursion budget is exhausted, and
      it is shown unreachable for the budgets the model uses. *)

From Stdlib Require Import Ascii String DecimalString ZArith Bool Lia List.
Import ListNotations.
Open Scope Z_scope.

Set Implicit Arguments.

(** ** Go values *)

Definition GoString := list Z.

Definition str (s : string) : GoString :=
  map (fun a => Z.of_N (N_of_ascii a)) (list_ascii_of_string s).

Definition is_byte (z : Z) : Prop := 0 <= z < 256.
Definition bytes_ok (b : list Z) : Prop := Forall is_byte b.

Definition uint8 (z : Z) : Z := z mod 256.

(** Length of a slice as a Go [int]. *)
Definition len {A} (l : list A) : Z := Z.of_nat (length l).

(** [b[i:j]] for in-range bounds. *)
Definition slice {A} (b : list A) (i j : nat) : list A :=
  firstn (j - i) (skipn i b).

(** [b[i]] where the code has already checked the bound. *)
Definition at_ (b : list Z) (i : nat) : Z := nth i b 0.

Fixpoint bytesEqual (a b : list Z) : bool :=
  match a, b with
  | [], [] => true
  | x :: a', y :: b' => (x =? y) && bytesEqual a' b'
  | _, _ => false
  end.

(** [bytes.HasPrefix]. *)
Fixpoint HasPrefix (s prefix : list Z) : bool :=
  match prefix, s with
  | [], _ => true
  | p :: prefix', x :: s' => (x =? p) && HasPrefix s' prefix'
  | _ :: _, [] => false
  end.

(** [binary.LittleEndian.Uint16/32/64] on a slice of the right size. *)
Fixpoint LittleEndian (b : list Z) : Z :=
  match b with
  | [] => 0
  | x :: b' => Z.lor x (Z.shiftl (LittleEndian b') 8)
  end.

Definition Uint16 (b : list Z) : Z := LittleEndian (firstn 2 b).
Definition Uint32 (b : list Z) : Z := LittleEndian (firstn 4 b).
Definition Uint64 (b : list Z) : Z := LittleEndian (firstn 8 b).

(** ** Errors and outcomes *)

Inductive error : Type :=
| EOF
| ErrUnexpectedEOF
| ErrNegativePosition
| ErrTooFewBytes (l : Z)
| ErrUnrecognizedMagic (m : list Z)
| ErrShort32 (l : Z)
| ErrLength32 (length l : Z)
| ErrDMIMagic (iAnchor : list Z)
| ErrShort64 (l : Z)
| ErrLength64 (length l : Z)
| ErrChecksum (chk start : Z)
| ErrNoEntryPoint.

Inductive outcome (A : Type) : Type :=
| Ok (a : A)
| Err (e : error)
| Panic
| OutOfFuel.

Arguments Err {A} e.
Arguments Panic {A}.
Arguments OutOfFuel {A}.

Definition bind {A B} (m : outcome A) (k : A -> outcome B) : outcome B :=
  match m with
  | Ok a => k a
  | Err e => Err e
  | Panic => Panic
  | OutOfFuel => OutOfFuel
  end.

Notation "x <- m ;; k" := (bind m (fun x => k))
  (at level 61, m at next level, right associativity).
Notation "' pat <- m ;; k" := (bind m (fun x => match x with pat => k end))
  (at level 61, pat pattern, m at next level, right associativity).

Definition isOk {A} (m : outcome A) : bool :=
  match m with Ok _ => true | _ => false end.

(** ** Readers

    The streams the package reads are byte sources that end: a
    [bytes.Reader] in the tests, a file otherwise.  A reader is the list of
    bytes not yet consumed. *)

(** [io.ReadFull(r, buf[:n])]: [io.EOF] when nothing could be read,
    [io.ErrUnexpectedEOF] when the source ends part-way. *)
Definition ReadFull (r : list Z) (n : nat) : outcome (list Z * list Z) :=
  if (n <=? length r)%nat then Ok (firstn n r, skipn n r)
  else match r with
       | [] => Err EOF
       | _ => Err ErrUnexpectedEOF
       end.

(** [ioutil.ReadAll(io.LimitReader(r, n))]. *)
Definition ReadAllLimit (r : list Z) (n : nat) : list Z := firstn n r.

(** ** Entry points (entry_point.go) *)

Definition magic32 : list Z := str "_SM_".
Definition magic64 : list Z := str "_SM3_".
Definition magicDMI : list Z := str "_DMI_".

Record EntryPoint32Bit := {
  Anchor32 : GoString;
  Checksum32 : Z;
  Length32 : Z;
  Major32 : Z;
  Minor32 : Z;
  MaxStructureSize : Z;
  EntryPointRevision32 : Z;
  FormattedArea : list Z;
  IntermediateAnchor : GoString;
  IntermediateChecksum : Z;
  StructureTableLength : Z;
  StructureTableAddress32 : Z;
  NumberStructures : Z;
  BCDRevision : Z
}.

Record EntryPoint64Bit := {
  Anchor64 : GoString;
  Checksum64 : Z;
  Length64 : Z;
  Major64 : Z;
  Minor64 : Z;
  Revision64 : Z;
  EntryPointRevision64 : Z;
  Reserved64 : Z;
  StructureTableMaxSize : Z;
  StructureTableAddress64 : Z
}.

Inductive EntryPoint : Type :=
| EP32 (ep : EntryPoint32Bit)
| EP64 (ep : EntryPoint64Bit).

Definition Version (ep : EntryPoint) : Z * Z * Z :=
  match ep with
  | EP32 h => (Major32 h, Minor32 h, 0)
  | EP64 h => (Major64 h, Minor64 h, Revision64 h)
  end.

(** The loop of [checksum]: [for i := range b { if i == chkIndex
    { continue }; chk += b[i] }] on a [uint8] accumulator. *)
Fixpoint checksumLoop (chkIndex : nat) (i : nat) (b : list Z) (chk : Z) : Z :=
  match b with
  | [] => chk
  | x :: b' =>
      if (i =? chkIndex)%nat then checksumLoop chkIndex (S i) b' chk
      else checksumLoop chkIndex (S i) b' (uint8 (chk + x))
  end.

Definition checksum (start : Z) (chkIndex : nat) (b : list Z) : outcome unit :=
  let chk := checksumLoop chkIndex 0 b start in
  if negb (chk =? 0) then Err (ErrChecksum chk start) else Ok tt.

Definition parse32 (b : list Z) : outcome EntryPoint32Bit :=
  let l := len b in
  if l <? 31 then Err (ErrShort32 l) else
  let length := at_ b 5 in
  if negb (l =? length) then Err (ErrLength32 length l) else
  let iAnchor := slice b 16 21 in
  if negb (bytesEqual iAnchor magicDMI) then Err (ErrDMIMagic iAnchor) else
  let epChk := at_ b 4 in
  _ <- checksum epChk 4 b ;;
  Ok {| Anchor32 := slice b 0 4;
        Checksum32 := epChk;
        Length32 := length;
        Major32 := at_ b 6;
        Minor32 := at_ b 7;
        MaxStructureSize := Uint16 (slice b 8 10);
        EntryPointRevision32 := at_ b 10;
        FormattedArea := slice b 10 15;
        IntermediateAnchor := iAnchor;
        IntermediateChecksum := at_ b 21;
        StructureTableLength := Uint16 (slice b 22 24);
        StructureTableAddress32 := Uint32 (slice b 24 28);
        NumberStructures := Uint16 (slice b 28 30);
        BCDRevision := at_ b 30 |}.

Definition parse64 (b : list Z) : outcome EntryPoint64Bit :=
  let l := len b in
  if l <? 24 then Err (ErrShort64 l) else
  let length := at_ b 6 in
  if negb (l =? length) then Err (ErrLength64 length l) else
  let chk := at_ b 5 in
  _ <- checksum chk 5 b ;;
  Ok {| Anchor64 := slice b 0 5;
        Checksum64 := chk;
        Length64 := length;
        Major64 := at_ b 7;
        Minor64 := at_ b 8;
        Revision64 := at_ b 9;
        EntryPointRevision64 := at_ b 10;
        Reserved64 := at_ b 11;
        StructureTableMaxSize := Uint32 (slice b 12 16);
        StructureTableAddress64 := Uint64 (slice b 16 24) |}.

Definition ParseEntryPoint (r : list Z) : outcome EntryPoint :=
  let b := ReadAllLimit r 64 in
  let l := len b in
  if l <? 4 then Err (ErrTooFewBytes l) else
  if HasPrefix b magic32 then ep <- parse32 b ;; Ok (EP32 ep)
  else if HasPrefix b magic64 then ep <- parse64 b ;; Ok (EP64 ep)
  else Err (ErrUnrecognizedMagic (slice b 0 4)).

(** The sum of all bytes of a record, as an integer. *)
Definition byteSum (b : list Z) : Z := fold_right Z.add 0 b.

(** ** The memory scanner (memoryStream's findEntryPoint)

    The [io.ReadSeeker] is a memory image [mem]; [Seek(offset, io.SeekStart)]
    of a [bytes.Reader] or a file fails on a negative offset and otherwise
    positions the reader, also past the end. *)

Definition Seek (mem : list Z) (offset : Z) : outcome (list Z) :=
  if offset <? 0 then Err ErrNegativePosition
  else Ok (skipn (Z.to_nat offset) mem).

Definition paragraph : nat := 16.

(** [for addr = start; addr < end; addr += paragraph { ... }].
    [magicPrefix] is declared outside the scanner's file; the prefix is an
    argument of the model. *)
Fixpoint findLoop (fuel : nat) (magicPrefix rs : list Z) (addr end_ : Z)
  : outcome Z :=
  if addr <? end_ then
    match fuel with
    | O => OutOfFuel
    | S fuel' =>
        '(b, rs') <- ReadFull rs paragraph ;;
        if HasPrefix b magicPrefix then Ok addr
        else findLoop fuel' magicPrefix rs' (addr + Z.of_nat paragraph) end_
    end
  else Err ErrNoEntryPoint.

Definition findEntryPoint (magicPrefix mem : list Z) (start end_ : Z)
  : outcome Z :=
  rs <- Seek mem start ;;
  findLoop (Z.to_nat (end_ - start)) magicPrefix rs start end_.

(** An anchor prefix begins at address [a] of the memory image. *)
Definition anchorAt (magicPrefix mem : list Z) (a : Z) : Prop :=
  0 <= a /\
  firstn (length magicPrefix) (skipn (Z.to_nat a) mem) = magicPrefix.

(** [a] is on a paragraph boundary counted from [start], inside
    [[start, end_)]. *)
Definition alignedIn (start end_ a : Z) : Prop :=
  start <= a < end_ /\ (a - start) mod 16 = 0.

Definition firstAlignedAnchor (magicPrefix mem : list Z) (start end_ a : Z)
  : Prop :=
  alignedIn start end_ a /\ anchorAt magicPrefix mem a /\
  forall a', alignedIn start end_ a' -> a' < a ->
             ~ anchorAt magicPrefix mem a'.

(** The whole paragraph at [a] can be read from the memory image. *)
Definition readableAt (mem : list Z) (a : Z) : Prop :=
  a + 16 <= len mem.

(** ** Structures (structure.go) *)

Record Header := {
  Type_ : Z;
  Length : Z;
  Handle : Z
}.

(** structure.go does not declare [BaseboardInfo], [SystemEnclosure],
    [Processor], [PhysicalMemory], [BIOSInfo] and [SMBIOSVersion]; their
    fields are the ones decoder.go assigns and reads. *)
Record BaseboardInfo := {
  bbManufacturer : GoString;
  bbProduct : GoString;
  bbVersion : GoString;
  bbSerialNumber : GoString
}.

Record SystemEnclosure := { seType : Z }.

Record Processor := {
  procID : GoString;
  procFamily : Z;
  procCoreCount : Z;
  procProduct : GoString;
  procClockSpeedInMHz : Z
}.

Record PhysicalMemory := {
  pmManufacturer : GoString;
  pmSerialNumber : GoString;
  pmSizeInBytes : Z;
  pmTotalWidth : Z;
  pmDataWidth : Z
}.

Record BIOSInfo := {
  biosVendor : GoString;
  biosVersion : GoString;
  biosBiosVersion : GoString;
  biosReleaseDate : GoString
}.

Record SMBIOSVersion := { Major : Z; Minor : Z }.

(** The fields of [SystemInfo] that [Decoder.next] writes: the string fields
    structure.go declares, [SystemProductName], and the typed projections.
    A pointer field is an [option], a slice of pointers a list. *)
Record SystemInfo := {
  SystemManufacturerRef : GoString;
  SystemProductName : GoString;
  BiosSerial : GoString;
  VirtualMachineUUID : GoString;
  MotherboardAdapter : GoString;
  Memory : GoString;
  ProcessorType : GoString;
  ProcessorID : GoString;
  BaseboardInfo_ : option BaseboardInfo;
  SystemEnclosure_ : option SystemEnclosure;
  Processors : list Processor;
  PhyMemory : list PhysicalMemory;
  BiosInfo : option BIOSInfo
}.

Definition SystemInfo0 : SystemInfo :=
  {| SystemManufacturerRef := []; SystemProductName := []; BiosSerial := [];
     VirtualMachineUUID := []; MotherboardAdapter := []; Memory := [];
     ProcessorType := []; ProcessorID := []; BaseboardInfo_ := None;
     SystemEnclosure_ := None; Processors := []; PhyMemory := [];
     BiosInfo := None |}.

Record Structure := {
  Header_ : Header;
  Formatted : list Z;
  Strings : list GoString;
  SystemInfo_ : SystemInfo
}.

(** Field assignments [systemInfo.F = v]. *)
Definition set_SystemManufacturerRef (v : GoString) (s : SystemInfo) :=
  let '(Build_SystemInfo _ b c d e f g h i j k l m) := s in
  Build_SystemInfo v b c d e f g h i j k l m.
Definition set_SystemProductName (v : GoString) (s : SystemInfo) :=
  let '(Build_SystemInfo a _ c d e f g h i j k l m) := s in
  Build_SystemInfo a v c d e f g h i j k l m.
Definition set_BiosSerial (v : GoString) (s : SystemInfo) :=
  let '(Build_SystemInfo a b _ d e f g h i j k l m) := s in
  Build_SystemInfo a b v d e f g h i j k l m.
Definition set_VirtualMachineUUID (v : GoString) (s : SystemInfo) :=
  let '(Build_SystemInfo a b c _ e f g h i j k l m) := s in
  Build_SystemInfo a b c v e f g h i j k l m.
Definition set_MotherboardAdapter (v : GoString) (s : SystemInfo) :=
  let '(Build_SystemInfo a b c d _ f g h i j k l m) := s in
  Build_SystemInfo a b c d v f g h i j k l m.
Definition set_Memory (v : GoString) (s : SystemInfo) :=
  let '(Build_SystemInfo a b c d e _ g h i j k l m) := s in
  Build_SystemInfo a b c d e v g h i j k l m.
Definition set_ProcessorType (v : GoString) (s : SystemInfo) :=
  let '(Build_SystemInfo a b c d e f _ h i j k l m) := s in
  Build_SystemInfo a b c d e f v h i j k l m.
Definition set_ProcessorID (v : GoString) (s : SystemInfo) :=
  let '(Build_SystemInfo a b c d e f g _ i j k l m) := s in
  Build_SystemInfo a b c d e f g v i j k l m.
Definition set_BaseboardInfo (v : option BaseboardInfo) (s : SystemInfo) :=
  let '(Build_SystemInfo a b c d e f g h _ j k l m) := s in
  Build_SystemInfo a b c d e f g h v j k l m.
Definition set_SystemEnclosure (v : option SystemEnclosure) (s : SystemInfo) :=
  let '(Build_SystemInfo a b c d e f g h i _ k l m) := s in
  Build_SystemInfo a b c d e f g h i v k l m.
Definition set_Processors (v : list Processor) (s : SystemInfo) :=
  let '(Build_SystemInfo a b c d e f g h i j _ l m) := s in
  Build_SystemInfo a b c d e f g h i j v l m.
Definition set_PhyMemory (v : list PhysicalMemory) (s : SystemInfo) :=
  let '(Build_SystemInfo a b c d e f g h i j k _ m) := s in
  Build_SystemInfo a b c d e f g h i j k v m.
Definition set_BiosInfo (v : option BIOSInfo) (s : SystemInfo) :=
  let '(Build_SystemInfo a b c d e f g h i j k l _) := s in
  Build_SystemInfo a b c d e f g h i j k l v.

(** ** What the decoder takes from its platform

    - a cast of [unsafe.Pointer(&fb[0])] to a struct pointer reads struct
      fields at fixed offsets from the first byte of [fb] without a bounds
      check; a field that lies past the end of [fb] holds whatever the heap
      holds there.  [junk k o] is that byte for the [k]-th structure
      decoded, at offset [o].
    - multi-byte fields of such a struct are read in host byte order.
    - [strings.TrimSpace] belongs to the Go library. *)
Record Platform := {
  junk : nat -> nat -> Z;
  hostBigEndian : bool;
  TrimSpace : GoString -> GoString
}.

(** The byte at offset [o] from [&fb[0]]. *)
Definition peek8 (fb : list Z) (heap : nat -> Z) (o : nat) : Z :=
  match nth_error fb o with
  | Some x => x
  | None => uint8 (heap o)
  end.

(** A [uint16] field at offset [o] from [&fb[0]], in host byte order. *)
Definition peek16 (be : bool) (fb : list Z) (heap : nat -> Z) (o : nat) : Z :=
  let b0 := peek8 fb heap o in
  let b1 := peek8 fb heap (S o) in
  if be then Z.lor (Z.shiftl b0 8) b1 else Z.lor b0 (Z.shiftl b1 8).

(** [ss[i]]: a run-time panic when [i] is out of range. *)
Definition index {A} (ss : list A) (i : Z) : outcome A :=
  if i <? 0 then Panic
  else match nth_error ss (Z.to_nat i) with
       | Some s => Ok s
       | None => Panic
       end.

(** [&fb[0]]: a run-time panic on an empty (nil) slice. *)
Definition addrOfFirst (fb : list Z) : outcome unit :=
  match fb with
  | [] => Panic
  | _ :: _ => Ok tt
  end.

(** *** Formatting ([fmt.Sprintf] with [%0nX], [strconv.Itoa]) *)

Definition hexDigit (d : Z) : Z :=
  if d <? 10 then 48 + d else 55 + d.

Fixpoint hexRev (fuel : nat) (z : Z) : list Z :=
  match fuel with
  | O => []
  | S f => if z <? 16 then [hexDigit z]
           else hexDigit (z mod 16) :: hexRev f (z / 16)
  end.

(** [%0wX] of an unsigned value below 2^64. *)
Definition fmtX (w : nat) (z : Z) : GoString :=
  let ds := rev (hexRev 16 z) in
  repeat 48 (w - length ds) ++ ds.

Definition Itoa (z : Z) : GoString :=
  str (NilZero.string_of_int (Z.to_int z)).

Definition dash : GoString := str "-".

(** *** Framing *)

Record Decoder := {
  br : list Z;
  Version_ : SMBIOSVersion
}.

Definition NewDecoder (r : list Z) : Decoder :=
  {| br := r; Version_ := {| Major := 0; Minor := 0 |} |}.

Definition headerLen : Z := 4.
Definition typeEndOfTable : Z := 127.
Definition extendedSizeThreyshold : Z := 32767.
Definition mbToByteConvRatio : Z := 1048576.
Definition kbToByteConvRatio : Z := 1024.
Definition sizeAsPer2_1 : Z := 17.
Definition sizeAsPer2_3 : Z := 23.
Definition sizeAsPer2_6 : Z := 24.
Definition sizeAsPer2_7 : Z := 30.
Definition sizeAsPer2_8 : Z := 36.

Definition parseHeader (r : list Z) : outcome (Header * list Z) :=
  '(b, r') <- ReadFull r 4 ;;
  Ok ({| Type_ := at_ b 0; Length := at_ b 1;
         Handle := Uint16 (slice b 2 4) |}, r').

Definition parseFormatted (l : Z) (r : list Z) : outcome (list Z * list Z) :=
  if l <? 0 then Err ErrUnexpectedEOF
  else if l =? 0 then Ok ([], r)
  else ReadFull r (Z.to_nat l).

(** [bufio.Reader.ReadBytes(delim)]: the bytes up to and including the
    first [delim]; [io.EOF] when the source ends first. *)
Fixpoint ReadBytes (delim : Z) (r : list Z) : outcome (list Z * list Z) :=
  match r with
  | [] => Err EOF
  | x :: r' =>
      if x =? delim then Ok ([x], r')
      else '(raw, r'') <- ReadBytes delim r' ;; Ok (x :: raw, r'')
  end.

Fixpoint dropLeading (c : Z) (b : list Z) : list Z :=
  match b with
  | x :: b' => if x =? c then dropLeading c b' else b
  | [] => []
  end.

(** [bytes.TrimRight(raw, "\x00")]. *)
Definition TrimRight (raw : list Z) (c : Z) : list Z :=
  rev (dropLeading c (rev raw)).

Definition parseString (r : list Z) : outcome (GoString * bool * list Z) :=
  '(raw, r1) <- ReadBytes 0 r ;;
  let b := TrimRight raw 0 in
  match r1 with
  | [] => Err EOF
  | p :: r2 =>
      if negb (p =? 0) then Ok (b, true, r1)
      else Ok (b, false, r2)
  end.

Fixpoint parseStringsLoop (fuel : nat) (r : list Z) (ss : list GoString)
  : outcome (list GoString * list Z) :=
  match fuel with
  | O => OutOfFuel
  | S f =>
      '(s, more, r') <- parseString r ;;
      let ss' := ss ++ [s] in
      if more then parseStringsLoop f r' ss' else Ok (ss', r')
  end.

Definition parseStrings (r : list Z) : outcome (list GoString * list Z) :=
  match r with
  | t0 :: t1 :: r' =>
      if (t0 =? 0) && (t1 =? 0) then Ok ([], r')
      else parseStringsLoop (length r) r []
  | _ => Err EOF
  end.

(** *** Layouts of the structs laid over the formatted block

    Offsets in bytes from [&fb[0]]; every field of these structs is
    naturally aligned, so Go inserts no padding before the ones read. *)
Module SMBIOSSystemInfo.
Definition Manufacturer : nat := 0.
Definition ProductName : nat := 1.
Definition Version : nat := 2.
Definition SN : nat := 3.
Definition UUID : nat := 4.
End SMBIOSSystemInfo.

Module SMBIOSBaseboardInfo.
Definition Manufacturer : nat := 0.
Definition Product : nat := 1.
Definition Version : nat := 2.
Definition SerialNumber : nat := 3.
End SMBIOSBaseboardInfo.

Module SMBIOSProcessorType.
Definition SocketDesignation : nat := 0.
Definition ProcessorType : nat := 1.
Definition ProcessorFamily : nat := 2.
Definition ProcessorManufacturer : nat := 3.
Definition ProcessorID : nat := 4.
Definition ProcessorVersion : nat := 12.
Definition Voltage : nat := 13.
Definition ExternalClock : nat := 14.
Definition MaxSpeed : nat := 16.
Definition CurrentSpeed : nat := 18.
Definition Status : nat := 20.
Definition ProcessorUpgrade : nat := 21.
Definition L1CacheHandle : nat := 22.
Definition L2CacheHandle : nat := 24.
Definition L3CacheHandle : nat := 26.
Definition SerialNumber : nat := 28.
Definition AssetTag : nat := 29.
Definition PartNumber : nat := 30.
Definition CoreCount : nat := 31.
Definition CoreEnabled : nat := 32.
Definition ThreadCount : nat := 33.
Definition ProcessorCharacteristics : nat := 34.
Definition ProcessorFamily2 : nat := 36.
Definition CoreCount2 : nat := 38.
Definition COreEnabled2 : nat := 40.
Definition ThreadCount2 : nat := 42.
End SMBIOSProcessorType.

(** Modelled from the spec: the declaration of [BIOSInfoRead] is missing;
    the strings of a BIOS record are "at formatted offsets 0 (vendor),
    1 (version), 4 (release date)". *)
Module BIOSInfoRead.
Definition Vendor : nat := 0.
Definition Version : nat := 1.
Definition ReleaseDate : nat := 4.
End BIOSInfoRead.

(** Modelled from the spec: the declaration of [SystemEnclosure] is
    missing; the chassis type is the "formatted byte at offset 0". *)
Module SystemEnclosureRead.
Definition Type_ : nat := 0.
End SystemEnclosureRead.

(** *** Type 1: system information *)

(** [for i := 0; (i < 16) && ((1 == only0x00) || (1 == only0xFF)); i++]. *)
Fixpoint uuidScan (uuid : list Z) (only0xFF only0x00 : bool) : bool * bool :=
  match uuid with
  | [] => (only0xFF, only0x00)
  | u :: rest =>
      if only0x00 || only0xFF then
        let only0x00' := if negb (u =? 0) then false else only0x00 in
        let only0xFF' := if negb (u =? 255) then false else only0xFF in
        uuidScan rest only0xFF' only0x00'
      else (only0xFF, only0x00)
  end.

Definition renderUUID (u : list Z) : GoString :=
  let x i := fmtX 2 (nth i u 0) in
  x 3%nat ++ x 2%nat ++ x 1%nat ++ x 0%nat ++ dash ++
  x 5%nat ++ x 4%nat ++ dash ++
  x 7%nat ++ x 6%nat ++ dash ++
  x 8%nat ++ x 9%nat ++ dash ++
  x 10%nat ++ x 11%nat ++ x 12%nat ++ x 13%nat ++ x 14%nat ++ x 15%nat.

Definition State := (list GoString * SystemInfo)%type.

Definition interpSystem (heap : nat -> Z) (h : Header) (fb : list Z)
  (st : State) : outcome State :=
  if Type_ h =? 1 then
    let '(ss, systemInfo) := st in
    _ <- addrOfFirst fb ;;
    let UUID :=
      map (fun i => peek8 fb heap (SMBIOSSystemInfo.UUID + i)) (seq 0 16) in
    let '(ss, systemInfo) :=
      if Length h >? 8 then
        let '(only0xFF, only0x00) := uuidScan UUID true true in
        if negb only0xFF && negb only0x00 then
          let strUUID := renderUUID UUID in
          (ss ++ [strUUID], set_VirtualMachineUUID strUUID systemInfo)
        else (ss, systemInfo)
      else (ss, systemInfo) in
    let ProductName := peek8 fb heap SMBIOSSystemInfo.ProductName in
    let Manufacturer := peek8 fb heap SMBIOSSystemInfo.Manufacturer in
    let SN := peek8 fb heap SMBIOSSystemInfo.SN in
    systemInfo <-
      (if ProductName >? 0 then
         s <- index ss (ProductName - 1) ;;
         Ok (set_SystemManufacturerRef s systemInfo)
       else Ok systemInfo) ;;
    systemInfo <-
      (if Manufacturer >? 0 then
         s <- index ss (Manufacturer - 1) ;;
         Ok (set_SystemProductName s systemInfo)
       else Ok systemInfo) ;;
    systemInfo <-
      (if SN >? 0 then
         s <- index ss (SN - 1) ;;
         Ok (set_BiosSerial s systemInfo)
       else Ok systemInfo) ;;
    Ok (ss, systemInfo)
  else Ok st.

(** *** Type 2: baseboard *)

(** [if n > 0 && n <= valArrSize { f = ss[n-1] }] with [f] initially
    empty. *)
Definition lookupChecked (ss : list GoString) (valArrSize n : Z)
  : outcome GoString :=
  if (n >? 0) && (n <=? valArrSize) then index ss (n - 1) else Ok [].

Definition interpBaseboard (heap : nat -> Z) (h : Header) (fb : list Z)
  (st : State) : outcome State :=
  if Type_ h =? 2 then
    let '(ss, systemInfo) := st in
    _ <- addrOfFirst fb ;;
    let valArrSize := uint8 (len ss) in
    let Manufacturer := peek8 fb heap SMBIOSBaseboardInfo.Manufacturer in
    let Product := peek8 fb heap SMBIOSBaseboardInfo.Product in
    let Version := peek8 fb heap SMBIOSBaseboardInfo.Version in
    let SerialNumber := peek8 fb heap SMBIOSBaseboardInfo.SerialNumber in
    m <- lookupChecked ss valArrSize Manufacturer ;;
    p <- lookupChecked ss valArrSize Product ;;
    v <- lookupChecked ss valArrSize Version ;;
    '(sn, systemInfo) <-
      (if (SerialNumber >? 0) && (SerialNumber <=? valArrSize) then
         val <- index ss (SerialNumber - 1) ;;
         Ok (val, set_MotherboardAdapter val systemInfo)
       else Ok ([], systemInfo)) ;;
    let bbInfo := {| bbManufacturer := m; bbProduct := p; bbVersion := v;
                     bbSerialNumber := sn |} in
    Ok (ss, set_BaseboardInfo (Some bbInfo) systemInfo)
  else Ok st.

(** *** Type 3: system enclosure *)

Definition interpEnclosure (heap : nat -> Z) (h : Header) (fb : list Z)
  (st : State) : outcome State :=
  if Type_ h =? 3 then
    let '(ss, systemInfo) := st in
    _ <- addrOfFirst fb ;;
    let ty := peek8 fb heap SystemEnclosureRead.Type_ in
    Ok (ss, set_SystemEnclosure (Some {| seType := Z.land ty 127 |})
              systemInfo)
  else Ok st.

(** *** Type 4: processor *)

Definition interpProcessor (P : Platform) (heap : nat -> Z)
  (ver : SMBIOSVersion) (h : Header) (fb : list Z) (st : State)
  : outcome State :=
  if Type_ h =? 4 then
    let '(ss, systemInfo) := st in
    _ <- addrOfFirst fb ;;
    let u8 := peek8 fb heap in
    let u16 := peek16 (hostBigEndian P) fb heap in
    let ProcessorID :=
      map (fun i => u16 (SMBIOSProcessorType.ProcessorID + 2 * i)%nat)
          (seq 0 4) in
    let ProcessorType_ := u8 SMBIOSProcessorType.ProcessorType in
    let ProcessorFamily := u8 SMBIOSProcessorType.ProcessorFamily in
    let ProcessorManufacturer :=
      u8 SMBIOSProcessorType.ProcessorManufacturer in
    let CurrentSpeed := u16 SMBIOSProcessorType.CurrentSpeed in
    let CoreCount := u8 SMBIOSProcessorType.CoreCount in
    let CoreCount2 := u16 SMBIOSProcessorType.CoreCount2 in
    let isValidProcessorID := existsb (fun x => x >? 0) ProcessorID in
    let cpuID :=
      fmtX 4 (nth 3 ProcessorID 0) ++ fmtX 4 (nth 2 ProcessorID 0) ++
      fmtX 4 (nth 1 ProcessorID 0) ++ fmtX 4 (nth 0 ProcessorID 0) in
    let systemInfo :=
      if isValidProcessorID then set_ProcessorID cpuID systemInfo
      else systemInfo in
    let ID := if isValidProcessorID then cpuID else [] in
    let systemInfo :=
      if ProcessorType_ >? 0 then
        set_ProcessorType (fmtX 1 ProcessorType_) systemInfo
      else systemInfo in
    let Family := if ProcessorFamily >? 0 then ProcessorFamily else 0 in
    let Cores :=
      if (Major ver >=? 3) || (Minor ver <? 5) || (Minor ver >? 9) then
        if CoreCount2 >? 0 then CoreCount2 else 0
      else
        if CoreCount >? 0 then CoreCount else 0 in
    let valArrSize := uint8 (len ss) in
    Product <-
      (if (ProcessorManufacturer >? 0) && (ProcessorManufacturer <? valArrSize)
       then s <- index ss ProcessorManufacturer ;; Ok (TrimSpace P s)
       else Ok []) ;;
    let ClockSpeedInMHz := if CurrentSpeed >? 0 then CurrentSpeed else 0 in
    let processor :=
      {| procID := ID; procFamily := Family; procCoreCount := Cores;
         procProduct := Product; procClockSpeedInMHz := ClockSpeedInMHz |} in
    Ok (ss, set_Processors (Processors systemInfo ++ [processor]) systemInfo)
  else Ok st.

(** *** Type 17: memory device *)

Record MemoryInfoRead := {
  MemArrayHandle : Z;
  MemErrorInfoHandle : Z;
  TotalWidth : Z;
  DataWidth : Z;
  Size : Z;
  FormFactor : Z;
  DeviceSet : Z;
  DeviceLocator : Z;
  BankLocator : Z;
  MemType : Z;
  TypeDetail : Z;
  Speed : Z;
  Manufacturer : Z;
  SerialNumber : Z;
  AssetTag : Z;
  PartNumber : Z;
  Attribute : Z;
  ExtendedSize : Z;
  ConfiguredMemClockSpeed : Z;
  MinVoltage : Z;
  MaxVoltage : Z;
  ConfiguredVoltage : Z
}.

(** The length-gated copies into [memInfo]; a field whose gate is closed
    keeps its zero value. *)
Definition readMemInfo (fb : list Z) : MemoryInfoRead :=
  let fbLen := len fb in
  let v21 (x : Z) := if fbLen >=? sizeAsPer2_1 then x else 0 in
  let v23 (x : Z) := if fbLen >=? sizeAsPer2_3 then x else 0 in
  let v26 (x : Z) := if fbLen >=? sizeAsPer2_6 then x else 0 in
  let v27 (x : Z) := if fbLen >=? sizeAsPer2_7 then x else 0 in
  let v28 (x : Z) := if fbLen >=? sizeAsPer2_8 then x else 0 in
  {| MemArrayHandle := v21 (Uint16 (slice fb 0 2));
     MemErrorInfoHandle := v21 (Uint16 (slice fb 2 4));
     TotalWidth := v21 (Uint16 (slice fb 4 6));
     DataWidth := v21 (Uint16 (slice fb 6 8));
     Size := v21 (Uint16 (slice fb 8 10));
     FormFactor := v21 (at_ fb 10);
     DeviceSet := v21 (at_ fb 11);
     DeviceLocator := v21 (at_ fb 12);
     BankLocator := v21 (at_ fb 13);
     MemType := v21 (at_ fb 14);
     TypeDetail := v21 (Uint16 (slice fb 15 17));
     Speed := v23 (Uint16 (slice fb 17 19));
     Manufacturer := v23 (at_ fb 19);
     SerialNumber := v23 (at_ fb 20);
     AssetTag := v23 (at_ fb 21);
     PartNumber := v23 (at_ fb 22);
     Attribute := v26 (at_ fb 23);
     ExtendedSize := v27 (Uint32 (slice fb 24 28));
     ConfiguredMemClockSpeed := v27 (Uint16 (slice fb 28 30));
     MinVoltage := v28 (Uint16 (slice fb 30 32));
     MaxVoltage := v28 (Uint16 (slice fb 32 34));
     ConfiguredVoltage := v28 (Uint16 (slice fb 34 36)) |}.

Definition uint64 (z : Z) : Z := z mod 2 ^ 64.

(** The computation of [physicalMemory.SizeInBytes]; [fb9] is [fb[9]]. *)
Definition memSizeInByte (memInfo : MemoryInfoRead) (fbLen fb9 : Z) : Z :=
  let memSize := Size memInfo in
  let memSize :=
    if (Size memInfo =? extendedSizeThreyshold) && (fbLen >=? sizeAsPer2_7)
    then ExtendedSize memInfo else memSize in
  if Z.land fb9 128 =? 0 then uint64 (memSize * mbToByteConvRatio)
  else uint64 (memSize * kbToByteConvRatio).

Definition interpMemoryDevice (h : Header) (fb : list Z) (st : State)
  : outcome State :=
  if Type_ h =? 17 then
    let '(ss, systemInfo) := st in
    let fbLen := len fb in
    let memInfo := readMemInfo fb in
    let arrSize := uint8 (len ss) in
    pmManu <- lookupChecked ss arrSize (Manufacturer memInfo) ;;
    '(pmSer, systemInfo) <-
      (if (SerialNumber memInfo >? 0) && (SerialNumber memInfo <=? arrSize)
       then memSerNo <- index ss (SerialNumber memInfo - 1) ;;
            Ok (memSerNo, set_Memory memSerNo systemInfo)
       else Ok ([], systemInfo)) ;;
    fb9 <- index fb 9 ;;
    let SizeInBytes := memSizeInByte memInfo fbLen fb9 in
    let physicalMemory :=
      {| pmManufacturer := pmManu; pmSerialNumber := pmSer;
         pmSizeInBytes := SizeInBytes;
         pmTotalWidth :=
           if TotalWidth memInfo >? 0 then TotalWidth memInfo else 0;
         pmDataWidth :=
           if DataWidth memInfo >? 0 then DataWidth memInfo else 0 |} in
    if negb (SizeInBytes =? 0) then
      Ok (ss, set_PhyMemory (PhyMemory systemInfo ++ [physicalMemory])
                systemInfo)
    else Ok (ss, systemInfo)
  else Ok st.

(** *** Type 0: BIOS *)

Definition interpBIOS (heap : nat -> Z) (ver : SMBIOSVersion) (h : Header)
  (fb : list Z) (st : State) : outcome State :=
  if Type_ h =? 0 then
    let '(ss, systemInfo) := st in
    _ <- addrOfFirst fb ;;
    let valArrSize := uint8 (len ss) in
    let Vendor := peek8 fb heap BIOSInfoRead.Vendor in
    let Version := peek8 fb heap BIOSInfoRead.Version in
    let ReleaseDate := peek8 fb heap BIOSInfoRead.ReleaseDate in
    vendor <- lookupChecked ss valArrSize Vendor ;;
    version <- lookupChecked ss valArrSize Version ;;
    let BiosVersion :=
      if (Major ver >=? 0) && (Minor ver >=? 0) then
        Itoa (Major ver) ++ str "." ++ Itoa (Minor ver)
      else [] in
    date <-
      (if ReleaseDate >? 0 then index ss (ReleaseDate - 1) else Ok []) ;;
    let biosInfo :=
      {| biosVendor := vendor; biosVersion := version;
         biosBiosVersion := BiosVersion; biosReleaseDate := date |} in
    Ok (ss, set_BiosInfo (Some biosInfo) systemInfo)
  else Ok st.

(** *** Decoder.next and Decoder.Decode *)

(** The blocks [if h.Type == ...] in the order of the source. *)
Definition interpret (P : Platform) (heap : nat -> Z) (ver : SMBIOSVersion)
  (h : Header) (fb : list Z) (ss : list GoString) : outcome State :=
  st <- interpSystem heap h fb (ss, SystemInfo0) ;;
  st <- interpBaseboard heap h fb st ;;
  st <- interpEnclosure heap h fb st ;;
  st <- interpProcessor P heap ver h fb st ;;
  st <- interpMemoryDevice h fb st ;;
  interpBIOS heap ver h fb st.

(** [k] counts the structures decoded before this one. *)
Definition next (P : Platform) (k : nat) (d : Decoder)
  : outcome (Structure * Decoder) :=
  '(h, r1) <- parseHeader (br d) ;;
  let l := Length h - headerLen in
  '(fb, r2) <- parseFormatted l r1 ;;
  '(ss, r3) <- parseStrings r2 ;;
  '(ss, systemInfo) <- interpret P (junk P k) (Version_ d) h fb ss ;;
  Ok ({| Header_ := h; Formatted := fb; Strings := ss;
         SystemInfo_ := systemInfo |},
      {| br := r3; Version_ := Version_ d |}).

Fixpoint DecodeLoop (P : Platform) (fuel k : nat) (d : Decoder)
  (ss : list Structure) : outcome (list Structure) :=
  match fuel with
  | O => OutOfFuel
  | S fuel' =>
      match next P k d with
      | Ok (s, d') =>
          let ss := ss ++ [s] in
          if Type_ (Header_ s) =? typeEndOfTable then Ok ss
          else DecodeLoop P fuel' (S k) d' ss
      | Err e => Err e
      | Panic => Panic
      | OutOfFuel => OutOfFuel
      end
  end.

Definition Decode (P : Platform) (d : Decoder) : outcome (list Structure) :=
  DecodeLoop P (S (length (br d))) 0 d [].

(** ** The opaque stream (Stream, opaqueReadCloser)

    An [io.ReadCloser] is a state with the two methods.  [Read r n] is
    [r.Read(b)] for a buffer of [n] bytes: the bytes stored into the buffer,
    the error, and the reader afterwards. *)
Class ReadCloser (R : Type) := {
  Read : R -> nat -> (list Z * option error) * R;
  Close : R -> option error * R
}.

Record opaqueReadCloser (R : Type) := { rc : R }.

#[export] Instance opaqueReadCloser_ReadCloser {R} `{ReadCloser R}
  : ReadCloser (opaqueReadCloser R) := {
  Read o n := let '(res, r') := Read (rc o) n in (res, {| rc := r' |});
  Close o := let '(e, r') := Close (rc o) in (e, {| rc := r' |})
}.

(** [Stream]; [stream_] is what the platform's [stream()] returned. *)
Definition Stream {R EP} (stream_ : outcome (R * EP))
  : outcome (opaqueReadCloser R * EP) :=
  '(r, ep) <- stream_ ;;
  Ok ({| rc := r |}, ep).

(** Reading a stream to its first error with buffers of [n] bytes, at most
    [fuel] calls of [Read]. *)
Fixpoint drain {R} `{ReadCloser R} (fuel n : nat) (r : R)
  : list Z * option error :=
  match fuel with
  | O => ([], None)
  | S f =>
      let '((bs, e), r') := Read r n in
      match e with
      | Some e => (bs, Some e)
      | None => let '(rest, e') := drain f n r' in (bs ++ rest, e')
      end
  end.

(** A [bytes.Reader] wrapped by [ioutil.NopCloser], as memoryStream
    returns it. *)
#[export] Instance bytesReader_ReadCloser : ReadCloser (list Z) := {
  Read r n :=
    match r with
    | [] => (([], Some EOF), r)
    | _ => ((firstn n r, None), skipn n r)
    end;
  Close r := (None, r)
}.

(** ** The rules of the specification, for comparison *)

(** "0 means absent; n > vector length means absent; otherwise the n-th
    string with 1-based indexing". *)
Definition specResolve (strings : list GoString) (n : Z) : option GoString :=
  if (n =? 0) || (n >? len strings) then None
  else nth_error strings (Z.to_nat (n - 1)).

(** An absent string field of a projection is the empty Go string. *)
Definition fieldOf (o : option GoString) : GoString :=
  match o with Some s => s | None => [] end.

(** "if the 16-bit size equals 0x7FFF and the formatted block reaches 30
    bytes, use the 32-bit extended size, interpreted in megabytes.
    Otherwise ... bit 15 = 0 means megabytes, bit 15 = 1 means kilobytes
    (mask bit 15 off before multiplying)". *)
Definition specSizeInBytes (size extended_size fbLen : Z) : Z :=
  if (size =? 32767) && (fbLen >=? 30) then extended_size * 1048576
  else if Z.testbit size 15 then Z.land size 32767 * 1024
  else Z.land size 32767 * 1048576.

(** "core_count at byte 31 with fallback to the 16-bit core_count2 ... when
    SMBIOS major >= 3 and the 8-bit field is 0xFF". *)
Definition specCoreCount (major core_count core_count2 : Z) : Z :=
  if (major >=? 3) && (core_count =? 255) then core_count2 else core_count.

(** A [uint16] stored at [b[0:2]] in host byte order. *)
Definition nativeUint16 (be : bool) (b : list Z) : Z :=
  if be then Z.lor (Z.shiftl (at_ b 0) 8) (at_ b 1) else Uint16 b.

(** The checks of parse32 / parse64 that precede the checksum. *)
Definition anchorChecks (b : list Z) : bool :=
  (HasPrefix b magic32 && (31 <=? len b) && (len b =? at_ b 5) &&
   bytesEqual (slice b 16 21) magicDMI)
  || (HasPrefix b magic64 && (24 <=? len b) && (len b =? at_ b 6)).


(** The core count as the specification states it, for the structure that
    [next] decodes first from [record]. *)
Definition coreCountAsSpecified (P : Platform) (ver : SMBIOSVersion)
  (record : list Z) : Prop :=
  forall s d',
    next P 0 {| br := record; Version_ := ver |} = Ok (s, d') ->
    Type_ (Header_ s) = 4 ->
    map procCoreCount (Processors (SystemInfo_ s)) =
    [specCoreCount (Major ver)
       (at_ (Formatted s) SMBIOSProcessorType.CoreCount)
       (Uint16 (slice (Formatted s) 38 40))].

(** ** Test data *)

(** [strings.TrimSpace] restricted to strings of ASCII bytes. *)
Definition asciiSpace (c : Z) : bool :=
  (c =? 9) || (c =? 10) || (c =? 11) || (c =? 12) || (c =? 13) || (c =? 32).

Fixpoint trimLeft (s : GoString) : GoString :=
  match s with
  | c :: s' => if asciiSpace c then trimLeft s' else s
  | [] => []
  end.

Definition asciiTrimSpace (s : GoString) : GoString :=
  rev (trimLeft (rev (trimLeft s))).

(** A little-endian host whose heap is zeroed around the buffers. *)
Definition amd64 : Platform :=
  {| junk := fun _ _ => 0; hostBigEndian := false;
     TrimSpace := asciiTrimSpace |}.

(** TestParseEntryPoint, "32, OK" and "64, OK". *)
Definition ep32_ok : list Z :=
  str "_SM_" ++ [0xa4; 0x1f; 0x2; 0x8; 0xd4; 0x1; 0x0;
                 0x0; 0x0; 0x0; 0x0; 0x0] ++
  str "_DMI_" ++ [0x95; 0x5f; 0xf; 0x0; 0x90; 0xf0; 0x7a; 0x43; 0x0; 0x28].

Definition ep64_ok : list Z :=
  str "_SM3_" ++ [0x86; 0x18; 0x3; 0x0; 0x0; 0x1; 0x0; 0x53; 0x9; 0x0; 0x0;
                  0xb0; 0xb3; 0xe; 0x0; 0x0; 0x0; 0x0; 0x0].

(** TestDecoder, "no end of table". *)
Definition noEndOfTable : list Z := [0x01; 0x04; 0x01; 0x00; 0x00; 0x00].

(** TestDecoder, "OK, multiple". *)
Definition okMultiple : list Z :=
  [0x00; 0x05; 0x01; 0x00; 0xff; 0x00; 0x00] ++
  [0x01; 0x0c; 0x02; 0x00;
   0xde; 0xad; 0xbe; 0xef; 0xde; 0xad; 0xbe; 0xef] ++
  str "deadbeef" ++ [0x00; 0x00] ++
  [127; 0x06; 0x03; 0x00; 0x01; 0x02] ++
  str "abcd" ++ [0x00] ++ str "1234" ++ [0x00; 0x00].

Definition endOfTable : list Z := [127; 4; 9; 0; 0; 0].

(** A complete type-1 record (SMBIOS 2.4 layout, 23 formatted bytes):
    manufacturer = string 1, product name = string 2, version = none,
    serial number = string 3, then the UUID, wake-up type, SKU, family. *)
Definition systemUUID : list Z :=
  [0xA4; 0x98; 0x35; 0x10; 0x71; 0xE2; 0x11; 0xE2;
   0xAD; 0xB1; 0xDF; 0x8B; 0xE4; 0x84; 0x1F; 0x5B].

Definition systemStrings : list GoString :=
  [str "Acme"; str "Widget"; str "S123"].

Definition systemRecord (uuid : list Z) : list Z :=
  [1; 27; 1; 0] ++ [1; 2; 0; 3] ++ uuid ++ [6; 0; 0] ++
  str "Acme" ++ [0] ++ str "Widget" ++ [0] ++ str "S123" ++ [0; 0].

(** A type-1 record whose serial-number index exceeds its single string. *)
Definition systemRecordBadIndex : list Z :=
  [1; 27; 1; 0] ++ [0; 0; 0; 5] ++ repeat 0 16 ++ [6; 0; 0] ++
  str "Acme" ++ [0; 0].

(** A type-0 record whose release-date index exceeds its two strings. *)
Definition biosRecordBadIndex : list Z :=
  [0; 24; 0; 0] ++ [1; 2; 0; 0xe0; 3] ++ repeat 0 15 ++
  str "Vendor" ++ [0] ++ str "1.0" ++ [0; 0].

(** A complete type-4 record (SMBIOS 3.0 layout, 44 formatted bytes) with
    the given manufacturer index, core count and core count 2, and the
    strings "CPU0", "Intel", "Xeon". *)
Definition processorFormatted (manufacturer cores cores2lo cores2hi : Z)
  : list Z :=
  [1; 3; 0xb3; manufacturer] ++ [0xf2; 0x06; 0x03; 0x00; 0xff; 0xfb; 0xeb; 0xbf]
  ++ [3; 0x88] ++ [100; 0; 0xa0; 0x0f; 0xb8; 0x0b] ++ [0x41; 1]
  ++ [4; 0; 5; 0; 6; 0] ++ [0; 0; 0] ++ [cores; cores; 16] ++ [4; 0]
  ++ [0xb3; 0] ++ [cores2lo; cores2hi] ++ [cores2lo; cores2hi] ++ [16; 0].

Definition processorStrings : list GoString :=
  [str "CPU0"; str "Intel"; str "Xeon"].

Definition processorRecord (manufacturer cores cores2lo cores2hi : Z)
  : list Z :=
  [4; 48; 4; 0] ++ processorFormatted manufacturer cores cores2lo cores2hi ++
  str "CPU0" ++ [0] ++ str "Intel" ++ [0] ++ str "Xeon" ++ [0; 0].

(** A type-17 record of the SMBIOS 2.3 layout (23 formatted bytes) with the
    given bytes of the size field and the string "DIMM0". *)
Definition memoryFormatted (sizeLo sizeHi : Z) : list Z :=
  [0x10; 0; 0xfe; 0xff; 64; 0; 64; 0] ++ [sizeLo; sizeHi] ++
  [9; 0; 1; 0; 0x18; 0x80; 0] ++ [0x40; 0x06; 0; 0; 0; 0].

Definition memoryRecord (sizeLo sizeHi : Z) : list Z :=
  [17; 27; 17; 0] ++ memoryFormatted sizeLo sizeHi ++ str "DIMM0" ++ [0; 0].



(** ** The sequence of structures of a stream

    [framed P k d ss]: starting from decoder state [d] (with [k] structures
    already decoded), successive calls of [next] return the structures [ss]
    in this order, the last of them being the first of type 127. *)
Inductive framed (P : Platform) : nat -> Decoder -> list Structure -> Prop :=
| framed_last k d s d' :
    next P k d = Ok (s, d') ->
    Type_ (Header_ s) = typeEndOfTable ->
    framed P k d [s]
| framed_more k d s d' ss :
    next P k d = Ok (s, d') ->
    Type_ (Header_ s) <> typeEndOfTable ->
    framed P (S k) d' ss ->
    framed P k d (s :: ss).

(** [failing P k d n r]: [n] calls of [next] return structures that are not
    of type 127, and the call after them ends with [r]. *)
Inductive failing (P : Platform)
  : nat -> Decoder -> nat -> outcome (Structure * Decoder) -> Prop :=
| failing_now k d r :
    next P k d = r -> isOk r = false -> failing P k d 0 r
| failing_later k d s d' n r :
    next P k d = Ok (s, d') ->
    Type_ (Header_ s) <> typeEndOfTable ->
    failing P (S k) d' n r ->
    failing P k d (S n) r.

(** A model loop never reports an exhausted budget. *)
Definition noFuel {A} (m : outcome A) : Prop := m <> OutOfFuel.

(** ** Checking a property on all bytes *)

Definition byteRange : list Z := map Z.of_nat (seq 0 256).

(** Facts about a 16-bit little-endian value [size] stored as the bytes
    [b8], [b9]: bit 15 of [size] is bit 7 of [b9]; masking bit 15 off a
    value that has it clear changes nothing; [size] is below 2^16. *)
Definition sizeFieldFacts (b8 b9 : Z) : bool :=
  let size := Uint16 [b8; b9] in
  Bool.eqb (Z.testbit size 15) (negb (Z.land b9 128 =? 0)) &&
  (Z.testbit size 15 || (Z.land size 32767 =? size)) &&
  (0 <=? size) && (size <? 65536).

(** ** Structures as they lie in the stream

    The layout that [Decoder.next] reads: four header bytes, the formatted
    block, then the string-set: every string followed by a zero byte and one
    more zero byte after the last one, or two zero bytes when there is no
    string. *)

(** A string that can stand in a string-set: not empty, no zero byte. *)
Definition wellFormedString (s : GoString) : Prop :=
  s <> [] /\ Forall (fun c => c <> 0) s.

Definition terminated (ss : list GoString) : list Z :=
  concat (map (fun s => s ++ [0]) ss).

Definition encodeStrings (ss : list GoString) : list Z :=
  match ss with
  | [] => [0; 0]
  | _ :: _ => terminated ss ++ [0]
  end.

(** A structure on the wire; [h0], [h1] are the two bytes of the handle. *)
Record Raw := {
  rawType : Z;
  rawH0 : Z;
  rawH1 : Z;
  rawFormatted : list Z;
  rawStrings : list GoString
}.

Definition encodeStructure (x : Raw) : list Z :=
  [rawType x; headerLen + len (rawFormatted x); rawH0 x; rawH1 x] ++
  rawFormatted x ++ encodeStrings (rawStrings x).

(** The structure [next] is expected to return for [x] when the type of [x]
    has no typed projection. *)
Definition rawStructure (x : Raw) : Structure :=
  {| Header_ := {| Type_ := rawType x;
                   Length := headerLen + len (rawFormatted x);
                   Handle := Uint16 [rawH0 x; rawH1 x] |};
     Formatted := rawFormatted x;
     Strings := rawStrings x;
     SystemInfo_ := SystemInfo0 |}.

(** The header types for which [Decoder.next] has an [if h.Type == ...]
    block. *)
Definition recognized (ty : Z) : bool :=
  (ty =? 1) || (ty =? 2) || (ty =? 3) || (ty =? 4) || (ty =? 17) || (ty =? 0).

Definition wellFormedRaw (x : Raw) : Prop :=
  Forall wellFormedString (rawStrings x).

(** A stream of structures, one after the other. *)
Definition encodeAll (xs : list Raw) : list Z :=
  concat (map encodeStructure xs).

(** Test data: a structure of a type without typed projection, and the
    end-of-table structure of the test "OK, one, format, strings". *)
Definition oemRaw : Raw :=
  {| rawType := 200; rawH0 := 7; rawH1 := 0; rawFormatted := [0xde; 0xad];
     rawStrings := [str "deadbeef"] |}.

Definition endRaw : Raw :=
  {| rawType := 127; rawH0 := 1; rawH1 := 0; rawFormatted := [1; 2];
     rawStrings := [str "abcd"; str "1234"] |}.

(** A call that returns a value or panics, but reports no error and never
    exhausts a budget. *)
Definition okOrPanic {A} (m : outcome A) : Prop :=
  match m with
  | Ok _ | Panic => True
  | Err _ | OutOfFuel => False
  end.

(** A call whose only errors are the two of package [io]. *)
Definition ioErrorsOnly {A} (m : outcome A) : Prop :=
  forall e, m = Err e -> e = EOF \/ e = ErrUnexpectedEOF.

(** ** What the memory-device block reports

    The size in bytes computed from the size field [size], the extended size
    [ext] and the length [fbLen] of the formatted block. *)
Definition reportedBytes (size ext fbLen : Z) : Z :=
  if (size =? extendedSizeThreyshold) && (fbLen >=? sizeAsPer2_7)
  then ext * mbToByteConvRatio
  else if size <? 32768 then size * mbToByteConvRatio
  else size * kbToByteConvRatio.

(** Bit 7 of the high byte [b9] of a little-endian 16-bit value is clear
    exactly when the value is below 2^15. *)
Definition highBitFacts (b8 b9 : Z) : bool :=
  Bool.eqb (Z.land b9 128 =? 0) (Uint16 [b8; b9] <? 32768).

(** ** String references as the guarded paths resolve them

    [n] selects the [n]-th string, counted from 1, when it is positive and
    at most the number of strings taken modulo 256 (the bound is computed as
    [byte(len(ss))]); otherwise the field stays empty. *)
Definition pick (ss : list GoString) (n : Z) : GoString :=
  if (n >? 0) && (n <=? len ss mod 256)
  then nth (Z.to_nat (n - 1)) ss []
  else [].

(** The sixteen UUID bytes of a system structure: formatted offsets 4 to
    19. *)
Definition uuidOf (fb : list Z) : list Z :=
  map (fun i => at_ fb (SMBIOSSystemInfo.UUID + i)) (seq 0 16).

Definition allEqual (c : Z) (u : list Z) : bool := forallb (Z.eqb c) u.

(** A string as the decoder returns it holds no zero byte. *)
Definition noNul (s : GoString) : Prop := Forall (fun c => c <> 0) s.

(** [encodes s x]: [x] is the structure [s] as it lies in the stream.  The
    strings of [s] are the ones of [x], with at most one string added at the
    end and only for a structure of type 1. *)
Definition encodes (s : Structure) (x : Raw) : Prop :=
  rawType x = Type_ (Header_ s) /\
  Handle (Header_ s) = Uint16 [rawH0 x; rawH1 x] /\
  Length (Header_ s) = headerLen + len (Formatted s) /\
  rawFormatted x = Formatted s /\
  Forall noNul (rawStrings x) /\
  (Strings s = rawStrings x \/
   Type_ (Header_ s) = 1 /\ exists u, Strings s = rawStrings x ++ [u]).

(** ** memoryStream (stream_linux.go)

    [ep.Table()] and [magicPrefix] are declared outside the files at hand and
    are arguments of the model.  [ParseEntryPoint(rs)] reads from the reader
    positioned at the anchor; the position it leaves is overwritten by the
    next [Seek], which is absolute.  [make([]byte, tableSize)] panics on a
    negative size; the allocation itself is taken to succeed.  The result is
    the copy [out] behind [bytes.NewReader] and the entry point. *)
Definition memoryStream (Table : EntryPoint -> Z * Z)
  (magicPrefix mem : list Z) (startAddr endAddr : Z)
  : outcome (list Z * EntryPoint) :=
  addr <- findEntryPoint magicPrefix mem startAddr endAddr ;;
  rs <- Seek mem addr ;;
  ep <- ParseEntryPoint rs ;;
  let '(tableAddr, tableSize) := Table ep in
  rs <- Seek mem tableAddr ;;
  if tableSize <? 0 then Panic else
  '(out, _) <- ReadFull rs (Z.to_nat tableSize) ;;
  Ok (out, ep).

(** The length byte of an entry point. *)
Definition entryLength (ep : EntryPoint) : Z :=
  match ep with
  | EP32 h => Length32 h
  | EP64 h => Length64 h
  end.

(** A memory image of 80 bytes: the 64-bit entry point of the tests at
    address 16, followed by forty more bytes of memory. *)
Definition entryPointInMemory : list Z := repeat 0 16 ++ ep64_ok ++ repeat 0 40.

(** A memory image that ends with the entry point: the table it names is
    the paragraph at address 0. *)
Definition entryPointLast : list Z := repeat 7 16 ++ ep64_ok.

(** ** Entry points written by the tests (stream_memory_test.go)

    [b[i] = v] and [copy(b[i:j], src)] on a slice whose capacity is its
    length: an index or a slice bound beyond it panics; [copy] moves as many
    bytes as fit. *)
Definition setAt (b : list Z) (i : nat) (v : Z) : outcome (list Z) :=
  if (i <? length b)%nat then Ok (firstn i b ++ v :: skipn (S i) b)
  else Panic.

Definition copyInto (b : list Z) (i j : nat) (src : list Z)
  : outcome (list Z) :=
  if (i <=? j)%nat && (j <=? length b)%nat then
    let n := Nat.min (j - i) (length src) in
    Ok (firstn i b ++ firstn n src ++ skipn (i + n) b)
  else Panic.

(** [binary.LittleEndian.PutUint32] and [PutUint64]: the bytes written. *)
Definition PutUint32 (v : Z) : list Z :=
  [uint8 v; uint8 (Z.shiftr v 8); uint8 (Z.shiftr v 16);
   uint8 (Z.shiftr v 24)].

Definition PutUint64 (v : Z) : list Z :=
  [uint8 v; uint8 (Z.shiftr v 8); uint8 (Z.shiftr v 16);
   uint8 (Z.shiftr v 24); uint8 (Z.shiftr v 32); uint8 (Z.shiftr v 40);
   uint8 (Z.shiftr v 48); uint8 (Z.shiftr v 56)].

(** [marshal64].  The constants [expLen64] and [chkIndex64] are declared
    outside the files at hand and are arguments of the model; the loop that
    sums the bytes is the loop of [checksum], started from 0. *)
Definition marshal64 (expLen64 chkIndex64 : nat) (ep : EntryPoint64Bit)
  : outcome (list Z) :=
  let b := repeat 0 expLen64 in
  b <- copyInto b 0 5 magic64 ;;
  b <- setAt b 6 (Z.of_nat expLen64) ;;
  b <- setAt b 7 (Major64 ep) ;;
  b <- setAt b 8 (Minor64 ep) ;;
  b <- setAt b 9 (Revision64 ep) ;;
  b <- setAt b 10 (EntryPointRevision64 ep) ;;
  b <- setAt b 11 (Reserved64 ep) ;;
  b <- copyInto b 12 16 (PutUint32 (StructureTableMaxSize ep)) ;;
  b <- copyInto b 16 24 (PutUint64 (StructureTableAddress64 ep)) ;;
  let chk := checksumLoop chkIndex64 0 b 0 in
  setAt b 5 (uint8 (256 - chk)).

(** The low [n] bytes of [v], least significant first. *)
Fixpoint leBytes (n : nat) (v : Z) : list Z :=
  match n with
  | O => []
  | S n' => uint8 v :: leBytes n' (Z.shiftr v 8)
  end.

(** The fields [marshal64] writes are of Go's fixed-width unsigned types. *)
Definition wellTyped64 (ep : EntryPoint64Bit) : Prop :=
  is_byte (Major64 ep) /\ is_byte (Minor64 ep) /\ is_byte (Revision64 ep) /\
  is_byte (EntryPointRevision64 ep) /\ is_byte (Reserved64 ep) /\
  0 <= StructureTableMaxSize ep < 2 ^ 32 /\
  0 <= StructureTableAddress64 ep < 2 ^ 64.

(** The entry point of Test_memoryStream, "64, OK". *)
Definition testEntryPoint64 : EntryPoint64Bit :=
  {| Anchor64 := []; Checksum64 := 0; Length64 := 0; Major64 := 0;
     Minor64 := 0; Revision64 := 0; EntryPointRevision64 := 0;
     Reserved64 := 0; StructureTableMaxSize := 512;
     StructureTableAddress64 := 0x00f0 |}.

(** The shape of a rendered UUID: 36 characters, dashes at positions 8, 13,
    18 and 23, upper-case hexadecimal digits elsewhere. *)
Definition isUpperHex (c : Z) : bool :=
  ((48 <=? c) && (c <=? 57)) || ((65 <=? c) && (c <=? 70)).

Definition dashAt (i : nat) : bool :=
  (i =? 8)%nat || (i =? 13)%nat || (i =? 18)%nat || (i =? 23)%nat.

Definition uuidShape (s : GoString) : bool :=
  (length s =? 36)%nat &&
  forallb (fun ic => if dashAt (fst ic) then snd ic =? 45
                     else isUpperHex (snd ic))
          (combine (seq 0 36) s).

(** [%02X] of a byte, digit by digit. *)
Definition hexPair (x : Z) : GoString :=
  [hexDigit (x / 16); hexDigit (x mod 16)].

(** ** The Windows stream (stream_windows.go)

    [GetSystemFirmwareTable] is called twice.  The first call, with an empty
    buffer, returns the size needed ([sizeCall]); the second is given a
    buffer of [bufferSize] zero bytes and returns a count and the bytes it
    wrote at the start of that buffer ([readCall bufferSize]).  Both results
    are [uintptr] values, not negative. *)

Module Windows.

Definition rawSMBIOSDataHeaderSize : Z := 8.

Definition uint32 (z : Z) : Z := z mod 2 ^ 32.

Record WindowsEntryPoint := {
  Size : Z;
  MajorVersion : Z;
  MinorVersion : Z;
  Revision : Z
}.

(** [Version] of a [WindowsEntryPoint]. *)
Definition Version (e : WindowsEntryPoint) : Z * Z * Z :=
  (MajorVersion e, MinorVersion e, Revision e).

(** [Table] of a [WindowsEntryPoint]: the address is always 0. *)
Definition Table (e : WindowsEntryPoint) : Z * Z := (0, Size e).

(** The errors [stream] builds with [fmt.Errorf] and [errors.New], in the
    order of the source. *)
Inductive streamError : Type :=
| ErrSizeUnknown
| ErrReportedSizeTooSmall (r1 : Z)
| ErrBufferTooSmall (bufferSize bytesWritten : Z)
| ErrReadFailed
| ErrWroteTooLittle (bytesWritten : Z)
| ErrTableExceedsBuffer.

Inductive result (A : Type) : Type :=
| Returned (a : A)
| Failed (e : streamError)
| Panicked.

Arguments Failed {A} e.
Arguments Panicked {A}.

(** [binary.BigEndian.Uint32] and [PutUint32]. *)
Definition BigEndianUint32 (b : list Z) : Z := LittleEndian (rev (firstn 4 b)).
Definition BigEndianPutUint32 (v : Z) : list Z := rev (PutUint32 v).

(** [nativeEndian()]: big-endian unless the first byte of [uint16(1)] in
    memory is 1. *)
Definition nativeUint32 (be : bool) (b : list Z) : Z :=
  if be then BigEndianUint32 b else Uint32 b.

Definition nativePutUint32 (be : bool) (v : Z) : list Z :=
  if be then BigEndianPutUint32 v else PutUint32 v.

(** The buffer after the second call: [bufferSize] bytes, the written ones
    first, zero where nothing was written. *)
Definition bufferAfter (bufferSize : Z) (written : list Z) : list Z :=
  firstn (Z.to_nat bufferSize) (written ++ repeat 0 (Z.to_nat bufferSize)).

(** [stream].  [&buffer[0]] panics on an empty buffer;
    [rawSMBIOSDataHeaderSize+tableSize] is a [uint32] sum and wraps around;
    the slice expression [buffer[8 : 8+tableSize]] panics when its upper
    bound is below 8. *)
Definition stream (be : bool) (sizeCall : Z) (readCall : Z -> Z * list Z)
  : result (list Z * WindowsEntryPoint) :=
  let r1 := sizeCall in
  if r1 =? 0 then Failed ErrSizeUnknown else
  if r1 <? rawSMBIOSDataHeaderSize then Failed (ErrReportedSizeTooSmall r1)
  else
  let bufferSize := uint32 r1 in
  if bufferSize =? 0 then Panicked else
  let '(r1, written) := readCall bufferSize in
  let buffer := bufferAfter bufferSize written in
  let bytesWritten := uint32 r1 in
  if bytesWritten >? bufferSize
  then Failed (ErrBufferTooSmall bufferSize bytesWritten) else
  if bytesWritten =? 0 then Failed ErrReadFailed else
  if bytesWritten <? rawSMBIOSDataHeaderSize
  then Failed (ErrWroteTooLittle bytesWritten) else
  let tableSize := nativeUint32 be (slice buffer 4 8) in
  let high := uint32 (rawSMBIOSDataHeaderSize + tableSize) in
  if high >? bytesWritten then Failed ErrTableExceedsBuffer else
  let entryPoint := {| Size := tableSize;
                       MajorVersion := at_ buffer 1;
                       MinorVersion := at_ buffer 2;
                       Revision := at_ buffer 3 |} in
  if high <? rawSMBIOSDataHeaderSize then Panicked else
  Returned (slice buffer 8 (Z.to_nat high), entryPoint).

(** [makeRawSMBIOSData] of the tests: a zeroed buffer of
    [rawSMBIOSDataHeaderSize+len(stream)] bytes with the version bytes at 1,
    2 and 3, the length at 4 to 7 in host byte order and the stream
    from 8. *)
Definition makeRawSMBIOSData (be : bool) (major minor revision : Z)
  (stream : list Z) : list Z :=
  [0; major; minor; revision] ++
  nativePutUint32 be (uint32 (len stream)) ++ stream.

End Windows.

(** The four 16-bit words of the processor ID, formatted offsets 4 to 11,
    and their rendering. *)
Definition idWord (be : bool) (fb : list Z) (i : nat) : Z :=
  nativeUint16 be (slice fb (4 + 2 * i) (6 + 2 * i)).

Definition cpuIDOf (be : bool) (fb : list Z) : GoString :=
  fmtX 4 (idWord be fb 3) ++ fmtX 4 (idWord be fb 2) ++
  fmtX 4 (idWord be fb 1) ++ fmtX 4 (idWord be fb 0).

(** Facts about a 16-bit value stored as two bytes, in either byte order:
    it is zero only when both bytes are, and [%04X] renders it with four
    characters. *)
Definition idWordFacts (b0 b1 : Z) : bool :=
  forallb (fun be =>
             let w := nativeUint16 be [b0; b1] in
             Bool.eqb (w >? 0) (negb ((0 =? b0) && (0 =? b1))) &&
             (length (fmtX 4 w) =? 4)%nat)
          [true; false].

(** The processor block of an SMBIOS 2.5 to 2.9 record: the first 36
    formatted bytes, which end before the core_count2 field. *)
Definition processorFormatted2_5 (manufacturer cores : Z) : list Z :=
  firstn 36 (processorFormatted manufacturer cores 0 0).

(** ** The decoder over any reader

    [NewDecoder] accepts any [io.Reader].  Through its [bufio.Reader] the
    decoder sees of a reader the bytes it delivers and, once these are used
    up, the first error reported for it: [io.EOF] for a source that ends, the
    reader's own error otherwise.  Decoding stops at the first error, so
    nothing the reader does later matters.  The functions below are the
    framing functions with that error, [fault], as an argument:
    [io.ReadFull] turns [io.EOF] after a partial read into
    [io.ErrUnexpectedEOF] and returns any other error as it is; [Peek] and
    [ReadBytes] return the error as it is. *)

Module AnyReader.

Definition ReadFull (fault : error) (r : list Z) (n : nat)
  : outcome (list Z * list Z) :=
  if (n <=? length r)%nat then Ok (firstn n r, skipn n r)
  else match fault, r with
       | EOF, _ :: _ => Err ErrUnexpectedEOF
       | _, _ => Err fault
       end.

Definition parseHeader (fault : error) (r : list Z)
  : outcome (Header * list Z) :=
  '(b, r') <- ReadFull fault r 4 ;;
  Ok ({| Type_ := at_ b 0; Length := at_ b 1;
         Handle := Uint16 (slice b 2 4) |}, r').

Definition parseFormatted (fault : error) (l : Z) (r : list Z)
  : outcome (list Z * list Z) :=
  if l <? 0 then Err ErrUnexpectedEOF
  else if l =? 0 then Ok ([], r)
  else ReadFull fault r (Z.to_nat l).

Fixpoint ReadBytes (fault : error) (delim : Z) (r : list Z)
  : outcome (list Z * list Z) :=
  match r with
  | [] => Err fault
  | x :: r' =>
      if x =? delim then Ok ([x], r')
      else '(raw, r'') <- ReadBytes fault delim r' ;; Ok (x :: raw, r'')
  end.

Definition parseString (fault : error) (r : list Z)
  : outcome (GoString * bool * list Z) :=
  '(raw, r1) <- ReadBytes fault 0 r ;;
  let b := TrimRight raw 0 in
  match r1 with
  | [] => Err fault
  | p :: r2 =>
      if negb (p =? 0) then Ok (b, true, r1)
      else Ok (b, false, r2)
  end.

Fixpoint parseStringsLoop (fault : error) (fuel : nat) (r : list Z)
  (ss : list GoString) : outcome (list GoString * list Z) :=
  match fuel with
  | O => OutOfFuel
  | S f =>
      '(s, more, r') <- parseString fault r ;;
      let ss' := ss ++ [s] in
      if more then parseStringsLoop fault f r' ss' else Ok (ss', r')
  end.

Definition parseStrings (fault : error) (r : list Z)
  : outcome (list GoString * list Z) :=
  match r with
  | t0 :: t1 :: r' =>
      if (t0 =? 0) && (t1 =? 0) then Ok ([], r')
      else parseStringsLoop fault (length r) r []
  | _ => Err fault
  end.

Definition next (fault : error) (P : Platform) (k : nat) (d : Decoder)
  : outcome (Structure * Decoder) :=
  '(h, r1) <- parseHeader fault (br d) ;;
  let l := Length h - headerLen in
  '(fb, r2) <- parseFormatted fault l r1 ;;
  '(ss, r3) <- parseStrings fault r2 ;;
  '(ss, systemInfo) <- interpret P (junk P k) (Version_ d) h fb ss ;;
  Ok ({| Header_ := h; Formatted := fb; Strings := ss;
         SystemInfo_ := systemInfo |},
      {| br := r3; Version_ := Version_ d |}).

Fixpoint DecodeLoop (fault : error) (P : Platform) (fuel k : nat)
  (d : Decoder) (ss : list Structure) : outcome (list Structure) :=
  match fuel with
  | O => OutOfFuel
  | S fuel' =>
      match next fault P k d with
      | Ok (s, d') =>
          let ss := ss ++ [s] in
          if Type_ (Header_ s) =? typeEndOfTable then Ok ss
          else DecodeLoop fault P fuel' (S k) d' ss
      | Err e => Err e
      | Panic => Panic
      | OutOfFuel => OutOfFuel
      end
  end.

Definition Decode (fault : error) (P : Platform) (d : Decoder)
  : outcome (list Structure) :=
  DecodeLoop fault P (S (length (br d))) 0 d [].

End AnyReader.



(** * Properties *)

(** ** Entry-point checksum *)

Section Checksum.

Lemma checksumLoop_range (k : nat) (b : list Z) :
  forall i chk, 0 <= chk < 256 -> 0 <= checksumLoop k i b chk < 256.
Proof.
  induction b as [|x b IH]; intros i chk Hchk; simpl; [exact Hchk|].
  destruct (i =? k)%nat.
  - now apply IH.
  - apply IH. unfold uint8. apply Z.mod_pos_bound. lia.
Qed.

(** Modulo 256 the loop adds every byte except the one at [chkIndex]. *)
Lemma checksumLoop_mod (k : nat) (b : list Z) :
  forall i chk,
    checksumLoop k i b chk mod 256 =
    (chk + byteSum b - (if (i <=? k)%nat then nth (k - i) b 0 else 0))
      mod 256.
Proof.
  induction b as [|x b IH]; intros i chk; simpl.
  - destruct (i <=? k)%nat; [destruct (k - i)%nat|]; f_equal; lia.
  - destruct (Nat.eqb_spec i k) as [-> | Hne].
    + rewrite IH, Nat.sub_diag.
      replace (S k <=? k)%nat with false
        by (symmetry; apply Nat.leb_gt; lia).
      rewrite Nat.leb_refl. f_equal. lia.
    + rewrite IH. unfold uint8.
      destruct (Nat.leb_spec i k) as [Hle|Hgt].
      * replace (S i <=? k)%nat with true
          by (symmetry; apply Nat.leb_le; lia).
        replace (k - i)%nat with (S (k - S i)) by lia. simpl.
        rewrite <- Z.add_sub_assoc, Z.add_mod_idemp_l by lia.
        f_equal. lia.
      * replace (S i <=? k)%nat with false
          by (symmetry; apply Nat.leb_gt; lia).
        rewrite <- Z.add_sub_assoc, Z.add_mod_idemp_l by lia.
        f_equal. lia.
Qed.

Lemma at_is_byte (b : list Z) (i : nat) : bytes_ok b -> is_byte (at_ b i).
Proof.
  intros Hb. unfold at_.
  destruct (nth_in_or_default i b 0) as [Hin | ->].
  - unfold bytes_ok in Hb. rewrite Forall_forall in Hb. now apply Hb.
  - unfold is_byte. lia.
Qed.

(** Started from the stored checksum byte, [checksum] accepts exactly the
    records whose bytes add up to zero modulo 256. *)
Lemma checksum_ok_iff (b : list Z) (k : nat) :
  bytes_ok b ->
  isOk (checksum (at_ b k) k b) = true <-> byteSum b mod 256 = 0.
Proof.
  intros Hb. unfold checksum.
  pose proof (checksumLoop_range k b 0 (at_is_byte k Hb)) as Hr.
  pose proof (checksumLoop_mod k b 0 (at_ b k)) as Hm.
  simpl in Hm. rewrite Nat.sub_0_r in Hm. fold (at_ b k) in Hm.
  replace (at_ b k + byteSum b - at_ b k) with (byteSum b) in Hm by lia.
  rewrite Z.mod_small in Hm by exact Hr.
  destruct (Z.eqb_spec (checksumLoop k 0 b (at_ b k)) 0) as [E|E]; simpl.
  - split; [intros _; lia | reflexivity].
  - split; [discriminate | intros H0; lia].
Qed.

Ltac prefix_step H b :=
  destruct b as [|? b]; [discriminate H|];
  cbn [HasPrefix] in H;
  let E := fresh "E" in
  apply andb_true_iff in H as [E H];
  apply Z.eqb_eq in E; subst.

Lemma HasPrefix_magic64_not_magic32 (b : list Z) :
  HasPrefix b magic64 = true -> HasPrefix b magic32 = false.
Proof.
  intros H. change magic64 with [95; 83; 77; 51; 95] in H.
  do 4 prefix_step H b. reflexivity.
Qed.

Lemma bind_isOk {A B} (m : outcome A) (f : A -> B) :
  isOk (x <- m ;; Ok (f x)) = isOk m.
Proof. now destruct m. Qed.

(** C5.  Once the anchor, length and intermediate-anchor checks have passed,
  ParseEntryPoint accepts the record (32-bit or 64-bit) if and only if the
  sum of all its bytes, the stored checksum byte counted once, is zero
  modulo 256. *)
Theorem entry_point_accepted_iff_sum_zero (r : list Z) :
let b := ReadAllLimit r 64 in
bytes_ok b ->
anchorChecks b = true ->
isOk (ParseEntryPoint r) = true <-> byteSum b mod 256 = 0.
Proof.
intros b Hb Hc. unfold ParseEntryPoint. fold b.
unfold anchorChecks in Hc.
apply orb_true_iff in Hc as [Hc|Hc].
- repeat (apply andb_true_iff in Hc as [Hc ?]).
  assert (Hl : (len b <? 4) = false) by (apply Z.ltb_ge; lia).
  rewrite Hl, Hc, bind_isOk. unfold parse32.
  replace (len b <? 31) with false by (symmetry; apply Z.ltb_ge; lia).
  replace (len b =? at_ b 5) with true by (symmetry; assumption).
  replace (bytesEqual (slice b 16 21) magicDMI) with true
    by (symmetry; assumption).
  cbn [negb].
  rewrite <- (checksum_ok_iff 4 Hb).
  destruct (checksum (at_ b 4) 4 b) as [[]| | |]; simpl; tauto.
- repeat (apply andb_true_iff in Hc as [Hc ?]).
  assert (Hl : (len b <? 4) = false) by (apply Z.ltb_ge; lia).
  rewrite Hl, (HasPrefix_magic64_not_magic32 _ Hc), Hc, bind_isOk.
  unfold parse64.
  replace (len b <? 24) with false by (symmetry; apply Z.ltb_ge; lia).
  replace (len b =? at_ b 6) with true by (symmetry; assumption).
  cbn [negb].
  rewrite <- (checksum_ok_iff 5 Hb).
  destruct (checksum (at_ b 5) 5 b) as [[]| | |]; simpl; tauto.
Qed.

Lemma bytes_ok_dec (b : list Z) :
forallb (fun z => (0 <=? z) && (z <? 256)) b = true -> bytes_ok b.
Proof.
intros H. unfold bytes_ok. apply Forall_forall. intros z Hz.
rewrite forallb_forall in H. specialize (H z Hz). unfold is_byte. lia.
Defined.

Lemma entry_point_accepted_iff_sum_zero_witness :
isOk (ParseEntryPoint ep32_ok) = true <->
byteSum (ReadAllLimit ep32_ok 64) mod 256 = 0.
Proof.
apply (entry_point_accepted_iff_sum_zero ep32_ok).
- apply bytes_ok_dec. vm_compute. reflexivity.
- vm_compute. reflexivity.
Defined.

End Checksum.

(** ** The memory scanner *)

Section Scanner.

Variable magicPrefix : list Z.
Variable mem : list Z.
Hypothesis prefix_fits : (length magicPrefix <= paragraph)%nat.

Lemma HasPrefix_true_iff (p : list Z) :
  forall s, HasPrefix s p = true <-> firstn (length p) s = p.
Proof.
  induction p as [|c p IH]; intros s.
  - destruct s; split; reflexivity.
  - destruct s as [|x s]; simpl; [split; discriminate|].
    rewrite andb_true_iff, Z.eqb_eq, IH. split.
    + intros [-> ->]. reflexivity.
    + intros E. injection E as -> E. split; [reflexivity|exact E].
Qed.

Lemma firstn_firstn_le {A} (l : list A) (n m : nat) :
  (n <= m)%nat -> firstn n (firstn m l) = firstn n l.
Proof.
  intros H. rewrite firstn_firstn. f_equal. lia.
Qed.

(** The test on the paragraph read at [a] is the test for an anchor
    prefix at [a]. *)
Lemma paragraph_match (a : Z) :
  0 <= a ->
  HasPrefix (firstn paragraph (skipn (Z.to_nat a) mem)) magicPrefix = true
  <-> anchorAt magicPrefix mem a.
Proof.
  intros Ha. unfold anchorAt.
  rewrite HasPrefix_true_iff, firstn_firstn_le by exact prefix_fits.
  tauto.
Qed.

Lemma ReadFull_readable (a : Z) :
  0 <= a -> readableAt mem a ->
  ReadFull (skipn (Z.to_nat a) mem) paragraph =
  Ok (firstn paragraph (skipn (Z.to_nat a) mem),
      skipn (Z.to_nat (a + 16)) mem).
Proof.
  intros Ha Hr. unfold ReadFull, readableAt, len, paragraph in *.
  rewrite length_skipn.
  replace (16 <=? length mem - Z.to_nat a)%nat with true
    by (symmetry; apply Nat.leb_le; lia).
  rewrite skipn_skipn. do 3 f_equal. lia.
Qed.

Lemma ReadFull_unreadable (a : Z) :
  0 <= a -> ~ readableAt mem a ->
  ReadFull (skipn (Z.to_nat a) mem) paragraph = Err EOF \/
  ReadFull (skipn (Z.to_nat a) mem) paragraph = Err ErrUnexpectedEOF.
Proof.
  intros Ha Hr. unfold ReadFull, readableAt, len, paragraph in *.
  rewrite length_skipn.
  replace (16 <=? length mem - Z.to_nat a)%nat with false
    by (symmetry; apply Nat.leb_gt; lia).
  destruct (skipn (Z.to_nat a) mem); auto.
Qed.

Lemma readableAt_dec (a : Z) : {readableAt mem a} + {~ readableAt mem a}.
Proof. unfold readableAt. apply Z_le_dec. Qed.

Lemma alignedIn_step (addr end_ a : Z) :
  alignedIn addr end_ a <-> a = addr /\ addr < end_ \/
                            alignedIn (addr + 16) end_ a.
Proof.
  unfold alignedIn. split; intros H; Z.div_mod_to_equations; lia.
Qed.

Ltac post_split := split; [|split; [|split; [|split]]].

(** What the loop returns, entered at [addr] with the reader positioned
    at [addr]. *)
Lemma findLoop_spec (end_ : Z) :
  forall fuel addr,
    0 <= addr -> (Z.to_nat (end_ - addr) <= fuel)%nat ->
    let res :=
      findLoop fuel magicPrefix (skipn (Z.to_nat addr) mem) addr end_ in
    (forall a, res = Ok a ->
               firstAlignedAnchor magicPrefix mem addr end_ a /\
               readableAt mem a) /\
    (res = Err ErrNoEntryPoint ->
     forall a, alignedIn addr end_ a ->
               readableAt mem a /\ ~ anchorAt magicPrefix mem a) /\
    (forall e, res = Err e -> e <> ErrNoEntryPoint ->
               (e = EOF \/ e = ErrUnexpectedEOF) /\
               exists a, alignedIn addr end_ a /\ ~ readableAt mem a /\
                         forall a', alignedIn addr end_ a' -> a' < a ->
                                    readableAt mem a' /\
                                    ~ anchorAt magicPrefix mem a') /\
    res <> Panic /\ res <> OutOfFuel.
Proof.
  induction fuel as [|fuel IH]; intros addr Ha Hfuel; cbn zeta.
  - simpl. replace (addr <? end_) with false
      by (symmetry; apply Z.ltb_ge; lia).
    post_split; try discriminate.
    + intros _ a Hal. unfold alignedIn in Hal. lia.
    + intros e E Hne. injection E as <-. contradiction.
  - cbn [findLoop].
    destruct (Z.ltb_spec addr end_) as [Hlt|Hge].
    2:{ post_split; try discriminate.
        - intros _ a Hal. unfold alignedIn in Hal. lia.
        - intros e E Hne. injection E as <-. contradiction. }
    assert (Hself : alignedIn addr end_ addr).
    { unfold alignedIn. rewrite Z.sub_diag. split; [lia|reflexivity]. }
    destruct (readableAt_dec addr) as [Hr|Hr].
    2:{ assert (Hex : exists a,
                 alignedIn addr end_ a /\ ~ readableAt mem a /\
                 forall a', alignedIn addr end_ a' -> a' < a ->
                            readableAt mem a' /\
                            ~ anchorAt magicPrefix mem a').
        { exists addr. split; [exact Hself|]. split; [exact Hr|].
          intros a' Hal Hlt'. unfold alignedIn in Hal. lia. }
        destruct (ReadFull_unreadable Ha Hr) as [E|E]; rewrite E;
          cbn [bind]; post_split; try discriminate;
          intros e E' Hne; injection E' as <-; auto. }
    rewrite (ReadFull_readable Ha Hr). cbn [bind].
    destruct (HasPrefix (firstn paragraph (skipn (Z.to_nat addr) mem))
                magicPrefix) eqn:Hp.
    + apply (paragraph_match Ha) in Hp.
      post_split; try discriminate.
      intros a E. injection E as <-.
      split; [|exact Hr]. split; [exact Hself|]. split; [exact Hp|].
      intros a' Hal Hlt'. unfold alignedIn in Hal. lia.
    + assert (Hna : ~ anchorAt magicPrefix mem addr).
      { intros Hc. apply (paragraph_match Ha) in Hc. congruence. }
      assert (Ha' : 0 <= addr + 16) by lia.
      assert (Hf' : (Z.to_nat (end_ - (addr + 16)) <= fuel)%nat) by lia.
      destruct (IH (addr + 16) Ha' Hf') as (IHok & IHno & IHerr & IHp & IHf).
      change (Z.of_nat paragraph) with 16.
      set (res := findLoop fuel magicPrefix
                    (skipn (Z.to_nat (addr + 16)) mem) (addr + 16) end_)
        in *.
      post_split; auto.
      * intros a E. destruct (IHok a E) as [(Hal & Han & Hfirst) Hra].
        split; [|exact Hra]. split; [|split; [exact Han|]].
        -- apply alignedIn_step. now right.
        -- intros a' Hal' Hlt'. apply alignedIn_step in Hal'.
           destruct Hal' as [[-> _]|Hal']; [exact Hna|].
           now apply Hfirst.
      * intros E a Hal. apply alignedIn_step in Hal.
        destruct Hal as [[-> _]|Hal]; [split; assumption|].
        now apply IHno.
      * intros e E Hne. destruct (IHerr e E Hne) as [He (a & Hal & Hnr & Hb)].
        split; [exact He|]. exists a. split; [|split; [exact Hnr|]].
        -- apply alignedIn_step. now right.
        -- intros a' Hal' Hlt'. apply alignedIn_step in Hal'.
           destruct Hal' as [[-> _]|Hal']; [split; assumption|].
           now apply Hb.
Qed.

End Scanner.

(** The scan always terminates: the budget [end_ - start] is never used
    up. *)
Lemma findLoop_noFuel (magicPrefix : list Z) (end_ : Z) :
  forall fuel rs addr,
    (Z.to_nat (end_ - addr) <= fuel)%nat ->
    noFuel (findLoop fuel magicPrefix rs addr end_).
Proof.
  unfold noFuel.
  induction fuel as [|fuel IH]; intros rs addr Hf; cbn [findLoop];
    destruct (Z.ltb_spec addr end_) as [Hlt|Hge]; try discriminate; [lia|].
  unfold ReadFull. destruct (paragraph <=? length rs)%nat; cbn [bind].
  - destruct (HasPrefix _ _); [discriminate|]. apply IH.
    unfold paragraph. lia.
  - destruct rs; discriminate.
Qed.

Lemma findEntryPoint_noFuel (magicPrefix mem : list Z) (start end_ : Z) :
  noFuel (findEntryPoint magicPrefix mem start end_).
Proof.
  unfold findEntryPoint, Seek. destruct (start <? 0); [discriminate|].
  cbn [bind]. now apply findLoop_noFuel.
Qed.

Lemma error_eq_NoEntryPoint_dec (e : error) :
  {e = ErrNoEntryPoint} + {e <> ErrNoEntryPoint}.
Proof. destruct e; (now left) || (right; discriminate). Qed.




(** ** Interpretation of recognized types, at concrete records *)

(** C8.  A structure of a recognized type whose header length is 4 has an
    empty formatted block; [Decoder.next] then panics (taking the address
    of [fb[0]] for types 0 to 4, reading [fb[9]] for type 17) instead of
    reporting the typed fields as absent.  A memory device with a formatted
    block of five bytes panics as well. *)
Theorem recognized_type_with_empty_formatted_block_panics :
  forall (P : Platform) (k : nat) (ver : SMBIOSVersion) (h0 h1 : Z)
         (rest : list Z),
    Forall (fun ty =>
              next P k {| br := ty :: 4 :: h0 :: h1 :: 0 :: 0 :: rest;
                          Version_ := ver |} = Panic)
           [0; 1; 2; 3; 4; 17] /\
    next P k {| br := [17; 9; h0; h1; 1; 2; 3; 4; 5; 0; 0] ++ rest;
                Version_ := ver |} = Panic.
Proof.
  intros P k ver h0 h1 rest. split; [|reflexivity].
  repeat (apply Forall_cons; [reflexivity|]). apply Forall_nil.
Qed.

(** C1.  String references are not resolved by one rule.  The processor
    manufacturer index [n] selects [strings[n]], not [strings[n-1]], and
    the index equal to the number of strings yields nothing; the type-1
    indices and the BIOS release-date index are used unchecked, so an index
    beyond the string vector makes [Decoder.next] panic. *)
Theorem string_reference_resolution_diverges :
  forall (P : Platform) (k : nat),
    match next amd64 k (NewDecoder (processorRecord 1 4 4 0)) with
    | Ok (s, _) =>
        Strings s = processorStrings /\
        at_ (Formatted s) SMBIOSProcessorType.ProcessorManufacturer = 1 /\
        map procProduct (Processors (SystemInfo_ s)) = [str "Intel"] /\
        fieldOf (specResolve (Strings s) 1) = str "CPU0"
    | _ => False
    end /\
    match next amd64 k (NewDecoder (processorRecord 3 4 4 0)) with
    | Ok (s, _) =>
        Strings s = processorStrings /\
        at_ (Formatted s) SMBIOSProcessorType.ProcessorManufacturer = 3 /\
        map procProduct (Processors (SystemInfo_ s)) = [[]] /\
        fieldOf (specResolve (Strings s) 3) = str "Xeon"
    | _ => False
    end /\
    next P k (NewDecoder systemRecordBadIndex) = Panic /\
    next P k (NewDecoder biosRecordBadIndex) = Panic.
Proof.
  intros P k. repeat split; vm_compute; reflexivity.
Qed.

(** C4.  In a type-1 record whose manufacturer index (offset 0) is 1 and
    whose product-name index (offset 1) is 2, the projection's manufacturer
    field receives string 2 and its product-name field string 1. *)
Theorem system_manufacturer_and_product_swapped :
  forall (P : Platform) (k : nat),
    match next P k (NewDecoder (systemRecord (repeat 0 16))) with
    | Ok (s, _) =>
        Strings s = systemStrings /\
        at_ (Formatted s) SMBIOSSystemInfo.Manufacturer = 1 /\
        at_ (Formatted s) SMBIOSSystemInfo.ProductName = 2 /\
        SystemManufacturerRef (SystemInfo_ s) = str "Widget" /\
        SystemProductName (SystemInfo_ s) = str "Acme" /\
        fieldOf (specResolve (Strings s) 1) = str "Acme" /\
        fieldOf (specResolve (Strings s) 2) = str "Widget"
    | _ => False
    end.
Proof.
  intros P k. vm_compute. repeat split; reflexivity.
Qed.

(** C3.  For a memory device whose size field is 0x8001 (bit 15 set, value
    1 in kilobytes) the reported size is 0x8001 * 1024 bytes: bit 15 is not
    masked off before multiplying. *)
Theorem memory_size_keeps_bit_15 :
  forall (P : Platform) (k : nat),
    match next P k (NewDecoder (memoryRecord 0x01 0x80)) with
    | Ok (s, _) =>
        Uint16 (slice (Formatted s) 8 10) = 0x8001 /\
        map pmSizeInBytes (PhyMemory (SystemInfo_ s)) = [0x8001 * 1024] /\
        specSizeInBytes (Uint16 (slice (Formatted s) 8 10)) 0
          (len (Formatted s)) = 1024
    | _ => False
    end.
Proof.
  intros P k. vm_compute. repeat split; reflexivity.
Qed.

(** ** Decode, at concrete streams *)

(** C9.  Decoding a type-1 structure whose UUID is neither all 0x00 nor all
    0xFF returns it with the rendered UUID appended to its string vector,
    after the three strings framed from the stream. *)
Theorem decode_appends_uuid_to_strings :
  forall (P : Platform),
    match parseStrings (skipn 27 (systemRecord systemUUID ++ endOfTable)),
          Decode P (NewDecoder (systemRecord systemUUID ++ endOfTable)) with
    | Ok (framed, _), Ok [s; eot] =>
        framed = systemStrings /\
        Type_ (Header_ s) = 1 /\ Type_ (Header_ eot) = 127 /\
        Strings s =
          systemStrings ++ [str "103598A4-E271-E211-ADB1-DF8BE4841F5B"]
    | _, _ => False
    end.
Proof.
  intros P. vm_compute. repeat split; reflexivity.
Qed.

Lemma index_nil {A} (i : Z) : @index A [] i = Panic.
Proof.
  unfold index. destruct (i <? 0); [reflexivity|]. now destruct (Z.to_nat i).
Qed.

Lemma lookupChecked_nil (n : Z) :
  lookupChecked [] (uint8 (len (@nil GoString))) n = Ok [].
Proof.
  unfold lookupChecked. change (uint8 (len [])) with 0.
  destruct (Z.gtb_spec n 0), (Z.leb_spec n 0); try reflexivity. lia.
Qed.

(** The first structure of "OK, multiple" (type 0, one formatted byte): the
    release-date index is read past the end of the block; [next] panics if
    that byte is not zero and returns the structure otherwise. *)
Lemma next_okMultiple (P : Platform) :
  next P 0 (NewDecoder okMultiple) = Panic \/
  exists si,
    next P 0 (NewDecoder okMultiple) =
    Ok ({| Header_ := {| Type_ := 0; Length := 5; Handle := 1 |};
           Formatted := [255]; Strings := []; SystemInfo_ := si |},
        {| br := skipn 7 okMultiple;
           Version_ := {| Major := 0; Minor := 0 |} |}).
Proof.
  unfold next.
  change (parseHeader (br (NewDecoder okMultiple)))
    with (Ok ({| Type_ := 0; Length := 5; Handle := 1 |},
              skipn 4 okMultiple)).
  cbn [bind Length].
  change (parseFormatted (5 - headerLen) (skipn 4 okMultiple))
    with (Ok ([255], skipn 5 okMultiple)).
  cbn [bind].
  change (parseStrings (skipn 5 okMultiple))
    with (Ok (@nil GoString, skipn 7 okMultiple)).
  cbn [bind].
  unfold interpret, interpSystem, interpBaseboard, interpEnclosure,
    interpProcessor, interpMemoryDevice.
  cbn [Type_ Z.eqb bind].
  unfold interpBIOS. cbn [Type_ Z.eqb addrOfFirst bind].
  rewrite !lookupChecked_nil. cbn [bind].
  destruct (peek8 [255] (junk P 0) BIOSInfoRead.ReleaseDate >? 0).
  - left. rewrite index_nil. reflexivity.
  - right. cbn [bind]. eexists. reflexivity.
Qed.

(** C2.  On the stream of the package's test "no end of table" (one type-1
    structure with header length 4 and nothing after it) Decode returns
    neither an error nor structures: it panics.  The same happens on the
    stream of the test "OK, multiple", which does end with an end-of-table
    record. *)
Theorem decode_panics_on_stream_without_end_of_table :
  forall (P : Platform),
    Decode P (NewDecoder noEndOfTable) = Panic /\
    Decode P (NewDecoder okMultiple) = Panic.
Proof.
  intros P. split; [vm_compute; reflexivity|].
  unfold Decode.
  set (fuel := S (length (br (NewDecoder okMultiple)))).
  vm_compute in fuel. subst fuel. cbn [DecodeLoop].
  destruct (next_okMultiple P) as [E|[si E]]; rewrite E; [reflexivity|].
  cbn [Header_ Type_]. change (0 =? typeEndOfTable) with false. cbv iota.
  vm_compute. reflexivity.
Qed.

(** ** Processor core count *)

Section CoreCount.

Variable P : Platform.
Variable heap : nat -> Z.
Variable ver : SMBIOSVersion.

Lemma peek8_in_range (fb : list Z) (o : nat) :
  (o < length fb)%nat -> peek8 fb heap o = at_ fb o.
Proof.
  intros H. unfold peek8, at_.
  destruct (nth_error fb o) eqn:E.
  - symmetry. now apply nth_error_nth.
  - apply nth_error_None in E. lia.
Qed.

Lemma at_slice (fb : list Z) (i j o : nat) :
  (i + o < j)%nat -> (j <= length fb)%nat ->
  at_ (slice fb i j) o = at_ fb (i + o).
Proof.
  intros Ho Hj. unfold at_, slice.
  rewrite nth_firstn.
  replace (o <? j - i)%nat with true by (symmetry; apply Nat.ltb_lt; lia).
  now rewrite nth_skipn.
Qed.

Lemma Uint16_cons2 (x y : Z) (l : list Z) :
  Uint16 (x :: y :: l) = Z.lor x (Z.shiftl y 8).
Proof.
  unfold Uint16. cbn [firstn LittleEndian].
  now rewrite Z.shiftl_0_l, Z.lor_0_r.
Qed.

Lemma peek16_in_range (fb : list Z) (o : nat) :
  (o + 2 <= length fb)%nat ->
  peek16 (hostBigEndian P) fb heap o =
  nativeUint16 (hostBigEndian P) (slice fb o (o + 2)).
Proof.
  intros H. unfold peek16, nativeUint16.
  rewrite !peek8_in_range by lia.
  assert (E0 : at_ (slice fb o (o + 2)) 0 = at_ fb o).
  { rewrite at_slice by lia. f_equal. lia. }
  assert (E1 : at_ (slice fb o (o + 2)) 1 = at_ fb (S o)).
  { rewrite at_slice by lia. f_equal. lia. }
  destruct (hostBigEndian P).
  - now rewrite E0, E1.
  - unfold at_ in E0, E1.
    assert (Hl : length (slice fb o (o + 2)) = 2%nat).
    { unfold slice. rewrite length_firstn, length_skipn. lia. }
    destruct (slice fb o (o + 2)) as [|x [|y [|z l]]]; try discriminate.
    cbn [nth] in E0, E1. subst x y. symmetry. apply Uint16_cons2.
Qed.

Lemma nativeUint16_nonneg (b : list Z) (be : bool) :
  bytes_ok b -> 0 <= nativeUint16 be b.
Proof.
  intros Hb. pose proof (at_is_byte 0 Hb) as H0.
  pose proof (at_is_byte 1 Hb) as H1. unfold is_byte in *.
  unfold nativeUint16. destruct be.
  - apply Z.lor_nonneg. split; [apply Z.shiftl_nonneg|]; lia.
  - unfold at_ in *.
    destruct b as [|x [|y l]]; cbn [nth] in *.
    + unfold Uint16. cbn [firstn LittleEndian]. lia.
    + unfold Uint16. cbn [firstn LittleEndian].
      rewrite Z.shiftl_0_l, Z.lor_0_r. lia.
    + rewrite Uint16_cons2. apply Z.lor_nonneg. split; [lia|].
      apply Z.shiftl_nonneg. lia.
Qed.

Lemma bytes_ok_slice (fb : list Z) (i j : nat) :
  bytes_ok fb -> bytes_ok (slice fb i j).
Proof.
  unfold bytes_ok, slice. intros H.
  rewrite <- (firstn_skipn i fb) in H. apply Forall_app in H as [_ H].
  rewrite <- (firstn_skipn (j - i) (skipn i fb)) in H.
  now apply Forall_app in H as [H _].
Qed.

Lemma index_in_range {A} (ss : list A) (i : Z) :
  0 <= i < len ss -> exists s, index ss i = Ok s.
Proof.
  intros H. unfold index, len in *.
  replace (i <? 0) with false by (symmetry; apply Z.ltb_ge; lia).
  destruct (nth_error ss (Z.to_nat i)) eqn:E; [eauto|].
  apply nth_error_None in E. lia.
Qed.

Lemma uint8_len_le {A} (ss : list A) : uint8 (len ss) <= len ss.
Proof.
  unfold uint8, len. apply Z.mod_le; lia.
Qed.

Lemma Processors_set_ProcessorID v s :
  Processors (set_ProcessorID v s) = Processors s.
Proof. now destruct s. Qed.

Lemma Processors_set_ProcessorType v s :
  Processors (set_ProcessorType v s) = Processors s.
Proof. now destruct s. Qed.

Lemma Processors_set_Processors v s : Processors (set_Processors v s) = v.
Proof. now destruct s. Qed.

Lemma positive_or_zero (x : Z) : 0 <= x -> (if x >? 0 then x else 0) = x.
Proof. intros H. destruct (Z.gtb_spec x 0); lia. Qed.

(** The processor block on a non-empty formatted block: it cannot panic and
    appends one processor whose core count follows the version gate. *)
Lemma interpProcessor_core_count (h : Header) (fb : list Z)
  (ss : list GoString) (si : SystemInfo) :
  Type_ h = 4 -> fb <> [] ->
  exists si' p,
    interpProcessor P heap ver h fb (ss, si) = Ok (ss, si') /\
    Processors si' = Processors si ++ [p] /\
    procCoreCount p =
      let CoreCount := peek8 fb heap SMBIOSProcessorType.CoreCount in
      let CoreCount2 :=
        peek16 (hostBigEndian P) fb heap SMBIOSProcessorType.CoreCount2 in
      if (Major ver >=? 3) || (Minor ver <? 5) || (Minor ver >? 9) then
        if CoreCount2 >? 0 then CoreCount2 else 0
      else
        if CoreCount >? 0 then CoreCount else 0.
Proof.
  intros Ht Hfb. unfold interpProcessor. rewrite Ht. cbn [Z.eqb Pos.eqb].
  destruct fb as [|x fb']; [congruence|]. cbn [addrOfFirst bind].
  set (fb := x :: fb').
  set (pm := peek8 fb heap SMBIOSProcessorType.ProcessorManufacturer).
  assert (Hkeep : forall (c1 c2 : bool) v1 v2,
             Processors
               (if c2 then set_ProcessorType v2
                             (if c1 then set_ProcessorID v1 si else si)
                else if c1 then set_ProcessorID v1 si else si) =
             Processors si).
  { intros [|] [|] v1 v2;
      now rewrite ?Processors_set_ProcessorType, ?Processors_set_ProcessorID. }
  destruct ((pm >? 0) && (pm <? uint8 (len ss))) eqn:Hg.
  - apply andb_true_iff in Hg as [Hg1 Hg2].
    destruct (@index_in_range _ ss pm) as [s Hs].
    { pose proof (uint8_len_le ss). lia. }
    rewrite Hs. cbn [bind]. eexists. eexists.
    split; [reflexivity|]. rewrite Processors_set_Processors, Hkeep.
    split; reflexivity.
  - cbn [bind]. eexists. eexists.
    split; [reflexivity|]. rewrite Processors_set_Processors, Hkeep.
    split; reflexivity.
Qed.

End CoreCount.

(** C7, as amended.  For every type-4 structure with a non-empty formatted
    block, interpretation does not fail and yields one processor.  Its core
    count is chosen by the version alone, never by the value 0xFF of the
    8-bit field: when the major version is at least 3, or the minor version
    is below 5 or above 9 (which includes the version 0.0 of a new decoder),
    it is the 16-bit core_count2 field at offset 38, for a block that holds
    it (40 bytes); when the major version is below 3 and the minor version
    is between 5 and 9, it is the 8-bit core_count field at offset 31, for a
    block that holds it (32 bytes). *)
Theorem processor_core_count_follows_version_gate
  (P : Platform) (heap : nat -> Z) (ver : SMBIOSVersion) (h : Header)
  (fb : list Z) (ss : list GoString) :
  Type_ h = 4 ->
  bytes_ok fb ->
  fb <> [] ->
  exists si p,
    interpret P heap ver h fb ss = Ok (ss, si) /\
    Processors si = [p] /\
    (3 <= Major ver \/ Minor ver < 5 \/ 9 < Minor ver ->
     40 <= len fb ->
     procCoreCount p = nativeUint16 (hostBigEndian P) (slice fb 38 40)) /\
    (Major ver < 3 -> 5 <= Minor ver <= 9 ->
     32 <= len fb ->
     procCoreCount p = at_ fb SMBIOSProcessorType.CoreCount).
Proof.
  intros Ht Hb Hne.
  destruct (interpProcessor_core_count P heap ver h ss SystemInfo0 Ht Hne)
    as (si & p & Hproc & Hps & Hcc).
  exists si, p. split; [|split; [exact Hps|]].
  - unfold interpret, interpSystem, interpBaseboard, interpEnclosure,
      interpMemoryDevice, interpBIOS.
    rewrite Ht. cbn [Z.eqb Pos.eqb bind]. rewrite Hproc. reflexivity.
  - cbn zeta in Hcc. split.
    + intros Hgate Hl. unfold len in Hl.
      unfold SMBIOSProcessorType.CoreCount2 in Hcc.
      rewrite (@peek16_in_range P heap fb 38) in Hcc by lia.
      change (38 + 2)%nat with 40%nat in Hcc.
      replace ((Major ver >=? 3) || (Minor ver <? 5) || (Minor ver >? 9))
        with true in Hcc.
      * rewrite Hcc. apply positive_or_zero.
        apply nativeUint16_nonneg. now apply bytes_ok_slice.
      * symmetry. rewrite !orb_true_iff.
        rewrite Z.geb_le, Z.ltb_lt, Z.gtb_ltb, Z.ltb_lt. tauto.
    + intros HM Hm Hl. unfold len in Hl.
      rewrite peek8_in_range in Hcc
        by (unfold SMBIOSProcessorType.CoreCount; lia).
      replace (Major ver >=? 3) with false in Hcc
        by (symmetry; rewrite Z.geb_leb; apply Z.leb_gt; lia).
      replace (Minor ver <? 5) with false in Hcc
        by (symmetry; apply Z.ltb_ge; lia).
      replace (Minor ver >? 9) with false in Hcc
        by (symmetry; rewrite Z.gtb_ltb; apply Z.ltb_ge; lia).
      cbn [orb] in Hcc. rewrite Hcc. apply positive_or_zero.
      pose proof (at_is_byte SMBIOSProcessorType.CoreCount Hb) as Hx.
      unfold is_byte in Hx. lia.
Qed.

(** The theorem at version 3.0 (core_count 4, core_count2 8: the count is
    8), at version 2.7 on a 36-byte block (core_count 4: the count is 4) and
    at version 0.0 (the count is core_count2 again). *)
Lemma processor_core_count_follows_version_gate_witness :
  (exists si p,
     interpret amd64 (junk amd64 0) {| Major := 3; Minor := 0 |}
       {| Type_ := 4; Length := 48; Handle := 4 |}
       (processorFormatted 2 4 8 0) processorStrings =
     Ok (processorStrings, si) /\
     Processors si = [p] /\ procCoreCount p = 8) /\
  (exists si p,
     interpret amd64 (junk amd64 0) {| Major := 2; Minor := 7 |}
       {| Type_ := 4; Length := 40; Handle := 4 |}
       (processorFormatted2_5 2 4) processorStrings =
     Ok (processorStrings, si) /\
     Processors si = [p] /\ procCoreCount p = 4) /\
  (exists si p,
     interpret amd64 (junk amd64 0) {| Major := 0; Minor := 0 |}
       {| Type_ := 4; Length := 48; Handle := 4 |}
       (processorFormatted 2 4 8 0) processorStrings =
     Ok (processorStrings, si) /\
     Processors si = [p] /\ procCoreCount p = 8).
Proof.
  split; [|split].
  - destruct (@processor_core_count_follows_version_gate
                amd64 (junk amd64 0) {| Major := 3; Minor := 0 |}
                {| Type_ := 4; Length := 48; Handle := 4 |}
                (processorFormatted 2 4 8 0) processorStrings)
      as (si & p & E & Hp & H2 & _).
    + reflexivity.
    + apply bytes_ok_dec. vm_compute. reflexivity.
    + discriminate.
    + exists si, p. split; [exact E|]. split; [exact Hp|].
      rewrite H2; [reflexivity | cbn; lia | vm_compute; discriminate].
  - destruct (@processor_core_count_follows_version_gate
                amd64 (junk amd64 0) {| Major := 2; Minor := 7 |}
                {| Type_ := 4; Length := 40; Handle := 4 |}
                (processorFormatted2_5 2 4) processorStrings)
      as (si & p & E & Hp & _ & H1).
    + reflexivity.
    + apply bytes_ok_dec. vm_compute. reflexivity.
    + discriminate.
    + exists si, p. split; [exact E|]. split; [exact Hp|].
      rewrite H1; [reflexivity | cbn; lia | cbn; lia
                  | vm_compute; discriminate].
  - destruct (@processor_core_count_follows_version_gate
                amd64 (junk amd64 0) {| Major := 0; Minor := 0 |}
                {| Type_ := 4; Length := 48; Handle := 4 |}
                (processorFormatted 2 4 8 0) processorStrings)
      as (si & p & E & Hp & H2 & _).
    + reflexivity.
    + apply bytes_ok_dec. vm_compute. reflexivity.
    + discriminate.
    + exists si, p. split; [exact E|]. split; [exact Hp|].
      rewrite H2; [reflexivity | cbn; lia | vm_compute; discriminate].
Defined.

(** C7, counterexample.  Under SMBIOS 3.0, a processor record whose 8-bit
    core count is 4 (not the sentinel 0xFF) and whose core_count2 field is 8
    is projected with core count 8, where the rule of the specification
    gives 4. *)
Lemma core_count_counterexample :
  ~ coreCountAsSpecified amd64 {| Major := 3; Minor := 0 |}
      (processorRecord 2 4 8 0).
Proof.
  unfold coreCountAsSpecified. intros H.
  destruct (next amd64 0 {| br := processorRecord 2 4 8 0;
                            Version_ := {| Major := 3; Minor := 0 |} |})
    as [[s d']|e| |] eqn:E; vm_compute in E; try discriminate.
  injection E as <- <-.
  specialize (H _ _ eq_refl eq_refl). vm_compute in H. discriminate.
Qed.

(** ** The opaque stream *)

Section Opaque.

Context {R : Type} `{RC : ReadCloser R}.

Lemma opaque_Read (r : R) (n : nat) :
  Read {| rc := r |} n = (fst (Read r n), {| rc := snd (Read r n) |}).
Proof. cbn. now destruct (Read r n). Qed.

Lemma opaque_Close (r : R) :
  Close {| rc := r |} = (fst (Close r), {| rc := snd (Close r) |}).
Proof. cbn. now destruct (Close r). Qed.

Lemma opaque_drain (n : nat) :
  forall (fuel : nat) (r : R), drain fuel n {| rc := r |} = drain fuel n r.
Proof.
  induction fuel as [|fuel IH]; intros r; [reflexivity|].
  cbn [drain]. rewrite opaque_Read.
  destruct (Read r n) as [[bs [e|]] r']; cbn [fst snd]; [reflexivity|].
  now rewrite IH.
Qed.

End Opaque.

(** C10.  Read and Close on the value returned by Stream return what the
    same call returns on the platform stream it wraps, and leave the wrapped
    stream in the state that call leaves it in; hence the bytes (and the
    final error) read through the wrapper are those of the platform stream.
    Stream itself passes the platform's stream, entry point and error
    through. *)
Theorem opaque_stream_delegates
  (R EP : Type) (RC : ReadCloser R) (stream_ : outcome (R * EP))
  (r : R) (n fuel : nat) :
  Read {| rc := r |} n = (fst (Read r n), {| rc := snd (Read r n) |}) /\
  Close {| rc := r |} = (fst (Close r), {| rc := snd (Close r) |}) /\
  drain fuel n {| rc := r |} = drain fuel n r /\
  Stream stream_ =
    match stream_ with
    | Ok (r0, ep) => Ok ({| rc := r0 |}, ep)
    | Err e => Err e
    | Panic => Panic
    | OutOfFuel => OutOfFuel
    end.
Proof.
  split; [apply opaque_Read|].
  split; [apply opaque_Close|].
  split; [apply opaque_drain|].
  unfold Stream. now destruct stream_ as [[r0 ep]|e| |].
Qed.

(** ** Framing: what Decode does on every stream *)

Section Framing.

Variable P : Platform.

Lemma ReadFull_Ok (r : list Z) (n : nat) (b r' : list Z) :
  ReadFull r n = Ok (b, r') ->
  b = firstn n r /\ r' = skipn n r /\ (n <= length r)%nat.
Proof.
  unfold ReadFull. destruct (Nat.leb_spec n (length r)) as [H|H].
  - intros E. injection E as <- <-. auto.
  - destruct r; discriminate.
Qed.

Lemma ReadFull_noFuel (r : list Z) (n : nat) : noFuel (ReadFull r n).
Proof.
  unfold noFuel, ReadFull. destruct (n <=? length r)%nat; [discriminate|].
  destruct r; discriminate.
Qed.

Lemma ReadBytes_length (delim : Z) :
  forall r raw r',
    ReadBytes delim r = Ok (raw, r') -> (length r' < length r)%nat.
Proof.
  induction r as [|x r IH]; intros raw r'; simpl; [discriminate|].
  destruct (x =? delim).
  - intros E. injection E as _ <-. lia.
  - destruct (ReadBytes delim r) as [[raw0 r0]|e| |] eqn:E0; simpl;
      try discriminate.
    intros E. injection E as _ <-. specialize (IH _ _ eq_refl). lia.
Qed.

Lemma ReadBytes_noFuel (delim : Z) : forall r, noFuel (ReadBytes delim r).
Proof.
  unfold noFuel. induction r as [|x r IH]; simpl; [discriminate|].
  destruct (x =? delim); [discriminate|].
  destruct (ReadBytes delim r) as [[raw0 r0]|e| |]; simpl;
    discriminate || assumption.
Qed.

Lemma parseString_length (r : list Z) s more r' :
  parseString r = Ok (s, more, r') ->
  (length r' < length r)%nat /\ (more = true -> r' <> []).
Proof.
  unfold parseString.
  destruct (ReadBytes 0 r) as [[raw r1]|e| |] eqn:E; simpl; try discriminate.
  apply ReadBytes_length in E.
  destruct r1 as [|p r2]; [discriminate|].
  destruct (p =? 0); simpl; intros E'; injection E' as <- <- <-.
  - simpl in E. split; [lia|discriminate].
  - split; [exact E|discriminate].
Qed.

Lemma parseString_noFuel (r : list Z) : noFuel (parseString r).
Proof.
  unfold noFuel, parseString. pose proof (ReadBytes_noFuel 0 r) as H.
  destruct (ReadBytes 0 r) as [[raw r1]|e| |]; simpl;
    try discriminate; [|contradiction].
  destruct r1 as [|p r2]; [discriminate|]. destruct (p =? 0); discriminate.
Qed.

Lemma parseStringsLoop_length :
  forall fuel r ss out r',
    parseStringsLoop fuel r ss = Ok (out, r') ->
    (length r' < length r)%nat.
Proof.
  induction fuel as [|fuel IH]; intros r ss out r'; simpl; [discriminate|].
  destruct (parseString r) as [[[s more] r1]|e| |] eqn:E; simpl;
    try discriminate.
  apply parseString_length in E as [E _].
  destruct more.
  - intros H. apply IH in H. lia.
  - intros H. injection H as _ <-. exact E.
Qed.

Lemma parseStringsLoop_noFuel :
  forall fuel r ss,
    r <> [] -> (length r <= fuel)%nat -> noFuel (parseStringsLoop fuel r ss).
Proof.
  induction fuel as [|fuel IH]; intros r ss Hne Hl.
  - destruct r; [congruence|simpl in Hl; lia].
  - simpl. pose proof (parseString_noFuel r) as Hn.
    destruct (parseString r) as [[[s more] r1]|e| |] eqn:E; simpl;
      try discriminate; [|contradiction].
    apply parseString_length in E as [E1 E2].
    destruct more; [|discriminate].
    apply IH; [now apply E2|lia].
Qed.

Lemma parseStrings_length (r : list Z) ss r' :
  parseStrings r = Ok (ss, r') -> (length r' < length r)%nat.
Proof.
  unfold parseStrings. destruct r as [|t0 [|t1 r0]]; try discriminate.
  destruct ((t0 =? 0) && (t1 =? 0)).
  - intros E. injection E as _ <-. simpl. lia.
  - apply parseStringsLoop_length.
Qed.

Lemma parseStrings_noFuel (r : list Z) : noFuel (parseStrings r).
Proof.
  unfold parseStrings. destruct r as [|t0 [|t1 r0]]; try discriminate.
  destruct ((t0 =? 0) && (t1 =? 0)); [discriminate|].
  apply parseStringsLoop_noFuel; [discriminate|lia].
Qed.

Lemma parseFormatted_length (l : Z) (r fb r' : list Z) :
  parseFormatted l r = Ok (fb, r') -> (length r' <= length r)%nat.
Proof.
  unfold parseFormatted. destruct (l <? 0); [discriminate|].
  destruct (l =? 0).
  - intros E. injection E as _ <-. lia.
  - intros E. apply ReadFull_Ok in E as (_ & -> & _).
    rewrite length_skipn. lia.
Qed.

Lemma parseFormatted_noFuel (l : Z) (r : list Z) :
  noFuel (parseFormatted l r).
Proof.
  unfold parseFormatted. destruct (l <? 0); [discriminate|].
  destruct (l =? 0); [discriminate|apply ReadFull_noFuel].
Qed.

(** *** The interpretation blocks never exhaust a budget *)

Lemma noFuel_Ok {A} (a : A) : noFuel (Ok a).
Proof. discriminate. Qed.

Lemma noFuel_bind {A B} (m : outcome A) (k : A -> outcome B) :
  noFuel m -> (forall a, noFuel (k a)) -> noFuel (bind m k).
Proof.
  unfold noFuel. intros Hm Hk. destruct m; simpl; try discriminate;
    [apply Hk|contradiction].
Qed.

Lemma noFuel_index {A} (ss : list A) (i : Z) : noFuel (index ss i).
Proof.
  unfold noFuel, index. destruct (i <? 0); [discriminate|].
  destruct (nth_error ss (Z.to_nat i)); discriminate.
Qed.

Lemma noFuel_addrOfFirst (fb : list Z) : noFuel (addrOfFirst fb).
Proof. destruct fb; discriminate. Qed.

Lemma noFuel_lookupChecked ss v n : noFuel (lookupChecked ss v n).
Proof.
  unfold lookupChecked. destruct ((n >? 0) && (n <=? v));
    [apply noFuel_index|discriminate].
Qed.

Create HintDb nofuel.
#[local] Hint Resolve noFuel_Ok noFuel_index noFuel_addrOfFirst
  noFuel_lookupChecked : nofuel.

Ltac nofuel :=
  repeat first
    [ progress auto with nofuel
    | apply noFuel_bind; [|intros ?]
    | match goal with
      | |- noFuel (if ?c then _ else _) => destruct c
      | |- noFuel (let '(_, _) := ?x in _) => destruct x
      | |- noFuel (match ?x with _ => _ end) => destruct x
      end ].

Lemma interpret_noFuel heap ver h fb ss :
  noFuel (interpret P heap ver h fb ss).
Proof.
  unfold interpret, interpSystem, interpBaseboard, interpEnclosure,
    interpProcessor, interpMemoryDevice, interpBIOS.
  nofuel.
Qed.

Lemma next_noFuel (k : nat) (d : Decoder) : noFuel (next P k d).
Proof.
  unfold next, parseHeader.
  apply noFuel_bind; [|intros [h r1]].
  { apply noFuel_bind; [apply ReadFull_noFuel|intros [b r']; nofuel]. }
  apply noFuel_bind; [apply parseFormatted_noFuel|intros [fb r2]].
  apply noFuel_bind; [apply parseStrings_noFuel|intros [ss r3]].
  apply noFuel_bind; [apply interpret_noFuel|intros [ss' si]].
  apply noFuel_Ok.
Qed.

(** Every structure decoded consumes at least its four header bytes. *)
Lemma next_length (k : nat) (d : Decoder) s d' :
  next P k d = Ok (s, d') -> (length (br d') + 4 <= length (br d))%nat.
Proof.
  unfold next, parseHeader.
  destruct (ReadFull (br d) 4) as [[b r1]|e| |] eqn:E1; simpl;
    try discriminate.
  apply ReadFull_Ok in E1 as (_ & E1 & Hl). subst r1.
  destruct (parseFormatted _ _) as [[fb r2]|e| |] eqn:E2; simpl;
    try discriminate.
  apply parseFormatted_length in E2. rewrite length_skipn in E2.
  destruct (parseStrings r2) as [[ss r3]|e| |] eqn:E3; simpl;
    try discriminate.
  apply parseStrings_length in E3.
  destruct (interpret _ _ _ _ _ _) as [[ss' si]|e| |]; simpl;
    try discriminate.
  intros E. injection E as _ <-. simpl. lia.
Qed.

End Framing.

Section DecodeLoop.

Variable P : Platform.

Lemma DecodeLoop_Ok :
  forall fuel k d acc ss,
    DecodeLoop P fuel k d acc = Ok ss ->
    exists ss', ss = acc ++ ss' /\ framed P k d ss'.
Proof.
  induction fuel as [|fuel IH]; intros k d acc ss; simpl; [discriminate|].
  destruct (next P k d) as [[s d']|e| |] eqn:E; try discriminate.
  destruct (Z.eqb_spec (Type_ (Header_ s)) typeEndOfTable) as [Ht|Ht].
  - intros H. injection H as <-. exists [s]. split; [reflexivity|].
    now apply framed_last with d'.
  - intros H. apply IH in H as (ss' & -> & Hf). exists (s :: ss'). split.
    + now rewrite <- app_assoc.
    + now apply framed_more with d'.
Qed.

Lemma DecodeLoop_framed :
  forall ss' k d,
    framed P k d ss' ->
    forall fuel acc,
      (length (br d) < fuel)%nat ->
      DecodeLoop P fuel k d acc = Ok (acc ++ ss').
Proof.
  induction 1 as [k d s d' E Ht|k d s d' ss E Ht Hf IH]; intros fuel acc Hl.
  - destruct fuel as [|fuel]; [lia|]. simpl. rewrite E, Ht. reflexivity.
  - destruct fuel as [|fuel]; [lia|]. simpl. rewrite E.
    apply Z.eqb_neq in Ht. rewrite Ht.
    apply next_length in E.
    rewrite IH by lia. now rewrite <- app_assoc.
Qed.

Lemma DecodeLoop_noFuel :
  forall fuel k d acc,
    (length (br d) < fuel)%nat -> noFuel (DecodeLoop P fuel k d acc).
Proof.
  induction fuel as [|fuel IH]; intros k d acc Hl; [lia|]. simpl.
  pose proof (next_noFuel P k d) as Hn.
  destruct (next P k d) as [[s d']|e| |] eqn:E;
    try discriminate; [|contradiction].
  destruct (Type_ (Header_ s) =? typeEndOfTable); [discriminate|].
  apply next_length in E. apply IH. lia.
Qed.

Lemma DecodeLoop_fails :
  forall fuel k d acc,
    (forall e, DecodeLoop P fuel k d acc = Err e ->
               exists n, failing P k d n (Err e)) /\
    (DecodeLoop P fuel k d acc = Panic ->
     exists n, failing P k d n Panic).
Proof.
  induction fuel as [|fuel IH]; intros k d acc; simpl.
  - split; [intros e|]; discriminate.
  - destruct (next P k d) as [[s d']|e0| |] eqn:E.
    + destruct (Z.eqb_spec (Type_ (Header_ s)) typeEndOfTable) as [Ht|Ht].
      * split; [intros e|]; discriminate.
      * destruct (IH (S k) d' (acc ++ [s])) as [IHe IHp].
        split.
        -- intros e H. destruct (IHe e H) as [n Hf].
           exists (S n). now apply failing_later with s d'.
        -- intros H. destruct (IHp H) as [n Hf].
           exists (S n). now apply failing_later with s d'.
    + split; [|discriminate].
      intros e H. injection H as <-. exists 0%nat. now apply failing_now.
    + split; [intros e; discriminate|].
      intros _. exists 0%nat. now apply failing_now.
    + split; [intros e|]; discriminate.
Qed.

Lemma framed_shape :
  forall k d ss,
    framed P k d ss ->
    exists init last,
      ss = init ++ [last] /\
      Type_ (Header_ last) = typeEndOfTable /\
      Forall (fun s => Type_ (Header_ s) <> typeEndOfTable) init.
Proof.
  induction 1 as [k d s d' E Ht|k d s d' ss E Ht Hf IH].
  - exists [], s. auto.
  - destruct IH as (init & last & -> & Hl & Hi).
    exists (s :: init), last. auto.
Qed.

(** What Decode does on every stream: it returns exactly the structures
    that successive calls of [next] frame up to and including the first of
    type 127, in that order; it returns an error (and no structure) exactly
    when a call of [next] returns one before such a structure is reached;
    it panics exactly when a call of [next] does; it always terminates. *)
Lemma Decode_outcomes (d : Decoder) :
  noFuel (Decode P d) /\
  (forall ss, Decode P d = Ok ss <-> framed P 0 d ss) /\
  (forall ss, Decode P d = Ok ss ->
     exists init last,
       ss = init ++ [last] /\
       Type_ (Header_ last) = typeEndOfTable /\
       Forall (fun s => Type_ (Header_ s) <> typeEndOfTable) init) /\
  (forall e, Decode P d = Err e -> exists n, failing P 0 d n (Err e)) /\
  (Decode P d = Panic -> exists n, failing P 0 d n Panic).
Proof.
  unfold Decode.
  assert (Hl : (length (br d) < S (length (br d)))%nat) by lia.
  split; [now apply DecodeLoop_noFuel|].
  split; [|split; [|split]].
  - intros ss. split.
    + intros H. apply DecodeLoop_Ok in H as (ss' & -> & Hf). exact Hf.
    + intros H. now apply (DecodeLoop_framed H).
  - intros ss H. apply DecodeLoop_Ok in H as (ss' & -> & Hf).
    now apply framed_shape in Hf.
  - intros e H. now apply (proj1 (DecodeLoop_fails _ _ _ _)) in H.
  - intros H. now apply (proj2 (DecodeLoop_fails _ _ _ _)) in H.
Qed.

End DecodeLoop.

(** ** Where the code does follow the rules *)

Section SiblingPaths.

(** The guarded lookup of the baseboard, memory-device and BIOS
    vendor/version fields is the 1-based rule of the specification, as long
    as the structure has fewer than 256 strings. *)
Lemma lookupChecked_is_spec_rule (ss : list GoString) (n : Z) :
  len ss < 256 -> 0 <= n ->
  lookupChecked ss (uint8 (len ss)) n = Ok (fieldOf (specResolve ss n)).
Proof.
  intros Hl Hn. unfold lookupChecked, specResolve, uint8.
  assert (H0 : 0 <= len ss) by (unfold len; lia).
  rewrite Z.mod_small by lia.
  destruct (Z.eqb_spec n 0) as [->|Hne]; [reflexivity|].
  replace (n >? 0) with true by (symmetry; apply Z.gtb_lt; lia).
  rewrite Z.gtb_ltb. cbn [andb orb].
  destruct (Z.leb_spec n (len ss)) as [Hle|Hgt].
  - replace (len ss <? n) with false by (symmetry; apply Z.ltb_ge; lia).
    unfold index.
    replace (n - 1 <? 0) with false by (symmetry; apply Z.ltb_ge; lia).
    destruct (nth_error ss (Z.to_nat (n - 1))) eqn:E; [reflexivity|].
    apply nth_error_None in E. unfold len in Hle. lia.
  - replace (len ss <? n) with true by (symmetry; apply Z.ltb_lt; lia).
    reflexivity.
Qed.

Lemma byteRange_complete (x : Z) : is_byte x -> In x byteRange.
Proof.
  intros Hx. unfold byteRange, is_byte in *. apply in_map_iff.
  exists (Z.to_nat x). split; [lia|]. apply in_seq. lia.
Qed.

Lemma for_all_bytes2 (f : Z -> Z -> bool) :
  forallb (fun x => forallb (f x) byteRange) byteRange = true ->
  forall x y, is_byte x -> is_byte y -> f x y = true.
Proof.
  intros H x y Hx Hy. rewrite forallb_forall in H.
  specialize (H x (byteRange_complete Hx)). rewrite forallb_forall in H.
  exact (H y (byteRange_complete Hy)).
Qed.

Lemma sizeFieldFacts_hold (b8 b9 : Z) :
  is_byte b8 -> is_byte b9 -> sizeFieldFacts b8 b9 = true.
Proof. apply for_all_bytes2. vm_compute. reflexivity. Qed.

(** With bit 15 of the size field clear (megabytes, or the 0x7FFF escape to
    the extended size) the reported size is the one the specification
    gives. *)
Lemma memSizeInByte_agrees_when_bit15_clear
  (mi : MemoryInfoRead) (fbLen b8 b9 : Z) :
  is_byte b8 -> is_byte b9 ->
  Size mi = Uint16 [b8; b9] ->
  0 <= ExtendedSize mi < 2 ^ 32 ->
  Z.testbit (Size mi) 15 = false ->
  memSizeInByte mi fbLen b9 =
  specSizeInBytes (Size mi) (ExtendedSize mi) fbLen.
Proof.
  intros H8 H9 Hs He Hbit.
  pose proof (sizeFieldFacts_hold H8 H9) as F. unfold sizeFieldFacts in F.
  rewrite <- Hs, Hbit in F. cbn [orb] in F.
  repeat (apply andb_true_iff in F as [F ?]).
  apply Bool.eqb_prop in F. symmetry in F. apply negb_false_iff in F.
  unfold memSizeInByte, specSizeInBytes.
  rewrite F, Hbit.
  unfold extendedSizeThreyshold, sizeAsPer2_7, mbToByteConvRatio, uint64.
  destruct ((Size mi =? 32767) && (fbLen >=? 30)).
  - apply Z.mod_small. lia.
  - replace (Z.land (Size mi) 32767) with (Size mi)
      by (symmetry; apply Z.eqb_eq; assumption).
    apply Z.mod_small. lia.
Qed.

(** With bit 15 set the reported size is the whole 16-bit value times
    1024. *)
Lemma memSizeInByte_when_bit15_set
  (mi : MemoryInfoRead) (fbLen b8 b9 : Z) :
  is_byte b8 -> is_byte b9 ->
  Size mi = Uint16 [b8; b9] ->
  Z.testbit (Size mi) 15 = true ->
  memSizeInByte mi fbLen b9 = Size mi * 1024.
Proof.
  intros H8 H9 Hs Hbit.
  pose proof (sizeFieldFacts_hold H8 H9) as F. unfold sizeFieldFacts in F.
  rewrite <- Hs, Hbit in F. cbn [orb] in F.
  repeat (apply andb_true_iff in F as [F ?]).
  apply negb_true_iff in F.
  unfold memSizeInByte. rewrite F.
  unfold extendedSizeThreyshold, kbToByteConvRatio, uint64.
  destruct (Z.eqb_spec (Size mi) 32767) as [E|E].
  - rewrite E in Hbit. vm_compute in Hbit. discriminate.
  - cbn [andb]. apply Z.mod_small. lia.
Qed.

End SiblingPaths.

(** ** The string vector of a decoded structure *)

Section StringVector.

Variable P : Platform.
Variable heap : nat -> Z.
Variable ver : SMBIOSVersion.

Lemma bind_Ok {A B} (m : outcome A) (k : A -> outcome B) (b : B) :
  bind m k = Ok b -> exists a, m = Ok a /\ k a = Ok b.
Proof. destruct m; simpl; try discriminate. eauto. Qed.

Ltac bind_inv H :=
  let a := fresh "a" in
  let E := fresh "E" in
  apply bind_Ok in H as (a & E & H).

Lemma interpBaseboard_strings h fb ss si ss' si' :
  interpBaseboard heap h fb (ss, si) = Ok (ss', si') -> ss' = ss.
Proof.
  unfold interpBaseboard. destruct (Type_ h =? 2); [|congruence].
  intros H. do 4 bind_inv H. bind_inv H. destruct a3.
  now injection H as <- _.
Qed.

Lemma interpEnclosure_strings h fb ss si ss' si' :
  interpEnclosure heap h fb (ss, si) = Ok (ss', si') -> ss' = ss.
Proof.
  unfold interpEnclosure. destruct (Type_ h =? 3); [|congruence].
  intros H. bind_inv H. now injection H as <- _.
Qed.

Lemma interpProcessor_strings h fb ss si ss' si' :
  interpProcessor P heap ver h fb (ss, si) = Ok (ss', si') -> ss' = ss.
Proof.
  unfold interpProcessor. destruct (Type_ h =? 4); [|congruence].
  intros H. do 2 bind_inv H. now injection H as <- _.
Qed.

Lemma interpMemoryDevice_strings h fb ss si ss' si' :
  interpMemoryDevice h fb (ss, si) = Ok (ss', si') -> ss' = ss.
Proof.
  unfold interpMemoryDevice. destruct (Type_ h =? 17); [|congruence].
  intros H. do 2 bind_inv H. destruct a0. bind_inv H.
  destruct (negb _); now injection H as <- _.
Qed.

Lemma interpBIOS_strings h fb ss si ss' si' :
  interpBIOS heap ver h fb (ss, si) = Ok (ss', si') -> ss' = ss.
Proof.
  unfold interpBIOS. destruct (Type_ h =? 0); [|congruence].
  intros H. do 4 bind_inv H. now injection H as <- _.
Qed.

Lemma interpSystem_strings h fb ss si ss' si' :
  interpSystem heap h fb (ss, si) = Ok (ss', si') ->
  ss' = ss \/
  Type_ h = 1 /\
  ss' = ss ++ [renderUUID
                 (map (fun i => peek8 fb heap (SMBIOSSystemInfo.UUID + i))
                      (seq 0 16))].
Proof.
  unfold interpSystem. destruct (Z.eqb_spec (Type_ h) 1) as [Ht|Ht];
    [|left; congruence].
  intros H. bind_inv H.
  match type of H with
  | (let '(_, _) := ?x in _) = _ => destruct x as [ss0 si0] eqn:Eu
  end.
  do 3 bind_inv H. injection H as <- _.
  destruct (Length h >? 8).
  - destruct (uuidScan _ true true) as [only0xFF only0x00].
    destruct (negb only0xFF && negb only0x00);
      injection Eu as <- _; auto.
  - injection Eu as <- _; auto.
Qed.

(** The strings of a decoded structure are the strings framed from the
    stream, except that the type-1 branch may have appended the rendered
    UUID to them. *)
Lemma interpret_strings h fb ss ss' si :
  interpret P heap ver h fb ss = Ok (ss', si) ->
  ss' = ss \/
  Type_ h = 1 /\
  ss' = ss ++ [renderUUID
                 (map (fun i => peek8 fb heap (SMBIOSSystemInfo.UUID + i))
                      (seq 0 16))].
Proof.
  unfold interpret. intros H.
  bind_inv H. destruct a as [s1 i1].
  bind_inv H. destruct a as [s2 i2].
  bind_inv H. destruct a as [s3 i3].
  bind_inv H. destruct a as [s4 i4].
  bind_inv H. destruct a as [s5 i5].
  apply interpBIOS_strings in H. apply interpMemoryDevice_strings in E3.
  apply interpProcessor_strings in E2. apply interpEnclosure_strings in E1.
  apply interpBaseboard_strings in E0. subst.
  now apply interpSystem_strings in E.
Qed.

End StringVector.

(** * Further properties of the code *)

(** ** The string-set parser *)

Section StringSet.

Lemma dropLeading_id (l : list Z) :
  Forall (fun c => c <> 0) l -> dropLeading 0 l = l.
Proof.
  intros H. destruct H as [|x l Hx Hl]; [reflexivity|]. simpl.
  apply Z.eqb_neq in Hx. now rewrite Hx.
Qed.

Lemma TrimRight_terminated (s : GoString) :
  Forall (fun c => c <> 0) s -> TrimRight (s ++ [0]) 0 = s.
Proof.
  intros H. unfold TrimRight. rewrite rev_app_distr. simpl.
  rewrite dropLeading_id by now apply Forall_rev.
  apply rev_involutive.
Qed.

Lemma ReadBytes_terminated (s t : list Z) :
  Forall (fun c => c <> 0) s ->
  ReadBytes 0 (s ++ 0 :: t) = Ok (s ++ [0], t).
Proof.
  induction 1 as [|x s Hx Hs IH]; [reflexivity|]. simpl.
  apply Z.eqb_neq in Hx. rewrite Hx, IH. reflexivity.
Qed.

Lemma parseString_last (s t : list Z) :
  Forall (fun c => c <> 0) s ->
  parseString (s ++ 0 :: 0 :: t) = Ok (s, false, t).
Proof.
  intros H. unfold parseString.
  rewrite (ReadBytes_terminated _ H). cbn [bind].
  rewrite (TrimRight_terminated H). reflexivity.
Qed.

Lemma parseString_more (s t : list Z) (c : Z) :
  Forall (fun c => c <> 0) s -> c <> 0 ->
  parseString (s ++ 0 :: c :: t) = Ok (s, true, c :: t).
Proof.
  intros H Hc. unfold parseString.
  rewrite (ReadBytes_terminated _ H). cbn [bind].
  rewrite (TrimRight_terminated H).
  apply Z.eqb_neq in Hc. now rewrite Hc.
Qed.

Lemma terminated_cons (s : GoString) (ss : list GoString) :
  terminated (s :: ss) = s ++ 0 :: terminated ss.
Proof.
  unfold terminated. simpl. now rewrite <- app_assoc.
Qed.

Lemma wellFormed_head (s : GoString) :
  wellFormedString s ->
  exists c s', s = c :: s' /\ c <> 0 /\ Forall (fun c => c <> 0) s'.
Proof.
  intros [Hne H]. destruct H as [|c s' Hc Hs]; [congruence|]. eauto.
Qed.

Lemma parseStringsLoop_terminated :
  forall ss s acc fuel rest,
    Forall wellFormedString (s :: ss) ->
    (length (s :: ss) <= fuel)%nat ->
    parseStringsLoop fuel (terminated (s :: ss) ++ 0 :: rest) acc =
    Ok (acc ++ s :: ss, rest).
Proof.
  induction ss as [|s2 ss IH]; intros s acc fuel rest Hwf Hfuel;
    (destruct fuel as [|fuel]; [simpl in Hfuel; lia|]);
    apply Forall_cons_iff in Hwf as [[_ Hs] Hwf];
    rewrite terminated_cons, <- app_assoc; cbn [parseStringsLoop].
  - cbn [terminated map concat app].
    rewrite (parseString_last _ Hs). reflexivity.
  - pose proof Hwf as Hwf'. apply Forall_cons_iff in Hwf' as [H2 _].
    destruct (wellFormed_head H2) as (c & s2' & -> & Hc & _).
    rewrite terminated_cons. cbn [app].
    rewrite (parseString_more _ Hs Hc). cbn [bind].
    change (c :: (s2' ++ 0 :: terminated ss) ++ 0 :: rest)
      with (((c :: s2') ++ 0 :: terminated ss) ++ 0 :: rest).
    rewrite <- terminated_cons, IH by (auto; simpl in *; lia).
    now rewrite <- app_assoc.
Qed.

Lemma length_terminated (ss : list GoString) :
  (length ss <= length (terminated ss))%nat.
Proof.
  induction ss as [|s ss IH]; [reflexivity|].
  rewrite terminated_cons, length_app. simpl. lia.
Qed.

(** The string-set parser on a well-formed string-set. *)
Lemma parseStrings_encodeStrings (ss : list GoString) (rest : list Z) :
  Forall wellFormedString ss ->
  parseStrings (encodeStrings ss ++ rest) = Ok (ss, rest).
Proof.
  intros Hwf. destruct ss as [|s ss]; [reflexivity|].
  unfold encodeStrings. rewrite <- app_assoc. cbn [app].
  pose proof (Forall_inv Hwf) as Hs.
  destruct (wellFormed_head Hs) as (c & s' & E & Hc & _).
  assert (Hshape : exists t1 r', terminated (s :: ss) ++ 0 :: rest
                                 = c :: t1 :: r').
  { rewrite terminated_cons, E. cbn [app].
    destruct s' as [|t1 s']; cbn [app]; eauto. }
  destruct Hshape as (t1 & r' & Hshape).
  unfold parseStrings. rewrite Hshape.
  apply Z.eqb_neq in Hc. rewrite Hc. cbn [andb]. rewrite <- Hshape.
  apply (@parseStringsLoop_terminated ss s [] _ rest); [exact Hwf|].
  rewrite length_app. pose proof (length_terminated (s :: ss)). lia.
Qed.

End StringSet.

(** X1.  A string-set of non-empty strings without zero bytes, each followed
    by a zero byte and the set closed by one more zero byte (two zero bytes
    when there is no string), is parsed back into exactly these strings, and
    the reader is left at the first byte after the set. *)
Theorem string_set_round_trip (ss : list GoString) (rest : list Z) :
  Forall wellFormedString ss ->
  parseStrings (encodeStrings ss ++ rest) = Ok (ss, rest).
Proof. apply parseStrings_encodeStrings. Qed.

Lemma string_set_round_trip_witness :
  parseStrings (encodeStrings [str "abcd"; str "1234"] ++ [127; 4]) =
  Ok ([str "abcd"; str "1234"], [127; 4]).
Proof.
  apply (@string_set_round_trip [str "abcd"; str "1234"] [127; 4]).
  repeat constructor; (discriminate || (vm_compute; congruence)).
Defined.

(** ** Raw structures through next and Decode *)

Section RawRoundTrip.

Variable P : Platform.

Lemma firstn_length_app {A} (a b : list A) : firstn (length a) (a ++ b) = a.
Proof. induction a; simpl; [now destruct b|now f_equal]. Qed.

Lemma skipn_length_app {A} (a b : list A) : skipn (length a) (a ++ b) = b.
Proof. induction a; simpl; auto. Qed.

Lemma ReadFull_exact (a b : list Z) :
  ReadFull (a ++ b) (length a) = Ok (a, b).
Proof.
  unfold ReadFull. rewrite length_app.
  replace (length a <=? length a + length b)%nat with true
    by (symmetry; apply Nat.leb_le; lia).
  now rewrite firstn_length_app, skipn_length_app.
Qed.

Lemma parseFormatted_exact (fb rest : list Z) :
  parseFormatted (headerLen + len fb - headerLen) (fb ++ rest) =
  Ok (fb, rest).
Proof.
  unfold parseFormatted, len.
  replace (headerLen + Z.of_nat (length fb) - headerLen)
    with (Z.of_nat (length fb)) by lia.
  replace (Z.of_nat (length fb) <? 0) with false
    by (symmetry; apply Z.ltb_ge; lia).
  destruct fb as [|x fb]; [reflexivity|].
  replace (Z.of_nat (length (x :: fb)) =? 0) with false
    by (symmetry; apply Z.eqb_neq; simpl; lia).
  rewrite Nat2Z.id. apply ReadFull_exact.
Qed.

(** Header types without a block in [next] get the empty projection and
    keep their strings. *)
Lemma interpret_unrecognized heap ver h fb ss :
  recognized (Type_ h) = false ->
  interpret P heap ver h fb ss = Ok (ss, SystemInfo0).
Proof.
  unfold recognized. intros H.
  repeat (apply orb_false_iff in H as [H ?]).
  unfold interpret, interpSystem, interpBaseboard, interpEnclosure,
    interpProcessor, interpMemoryDevice, interpBIOS.
  repeat match goal with
         | E : (Type_ h =? _) = false |- _ => rewrite E; clear E
         end.
  reflexivity.
Qed.

Lemma next_encodeStructure (k : nat) (ver : SMBIOSVersion) (x : Raw)
  (rest : list Z) :
  recognized (rawType x) = false ->
  wellFormedRaw x ->
  next P k {| br := encodeStructure x ++ rest; Version_ := ver |} =
  Ok (rawStructure x, {| br := rest; Version_ := ver |}).
Proof.
  intros Hty Hwf. unfold next, encodeStructure.
  cbn [br app]. change (parseHeader ?r) with
    (Ok ({| Type_ := rawType x; Length := headerLen + len (rawFormatted x);
            Handle := Uint16 [rawH0 x; rawH1 x] |},
         (rawFormatted x ++ encodeStrings (rawStrings x)) ++ rest)).
  cbn [bind Length]. rewrite <- app_assoc, parseFormatted_exact.
  cbn [bind]. rewrite (parseStrings_encodeStrings _ Hwf).
  cbn [bind Version_]. rewrite interpret_unrecognized by exact Hty.
  reflexivity.
Qed.

(** The structures of a well-formed stream, one [next] after the other. *)
Lemma framed_encodeAll (ver : SMBIOSVersion) (e : Raw) (rest : list Z) :
  rawType e = typeEndOfTable -> wellFormedRaw e ->
  forall (xs : list Raw) (k : nat),
    Forall (fun x => recognized (rawType x) = false /\
                     rawType x <> typeEndOfTable /\ wellFormedRaw x) xs ->
    framed P k {| br := encodeAll xs ++ encodeStructure e ++ rest;
                  Version_ := ver |}
           (map rawStructure (xs ++ [e])).
Proof.
  intros He Hwe.
  assert (Hre : recognized (rawType e) = false) by now rewrite He.
  induction xs as [|x xs IH]; intros k Hxs.
  - cbn [encodeAll map concat app].
    eapply framed_last; [now apply next_encodeStructure|exact He].
  - apply Forall_cons_iff in Hxs as [(Hrx & Hnx & Hwx) Hxs].
    unfold encodeAll in *. cbn [map concat app]. rewrite <- app_assoc.
    eapply framed_more; [now apply next_encodeStructure|exact Hnx|].
    now apply IH.
Qed.

(** *** A successful step does not depend on the bytes that follow *)

Variable extra : list Z.

Lemma ReadFull_app (r : list Z) (n : nat) b r' :
  ReadFull r n = Ok (b, r') -> ReadFull (r ++ extra) n = Ok (b, r' ++ extra).
Proof.
  intros H. apply ReadFull_Ok in H as (-> & -> & Hn).
  unfold ReadFull. rewrite length_app.
  replace (n <=? length r + length extra)%nat with true
    by (symmetry; apply Nat.leb_le; lia).
  rewrite firstn_app, skipn_app.
  replace (n - length r)%nat with 0%nat by lia.
  cbn [firstn skipn]. now rewrite app_nil_r.
Qed.

Lemma parseFormatted_app (l : Z) (r : list Z) fb r' :
  parseFormatted l r = Ok (fb, r') ->
  parseFormatted l (r ++ extra) = Ok (fb, r' ++ extra).
Proof.
  unfold parseFormatted. destruct (l <? 0); [discriminate|].
  destruct (l =? 0).
  - intros H. now injection H as <- <-.
  - apply ReadFull_app.
Qed.

Lemma ReadBytes_app (delim : Z) :
  forall r raw r',
    ReadBytes delim r = Ok (raw, r') ->
    ReadBytes delim (r ++ extra) = Ok (raw, r' ++ extra).
Proof.
  induction r as [|x r IH]; intros raw r'; simpl; [discriminate|].
  destruct (x =? delim).
  - intros H. now injection H as <- <-.
  - destruct (ReadBytes delim r) as [[raw0 r0]|e| |]; simpl;
      try discriminate.
    intros H. injection H as <- <-. now rewrite (IH _ _ eq_refl).
Qed.

Lemma parseString_app (r : list Z) s more r' :
  parseString r = Ok (s, more, r') ->
  parseString (r ++ extra) = Ok (s, more, r' ++ extra).
Proof.
  unfold parseString.
  destruct (ReadBytes 0 r) as [[raw r1]|e| |] eqn:E; simpl;
    try discriminate.
  rewrite (ReadBytes_app _ _ E). cbn [bind].
  destruct r1 as [|p r2]; [discriminate|]. cbn [app].
  destruct (p =? 0); simpl; intros H; now injection H as <- <- <-.
Qed.

Lemma parseStringsLoop_app :
  forall fuel r acc out r',
    parseStringsLoop fuel r acc = Ok (out, r') ->
    forall fuel', (fuel <= fuel')%nat ->
      parseStringsLoop fuel' (r ++ extra) acc = Ok (out, r' ++ extra).
Proof.
  induction fuel as [|fuel IH]; intros r acc out r'; simpl; [discriminate|].
  destruct (parseString r) as [[[s more] r1]|e| |] eqn:E; simpl;
    try discriminate.
  intros H fuel' Hf. destruct fuel' as [|fuel']; [lia|]. simpl.
  rewrite (parseString_app _ E). cbn [bind]. destruct more.
  - apply (IH _ _ _ _ H). lia.
  - now injection H as <- <-.
Qed.

Lemma parseStrings_app (r : list Z) ss r' :
  parseStrings r = Ok (ss, r') ->
  parseStrings (r ++ extra) = Ok (ss, r' ++ extra).
Proof.
  unfold parseStrings. destruct r as [|t0 [|t1 r0]]; try discriminate.
  cbn [app]. destruct ((t0 =? 0) && (t1 =? 0)).
  - intros H. now injection H as <- <-.
  - intros H.
    apply (parseStringsLoop_app _ _ H (fuel' := length (t0 :: t1 :: r0 ++ extra))).
    simpl. rewrite length_app. lia.
Qed.

Lemma next_app (k : nat) (d : Decoder) s d' :
  next P k d = Ok (s, d') ->
  next P k {| br := br d ++ extra; Version_ := Version_ d |} =
  Ok (s, {| br := br d' ++ extra; Version_ := Version_ d' |}).
Proof.
  unfold next, parseHeader. cbn [br Version_].
  destruct (ReadFull (br d) 4) as [[b r1]|e| |] eqn:E1; simpl;
    try discriminate.
  rewrite (ReadFull_app _ _ E1). cbn [bind].
  destruct (parseFormatted _ r1) as [[fb r2]|e| |] eqn:E2; simpl;
    try discriminate.
  rewrite (parseFormatted_app _ _ E2). cbn [bind].
  destruct (parseStrings r2) as [[ss r3]|e| |] eqn:E3; simpl;
    try discriminate.
  rewrite (parseStrings_app _ E3). cbn [bind].
  destruct (interpret _ _ _ _ _ _) as [[ss' si]|e| |]; simpl;
    try discriminate.
  intros H. now injection H as <- <-.
Qed.

Lemma framed_app :
  forall k d ss,
    framed P k d ss ->
    framed P k {| br := br d ++ extra; Version_ := Version_ d |} ss.
Proof.
  induction 1 as [k d s d' E Ht|k d s d' ss E Ht Hf IH].
  - eapply framed_last; [apply (next_app _ _ E)|exact Ht].
  - eapply framed_more; [apply (next_app _ _ E)|exact Ht|exact IH].
Qed.

End RawRoundTrip.

Lemma wellFormedString_dec (s : GoString) :
  (negb (length s =? 0)%nat && forallb (fun c => negb (c =? 0)) s) = true ->
  wellFormedString s.
Proof.
  intros H. apply andb_true_iff in H as [Hn Ha]. split.
  - intros ->. discriminate.
  - apply Forall_forall. intros c Hc. rewrite forallb_forall in Ha.
    specialize (Ha c Hc). apply negb_true_iff in Ha. now apply Z.eqb_neq.
Defined.

Lemma wellFormedRaw_dec (x : Raw) :
  forallb (fun s => negb (length s =? 0)%nat &&
                    forallb (fun c => negb (c =? 0)) s) (rawStrings x) = true ->
  wellFormedRaw x.
Proof.
  intros H. unfold wellFormedRaw. apply Forall_forall. intros s Hs.
  rewrite forallb_forall in H. apply wellFormedString_dec. now apply H.
Defined.

(** X2.  A structure whose type has no typed projection (any type other
    than 0, 1, 2, 3, 4 and 17) and whose strings are well formed is returned
    by [next] exactly as it lies in the stream: header type, length and
    little-endian handle, the formatted block, the strings, and an empty
    [SystemInfo]; the reader is left at the byte after its string-set. *)
Theorem next_returns_raw_structure
  (P : Platform) (k : nat) (ver : SMBIOSVersion) (x : Raw) (rest : list Z) :
  recognized (rawType x) = false ->
  wellFormedRaw x ->
  next P k {| br := encodeStructure x ++ rest; Version_ := ver |} =
  Ok (rawStructure x, {| br := rest; Version_ := ver |}).
Proof. apply next_encodeStructure. Qed.

Lemma next_returns_raw_structure_witness :
  next amd64 0 {| br := encodeStructure oemRaw ++ [127];
                  Version_ := {| Major := 2; Minor := 8 |} |} =
  Ok (rawStructure oemRaw,
      {| br := [127]; Version_ := {| Major := 2; Minor := 8 |} |}).
Proof.
  apply (@next_returns_raw_structure amd64 0 {| Major := 2; Minor := 8 |}
           oemRaw [127]).
  - reflexivity.
  - apply wellFormedRaw_dec. reflexivity.
Defined.

(** X3.  A stream made of well-formed structures of types without typed
    projection, followed by a well-formed end-of-table structure (type 127)
    and by any further bytes, decodes to exactly these structures in stream
    order, the end-of-table structure last; the bytes after it are not
    looked at. *)
Theorem decode_round_trip
  (P : Platform) (ver : SMBIOSVersion) (xs : list Raw) (e : Raw)
  (rest : list Z) :
  Forall (fun x => recognized (rawType x) = false /\
                   rawType x <> typeEndOfTable /\ wellFormedRaw x) xs ->
  rawType e = typeEndOfTable ->
  wellFormedRaw e ->
  Decode P {| br := encodeAll xs ++ encodeStructure e ++ rest;
              Version_ := ver |} =
  Ok (map rawStructure (xs ++ [e])).
Proof.
  intros Hxs He Hwe. unfold Decode.
  apply (@DecodeLoop_framed P _ _ _
           (@framed_encodeAll P ver e rest He Hwe xs 0%nat Hxs) _ []).
  lia.
Qed.

Lemma decode_round_trip_witness :
  Decode amd64 {| br := encodeAll [oemRaw; oemRaw] ++
                        encodeStructure endRaw ++ [1; 2; 3];
                  Version_ := {| Major := 2; Minor := 8 |} |} =
  Ok (map rawStructure ([oemRaw; oemRaw] ++ [endRaw])).
Proof.
  apply (@decode_round_trip amd64 {| Major := 2; Minor := 8 |}
           [oemRaw; oemRaw] endRaw [1; 2; 3]).
  - repeat constructor; try discriminate; apply wellFormedRaw_dec;
      reflexivity.
  - reflexivity.
  - apply wellFormedRaw_dec. reflexivity.
Defined.

(** X4.  Whatever Decode returns successfully it also returns when more
    bytes follow the stream: nothing after the end-of-table structure
    influences the result. *)
Theorem decode_ignores_bytes_after_end_of_table
  (P : Platform) (d : Decoder) (ss : list Structure) (extra : list Z) :
  Decode P d = Ok ss ->
  Decode P {| br := br d ++ extra; Version_ := Version_ d |} = Ok ss.
Proof.
  unfold Decode. intros H.
  apply DecodeLoop_Ok in H as (ss' & -> & Hf).
  apply (@DecodeLoop_framed P _ _ _ (@framed_app P extra _ _ _ Hf) _ []).
  cbn [br]. lia.
Qed.

Lemma decode_ignores_bytes_after_end_of_table_witness :
  Decode amd64 {| br := br (NewDecoder endOfTable) ++ [9; 9; 9];
                  Version_ := Version_ (NewDecoder endOfTable) |} =
  Ok [{| Header_ := {| Type_ := 127; Length := 4; Handle := 9 |};
         Formatted := []; Strings := []; SystemInfo_ := SystemInfo0 |}].
Proof.
  apply (@decode_ignores_bytes_after_end_of_table amd64
           (NewDecoder endOfTable) _ [9; 9; 9]).
  vm_compute. reflexivity.
Defined.

(** X5.  Decode returns structures exactly when successive calls of [next]
    return them up to the first structure of type 127.  A returned sequence
    is therefore never empty, its last structure has type 127 and none
    before it has. *)
Theorem decode_returns_structures_up_to_first_end_of_table
  (P : Platform) (d : Decoder) (ss : list Structure) :
  (Decode P d = Ok ss <-> framed P 0 d ss) /\
  (Decode P d = Ok ss ->
   exists init last,
     ss = init ++ [last] /\
     Type_ (Header_ last) = typeEndOfTable /\
     Forall (fun s => Type_ (Header_ s) <> typeEndOfTable) init).
Proof.
  assert (Hiff : Decode P d = Ok ss -> framed P 0 d ss).
  { unfold Decode. intros H.
    now apply DecodeLoop_Ok in H as (ss' & -> & Hf). }
  split; [split; [exact Hiff|]|].
  - intros H. unfold Decode.
    apply (@DecodeLoop_framed P _ _ _ H _ []). lia.
  - intros H. apply Hiff in H. now apply framed_shape in H.
Qed.

Lemma decode_returns_structures_up_to_first_end_of_table_witness :
  exists init last,
    [{| Header_ := {| Type_ := 127; Length := 4; Handle := 9 |};
        Formatted := []; Strings := []; SystemInfo_ := SystemInfo0 |}] =
    init ++ [last] /\
    Type_ (Header_ last) = typeEndOfTable /\
    Forall (fun s => Type_ (Header_ s) <> typeEndOfTable) init.
Proof.
  apply (proj2 (@decode_returns_structures_up_to_first_end_of_table amd64
                  (NewDecoder endOfTable) _)).
  vm_compute. reflexivity.
Defined.

(** ** What a successful step consumes *)

Section Consumption.

Lemma ReadFull_split (r : list Z) (n : nat) b r' :
  ReadFull r n = Ok (b, r') -> r = b ++ r' /\ length b = n.
Proof.
  intros H. apply ReadFull_Ok in H as (-> & -> & Hn). split.
  - symmetry. apply firstn_skipn.
  - rewrite length_firstn. lia.
Qed.

Lemma ReadBytes_split (delim : Z) :
  forall r raw r',
    ReadBytes delim r = Ok (raw, r') ->
    exists pre, raw = pre ++ [delim] /\ r = raw ++ r'.
Proof.
  induction r as [|x r IH]; intros raw r'; simpl; [discriminate|].
  destruct (Z.eqb_spec x delim) as [->|Hne].
  - intros H. injection H as <- <-. now exists [].
  - destruct (ReadBytes delim r) as [[raw0 r0]|e| |] eqn:E; simpl;
      try discriminate.
    intros H. injection H as <- <-.
    destruct (IH _ _ eq_refl) as (pre & -> & ->).
    exists (x :: pre). split; reflexivity.
Qed.

(** A string-set read by the loop ends with two zero bytes. *)
Lemma parseStringsLoop_split :
  forall fuel r acc out r',
    parseStringsLoop fuel r acc = Ok (out, r') ->
    exists body, r = body ++ [0; 0] ++ r'.
Proof.
  induction fuel as [|fuel IH]; intros r acc out r'; simpl; [discriminate|].
  unfold parseString.
  destruct (ReadBytes 0 r) as [[raw r1]|e| |] eqn:E; simpl;
    try discriminate.
  apply ReadBytes_split in E as (pre & -> & ->).
  destruct r1 as [|p r2]; [discriminate|].
  destruct (Z.eqb_spec p 0) as [->|Hp]; simpl.
  - intros H. injection H as _ <-. exists pre.
    now rewrite <- !app_assoc.
  - intros H. apply IH in H as (body & ->).
    exists ((pre ++ [0]) ++ body). now rewrite <- !app_assoc.
Qed.

Lemma parseStrings_split (r : list Z) ss r' :
  parseStrings r = Ok (ss, r') -> exists body, r = body ++ [0; 0] ++ r'.
Proof.
  unfold parseStrings. destruct r as [|t0 [|t1 r0]]; try discriminate.
  destruct (Z.eqb_spec t0 0) as [->|H0]; cbn [andb].
  - destruct (Z.eqb_spec t1 0) as [->|H1].
    + intros H. injection H as _ <-. now exists [].
    + apply parseStringsLoop_split.
  - apply parseStringsLoop_split.
Qed.

Lemma parseFormatted_split (l : Z) (r fb r' : list Z) :
  parseFormatted l r = Ok (fb, r') -> r = fb ++ r' /\ len fb = l.
Proof.
  unfold parseFormatted, len. destruct (Z.ltb_spec l 0) as [Hn|Hn];
    [discriminate|].
  destruct (Z.eqb_spec l 0) as [->|Hl].
  - intros H. now injection H as <- <-.
  - intros H. apply ReadFull_split in H as [-> ->]. split; [reflexivity|lia].
Qed.

End Consumption.

(** X6.  Every structure that [next] returns accounts for the bytes it
    consumed: the stream before the call is the four header bytes (type,
    length, the two handle bytes, little-endian), then the formatted block
    returned, then a string-set that ends with two zero bytes, then the
    stream left for the next call; and the header length is four plus the
    length of the formatted block. *)
Theorem next_consumes_exactly_one_structure
  (P : Platform) (k : nat) (d : Decoder) (s : Structure) (d' : Decoder) :
  next P k d = Ok (s, d') ->
  Length (Header_ s) = headerLen + len (Formatted s) /\
  exists h0 h1 body,
    Handle (Header_ s) = Uint16 [h0; h1] /\
    br d = [Type_ (Header_ s); Length (Header_ s); h0; h1] ++
           Formatted s ++ body ++ [0; 0] ++ br d'.
Proof.
  unfold next, parseHeader.
  destruct (ReadFull (br d) 4) as [[b r1]|e| |] eqn:E1; cbn [bind];
    try discriminate.
  apply ReadFull_split in E1 as [E1 Hb].
  destruct b as [|ty [|l [|h0 [|h1 [|]]]]]; try discriminate.
  cbn [at_ nth slice skipn firstn Nat.sub].
  destruct (parseFormatted _ r1) as [[fb r2]|e| |] eqn:E2; cbn [bind];
    try discriminate.
  apply parseFormatted_split in E2 as [-> Hl].
  destruct (parseStrings r2) as [[ss r3]|e| |] eqn:E3; cbn [bind];
    try discriminate.
  apply parseStrings_split in E3 as (body & ->).
  destruct (interpret _ _ _ _ _ _) as [[ss' si]|e| |]; cbn [bind];
    try discriminate.
  intros H. injection H as <- <-. cbn [Header_ Formatted Length Type_ Handle br].
  cbn [Length] in Hl.
  split; [unfold headerLen in *; lia|].
  exists h0, h1, body. split; [reflexivity|]. rewrite E1. reflexivity.
Qed.

Lemma next_consumes_exactly_one_structure_witness :
  Length (Header_ (rawStructure oemRaw)) =
    headerLen + len (Formatted (rawStructure oemRaw)) /\
  exists h0 h1 body,
    Handle (Header_ (rawStructure oemRaw)) = Uint16 [h0; h1] /\
    br {| br := encodeStructure oemRaw ++ [127];
          Version_ := {| Major := 2; Minor := 8 |} |} =
    [Type_ (Header_ (rawStructure oemRaw));
     Length (Header_ (rawStructure oemRaw)); h0; h1] ++
    Formatted (rawStructure oemRaw) ++ body ++ [0; 0] ++
    br {| br := [127]; Version_ := {| Major := 2; Minor := 8 |} |}.
Proof.
  apply (@next_consumes_exactly_one_structure amd64 0
           {| br := encodeStructure oemRaw ++ [127];
              Version_ := {| Major := 2; Minor := 8 |} |}).
  vm_compute. reflexivity.
Defined.

(** ** Errors of the decoder *)

Create HintDb okpanic.

Section DecoderErrors.

Variable P : Platform.

Lemma okOrPanic_Ok {A} (a : A) : okOrPanic (Ok a).
Proof. exact I. Qed.

Lemma okOrPanic_bind {A B} (m : outcome A) (k : A -> outcome B) :
  okOrPanic m -> (forall a, okOrPanic (k a)) -> okOrPanic (bind m k).
Proof. destruct m; simpl; auto. Qed.

Lemma okOrPanic_index {A} (ss : list A) (i : Z) : okOrPanic (index ss i).
Proof.
  unfold index. destruct (i <? 0); [exact I|].
  now destruct (nth_error ss (Z.to_nat i)).
Qed.

Lemma okOrPanic_addrOfFirst (fb : list Z) : okOrPanic (addrOfFirst fb).
Proof. now destruct fb. Qed.

Lemma okOrPanic_lookupChecked ss v n : okOrPanic (lookupChecked ss v n).
Proof.
  unfold lookupChecked. destruct ((n >? 0) && (n <=? v));
    [apply okOrPanic_index|exact I].
Qed.

#[local] Hint Resolve okOrPanic_Ok okOrPanic_index okOrPanic_addrOfFirst
  okOrPanic_lookupChecked : okpanic.

Ltac ok_or_panic :=
  repeat first
    [ progress auto with okpanic
    | apply okOrPanic_bind; [|intros ?]
    | match goal with
      | |- okOrPanic (if ?c then _ else _) => destruct c
      | |- okOrPanic (let '(_, _) := ?x in _) => destruct x
      | |- okOrPanic (match ?x with _ => _ end) => destruct x
      end ].

(** Interpretation never reports an error: it succeeds or panics. *)
Lemma interpret_okOrPanic heap ver h fb ss :
  okOrPanic (interpret P heap ver h fb ss).
Proof.
  unfold interpret, interpSystem, interpBaseboard, interpEnclosure,
    interpProcessor, interpMemoryDevice, interpBIOS.
  ok_or_panic.
Qed.

Lemma ioErrorsOnly_bind {A B} (m : outcome A) (k : A -> outcome B) :
  ioErrorsOnly m -> (forall a, ioErrorsOnly (k a)) -> ioErrorsOnly (bind m k).
Proof.
  unfold ioErrorsOnly. intros Hm Hk e. destruct m; simpl; try discriminate.
  - apply Hk.
  - intros H. injection H as <-. now apply Hm.
Qed.

Lemma ioErrorsOnly_ReadFull (r : list Z) (n : nat) :
  ioErrorsOnly (ReadFull r n).
Proof.
  unfold ioErrorsOnly, ReadFull. intros e.
  destruct (n <=? length r)%nat; [discriminate|].
  destruct r; intros H; injection H as <-; auto.
Qed.

Lemma ioErrorsOnly_ReadBytes (delim : Z) :
  forall r, ioErrorsOnly (ReadBytes delim r).
Proof.
  unfold ioErrorsOnly. induction r as [|x r IH]; simpl; intros e.
  - intros H. injection H as <-. auto.
  - destruct (x =? delim); [discriminate|].
    destruct (ReadBytes delim r) as [[raw r0]|e0| |]; simpl;
      try discriminate.
    apply IH.
Qed.

Lemma ioErrorsOnly_parseString (r : list Z) : ioErrorsOnly (parseString r).
Proof.
  unfold parseString. apply ioErrorsOnly_bind;
    [apply ioErrorsOnly_ReadBytes|].
  intros [raw r1] e. destruct r1 as [|p r2].
  - intros H. injection H as <-. auto.
  - destruct (negb (p =? 0)); discriminate.
Qed.

Lemma ioErrorsOnly_parseStringsLoop :
  forall fuel r acc, ioErrorsOnly (parseStringsLoop fuel r acc).
Proof.
  induction fuel as [|fuel IH]; intros r acc; simpl; [discriminate|].
  apply ioErrorsOnly_bind; [apply ioErrorsOnly_parseString|].
  intros [[s more] r']. destruct more; [apply IH|discriminate].
Qed.

Lemma ioErrorsOnly_parseStrings (r : list Z) : ioErrorsOnly (parseStrings r).
Proof.
  unfold parseStrings.
  destruct r as [|t0 [|t1 r0]];
    try (intros e H; injection H as <-; auto; fail).
  destruct ((t0 =? 0) && (t1 =? 0)); [discriminate|].
  apply ioErrorsOnly_parseStringsLoop.
Qed.

Lemma ioErrorsOnly_parseFormatted (l : Z) (r : list Z) :
  ioErrorsOnly (parseFormatted l r).
Proof.
  unfold parseFormatted. destruct (l <? 0).
  - intros e H. injection H as <-. auto.
  - destruct (l =? 0); [discriminate|apply ioErrorsOnly_ReadFull].
Qed.

Lemma ioErrorsOnly_next (k : nat) (d : Decoder) : ioErrorsOnly (next P k d).
Proof.
  unfold next, parseHeader.
  apply ioErrorsOnly_bind; [|intros [h r1]].
  { apply ioErrorsOnly_bind; [apply ioErrorsOnly_ReadFull|].
    intros [b r']. discriminate. }
  apply ioErrorsOnly_bind; [apply ioErrorsOnly_parseFormatted|].
  intros [fb r2].
  apply ioErrorsOnly_bind; [apply ioErrorsOnly_parseStrings|].
  intros [ss r3].
  apply ioErrorsOnly_bind; [|intros [ss' si]; discriminate].
  intros e H. pose proof (interpret_okOrPanic (junk P k) (Version_ d) h fb ss)
    as Hi.
  rewrite H in Hi. contradiction.
Qed.

(** A failing step decides the result of the loop. *)
Lemma DecodeLoop_failing :
  forall k d n r,
    failing P k d n r ->
    forall fuel acc,
      (length (br d) < fuel)%nat ->
      DecodeLoop P fuel k d acc =
      match r with
      | Ok _ => Panic
      | Err e => Err e
      | Panic => Panic
      | OutOfFuel => OutOfFuel
      end.
Proof.
  induction 1 as [k d r E Hr|k d s d' n r E Ht Hf IH]; intros fuel acc Hl;
    (destruct fuel as [|fuel]; [lia|]); cbn [DecodeLoop]; rewrite E.
  - destruct r as [[s d']|e| |]; [discriminate|reflexivity..].
  - apply Z.eqb_neq in Ht. rewrite Ht.
    apply next_length in E. apply IH. lia.
Qed.

End DecoderErrors.

(** ** Errors of the decoder over any reader *)

Section AnyReaderErrors.

Variable fault : error.
Variable P : Platform.













End AnyReaderErrors.



(** X8.  Decode returns an error exactly when some call of [next], made
    after structures that are not of type 127, returns that error; the
    structures decoded before it are dropped.  It panics exactly when such a
    call panics. *)
Theorem decode_fails_exactly_when_a_step_fails
  (P : Platform) (d : Decoder) :
  (forall e, Decode P d = Err e <-> exists n, failing P 0 d n (Err e)) /\
  (Decode P d = Panic <-> exists n, failing P 0 d n Panic).
Proof.
  assert (Hl : (length (br d) < S (length (br d)))%nat) by lia.
  split; [intros e|]; split.
  - apply (proj1 (DecodeLoop_fails P _ _ _ _)).
  - intros [n Hf]. exact (DecodeLoop_failing Hf [] Hl).
  - apply (proj2 (DecodeLoop_fails P _ _ _ _)).
  - intros [n Hf]. exact (DecodeLoop_failing Hf [] Hl).
Qed.

Section FailingAfterRaw.

Variable P : Platform.
Variable ver : SMBIOSVersion.

(** A step that fails after a run of well-formed structures. *)
Lemma failing_encodeAll (tail : list Z) :
  forall (xs : list Raw) (k : nat) r,
    Forall (fun x => recognized (rawType x) = false /\
                     rawType x <> typeEndOfTable /\ wellFormedRaw x) xs ->
    next P (k + length xs) {| br := tail; Version_ := ver |} = r ->
    isOk r = false ->
    failing P k {| br := encodeAll xs ++ tail; Version_ := ver |}
            (length xs) r.
Proof.
  induction xs as [|x xs IH]; intros k r Hxs E Hr.
  - cbn [encodeAll map concat app length]. rewrite Nat.add_0_r in E.
    now apply failing_now.
  - apply Forall_cons_iff in Hxs as [(Hrx & Hnx & Hwx) Hxs].
    unfold encodeAll in *. cbn [map concat app length]. rewrite <- app_assoc.
    eapply failing_later; [now apply next_encodeStructure|exact Hnx|].
    apply IH; auto.
    replace (S k + length xs)%nat with (k + length (x :: xs))%nat
      by (simpl; lia).
    exact E.
Qed.

Lemma Decode_after_raw (tail : list Z) (xs : list Raw) (e : error) :
  Forall (fun x => recognized (rawType x) = false /\
                   rawType x <> typeEndOfTable /\ wellFormedRaw x) xs ->
  next P (length xs) {| br := tail; Version_ := ver |} = Err e ->
  Decode P {| br := encodeAll xs ++ tail; Version_ := ver |} = Err e.
Proof.
  intros Hxs E. unfold Decode.
  apply (@DecodeLoop_failing P 0%nat _ (length xs) (Err e)
           (@failing_encodeAll tail xs 0%nat (Err e) Hxs E eq_refl)).
  lia.
Qed.

End FailingAfterRaw.

(** X9.  A header whose length byte is below 4, met after any number of
    well-formed structures, makes Decode fail with [io.ErrUnexpectedEOF]
    whatever follows it; none of the structures decoded before it is
    returned. *)
Theorem decode_rejects_length_below_header
  (P : Platform) (ver : SMBIOSVersion) (xs : list Raw)
  (ty l h0 h1 : Z) (rest : list Z) :
  Forall (fun x => recognized (rawType x) = false /\
                   rawType x <> typeEndOfTable /\ wellFormedRaw x) xs ->
  l < 4 ->
  Decode P {| br := encodeAll xs ++ ty :: l :: h0 :: h1 :: rest;
              Version_ := ver |} = Err ErrUnexpectedEOF.
Proof.
  intros Hxs Hl. apply Decode_after_raw; [exact Hxs|].
  unfold next. change (parseHeader ?r) with
    (Ok ({| Type_ := ty; Length := l; Handle := Uint16 [h0; h1] |}, rest)).
  cbn [bind Length]. unfold parseFormatted, headerLen.
  replace (l - 4 <? 0) with true by (symmetry; apply Z.ltb_lt; lia).
  reflexivity.
Qed.

Lemma decode_rejects_length_below_header_witness :
  Decode amd64 {| br := encodeAll [oemRaw] ++ 1 :: 3 :: 0 :: 0 :: [0; 0];
                  Version_ := {| Major := 2; Minor := 8 |} |} =
  Err ErrUnexpectedEOF.
Proof.
  apply (@decode_rejects_length_below_header amd64
           {| Major := 2; Minor := 8 |} [oemRaw] 1 3 0 0 [0; 0]).
  - repeat constructor; try discriminate; apply wellFormedRaw_dec;
      reflexivity.
  - lia.
Defined.

(** X10.  A stream of well-formed structures of types without typed
    projection that ends before a structure of type 127 makes Decode fail
    with [io.EOF]; the structures decoded so far are not returned. *)
Theorem decode_without_end_of_table_is_eof
  (P : Platform) (ver : SMBIOSVersion) (xs : list Raw) :
  Forall (fun x => recognized (rawType x) = false /\
                   rawType x <> typeEndOfTable /\ wellFormedRaw x) xs ->
  Decode P {| br := encodeAll xs; Version_ := ver |} = Err EOF.
Proof.
  intros Hxs. rewrite <- (app_nil_r (encodeAll xs)).
  now apply Decode_after_raw.
Qed.

Lemma decode_without_end_of_table_is_eof_witness :
  Decode amd64 {| br := encodeAll [oemRaw; oemRaw];
                  Version_ := {| Major := 2; Minor := 8 |} |} = Err EOF.
Proof.
  apply (@decode_without_end_of_table_is_eof amd64
           {| Major := 2; Minor := 8 |} [oemRaw; oemRaw]).
  repeat constructor; try discriminate; apply wellFormedRaw_dec;
    reflexivity.
Defined.

(** ** When interpretation cannot panic *)

Section NoPanic.

Variable P : Platform.
Variable heap : nat -> Z.
Variable ver : SMBIOSVersion.

Lemma lookupChecked_Ok (ss : list GoString) (n : Z) :
  exists s, lookupChecked ss (uint8 (len ss)) n = Ok s.
Proof.
  unfold lookupChecked.
  destruct ((n >? 0) && (n <=? uint8 (len ss))) eqn:G; [|eauto].
  apply andb_true_iff in G as [G1 G2].
  apply index_in_range. pose proof (uint8_len_le ss). lia.
Qed.

Lemma interpSystem_skip h fb st :
  Type_ h <> 1 -> interpSystem heap h fb st = Ok st.
Proof.
  intros H. unfold interpSystem. apply Z.eqb_neq in H. now rewrite H.
Qed.

Lemma interpBaseboard_skip h fb st :
  Type_ h <> 2 -> interpBaseboard heap h fb st = Ok st.
Proof.
  intros H. unfold interpBaseboard. apply Z.eqb_neq in H. now rewrite H.
Qed.

Lemma interpEnclosure_skip h fb st :
  Type_ h <> 3 -> interpEnclosure heap h fb st = Ok st.
Proof.
  intros H. unfold interpEnclosure. apply Z.eqb_neq in H. now rewrite H.
Qed.

Lemma interpProcessor_skip h fb st :
  Type_ h <> 4 -> interpProcessor P heap ver h fb st = Ok st.
Proof.
  intros H. unfold interpProcessor. apply Z.eqb_neq in H. now rewrite H.
Qed.

Lemma interpMemoryDevice_skip h fb st :
  Type_ h <> 17 -> interpMemoryDevice h fb st = Ok st.
Proof.
  intros H. unfold interpMemoryDevice. apply Z.eqb_neq in H. now rewrite H.
Qed.

Lemma interpBIOS_skip h fb st :
  Type_ h <> 0 -> interpBIOS heap ver h fb st = Ok st.
Proof.
  intros H. unfold interpBIOS. apply Z.eqb_neq in H. now rewrite H.
Qed.

Lemma interpBaseboard_Ok h fb ss si :
  fb <> [] -> exists st, interpBaseboard heap h fb (ss, si) = Ok st.
Proof.
  intros Hfb. unfold interpBaseboard. destruct (Type_ h =? 2); [|eauto].
  destruct fb as [|x fb']; [congruence|]. cbn [addrOfFirst bind].
  set (fb := x :: fb').
  destruct (lookupChecked_Ok ss (peek8 fb heap SMBIOSBaseboardInfo.Manufacturer))
    as [m ->].
  destruct (lookupChecked_Ok ss (peek8 fb heap SMBIOSBaseboardInfo.Product))
    as [p ->].
  destruct (lookupChecked_Ok ss (peek8 fb heap SMBIOSBaseboardInfo.Version))
    as [v ->].
  cbn [bind].
  destruct ((_ >? 0) && (_ <=? uint8 (len ss))) eqn:G; cbn [bind];
    [|eauto].
  apply andb_true_iff in G as [G1 G2].
  destruct (@index_in_range _ ss
              (peek8 fb heap SMBIOSBaseboardInfo.SerialNumber - 1))
    as [s Hs].
  { pose proof (uint8_len_le ss). lia. }
  rewrite Hs. cbn [bind]. eauto.
Qed.

Lemma interpEnclosure_Ok h fb ss si :
  fb <> [] -> exists st, interpEnclosure heap h fb (ss, si) = Ok st.
Proof.
  intros Hfb. unfold interpEnclosure. destruct (Type_ h =? 3); [|eauto].
  destruct fb as [|x fb']; [congruence|]. cbn [addrOfFirst bind]. eauto.
Qed.

Lemma interpProcessor_Ok h fb ss si :
  fb <> [] -> exists st, interpProcessor P heap ver h fb (ss, si) = Ok st.
Proof.
  intros Hfb. destruct (Z.eq_dec (Type_ h) 4) as [Ht|Ht].
  - destruct (interpProcessor_core_count P heap ver h ss si Ht Hfb)
      as (si' & p & E & _). eauto.
  - rewrite interpProcessor_skip by exact Ht. eauto.
Qed.

Lemma interpMemoryDevice_Ok h fb ss si :
  10 <= len fb -> exists st, interpMemoryDevice h fb (ss, si) = Ok st.
Proof.
  intros Hfb. unfold interpMemoryDevice. destruct (Type_ h =? 17); [|eauto].
  destruct (lookupChecked_Ok ss (Manufacturer (readMemInfo fb))) as [m ->].
  cbn [bind].
  destruct (@index_in_range _ fb 9) as [fb9 H9]; [lia|].
  destruct ((_ >? 0) && (_ <=? uint8 (len ss))) eqn:G; cbn [bind].
  - apply andb_true_iff in G as [G1 G2].
    destruct (@index_in_range _ ss (SerialNumber (readMemInfo fb) - 1))
      as [s Hs].
    { pose proof (uint8_len_le ss). lia. }
    rewrite Hs. cbn [bind]. rewrite H9. cbn [bind].
    destruct (negb _); eauto.
  - rewrite H9. cbn [bind]. destruct (negb _); eauto.
Qed.

(** Apart from the BIOS and system blocks, interpretation succeeds on every
    formatted block that is not empty, and for a memory device on every
    block of at least ten bytes. *)
Lemma interpret_Ok h fb ss :
  Type_ h <> 0 -> Type_ h <> 1 ->
  (Type_ h = 2 \/ Type_ h = 3 \/ Type_ h = 4 -> fb <> []) ->
  (Type_ h = 17 -> 10 <= len fb) ->
  exists st, interpret P heap ver h fb ss = Ok st.
Proof.
  intros H0 H1 H234 H17. unfold interpret.
  rewrite interpSystem_skip by exact H1. cbn [bind].
  destruct (Z.eq_dec (Type_ h) 2) as [E2|N2].
  { destruct (@interpBaseboard_Ok h fb ss SystemInfo0) as [st ->]; [auto|].
    cbn [bind]. rewrite interpEnclosure_skip by lia. cbn [bind].
    rewrite interpProcessor_skip by lia. cbn [bind].
    rewrite interpMemoryDevice_skip by lia. cbn [bind].
    rewrite interpBIOS_skip by lia. eauto. }
  rewrite interpBaseboard_skip by exact N2. cbn [bind].
  destruct (Z.eq_dec (Type_ h) 3) as [E3|N3].
  { destruct (@interpEnclosure_Ok h fb ss SystemInfo0) as [st ->]; [auto|].
    cbn [bind]. rewrite interpProcessor_skip by lia. cbn [bind].
    rewrite interpMemoryDevice_skip by lia. cbn [bind].
    rewrite interpBIOS_skip by lia. eauto. }
  rewrite interpEnclosure_skip by exact N3. cbn [bind].
  destruct (Z.eq_dec (Type_ h) 4) as [E4|N4].
  { destruct (@interpProcessor_Ok h fb ss SystemInfo0) as [st ->]; [auto|].
    cbn [bind]. rewrite interpMemoryDevice_skip by lia. cbn [bind].
    rewrite interpBIOS_skip by lia. eauto. }
  rewrite interpProcessor_skip by exact N4. cbn [bind].
  destruct (Z.eq_dec (Type_ h) 17) as [E17|N17].
  { destruct (@interpMemoryDevice_Ok h fb ss SystemInfo0) as [st ->]; [auto|].
    cbn [bind]. rewrite interpBIOS_skip by lia. eauto. }
  rewrite interpMemoryDevice_skip by exact N17. cbn [bind].
  rewrite interpBIOS_skip by exact H0. eauto.
Qed.

End NoPanic.

Lemma ReadFull_noPanic (r : list Z) (n : nat) : ReadFull r n <> Panic.
Proof.
  unfold ReadFull. destruct (n <=? length r)%nat; [discriminate|].
  destruct r; discriminate.
Qed.

Lemma parseFormatted_noPanic (l : Z) (r : list Z) :
  parseFormatted l r <> Panic.
Proof.
  unfold parseFormatted. destruct (l <? 0); [discriminate|].
  destruct (l =? 0); [discriminate|apply ReadFull_noPanic].
Qed.

Lemma ReadBytes_noPanic (delim : Z) : forall r, ReadBytes delim r <> Panic.
Proof.
  induction r as [|x r IH]; simpl; [discriminate|].
  destruct (x =? delim); [discriminate|].
  destruct (ReadBytes delim r) as [[raw r0]|e| |]; simpl;
    discriminate || assumption.
Qed.

Lemma parseString_noPanic (r : list Z) : parseString r <> Panic.
Proof.
  unfold parseString. pose proof (ReadBytes_noPanic 0 r) as H.
  destruct (ReadBytes 0 r) as [[raw r1]|e| |]; simpl;
    try discriminate; [|contradiction].
  destruct r1 as [|p r2]; [discriminate|]. destruct (p =? 0); discriminate.
Qed.

Lemma parseStringsLoop_noPanic :
  forall fuel r acc, parseStringsLoop fuel r acc <> Panic.
Proof.
  induction fuel as [|fuel IH]; intros r acc; simpl; [discriminate|].
  pose proof (parseString_noPanic r) as H.
  destruct (parseString r) as [[[s more] r1]|e| |]; simpl;
    try discriminate; [|contradiction].
  destruct more; [apply IH|discriminate].
Qed.

Lemma parseStrings_noPanic (r : list Z) : parseStrings r <> Panic.
Proof.
  unfold parseStrings. destruct r as [|t0 [|t1 r0]]; try discriminate.
  destruct ((t0 =? 0) && (t1 =? 0)); [discriminate|].
  apply parseStringsLoop_noPanic.
Qed.

(** X11.  [next] can panic only while interpreting a BIOS (type 0) or system
    (type 1) structure, a baseboard, enclosure or processor structure (types
    2, 3, 4) whose header length is 4, or a memory device (type 17) whose
    header length is below 14.  On every other stream it returns a structure
    or an error. *)
Theorem next_panics_only_in_typed_blocks
  (P : Platform) (k : nat) (d : Decoder) :
  next P k d = Panic ->
  let ty := at_ (br d) 0 in
  let l := at_ (br d) 1 in
  ty = 0 \/ ty = 1 \/
  ((ty = 2 \/ ty = 3 \/ ty = 4) /\ l = 4) \/
  (ty = 17 /\ l < 14).
Proof.
  unfold next, parseHeader.
  pose proof (ReadFull_noPanic (br d) 4) as Hn1.
  destruct (ReadFull (br d) 4) as [[b r1]|e| |] eqn:E1; cbn [bind];
    try discriminate; [|contradiction].
  apply ReadFull_split in E1 as [E1 Hb].
  destruct b as [|ty [|l [|h0 [|h1 [|]]]]]; try discriminate.
  rewrite E1. cbn [at_ nth slice skipn firstn Nat.sub app Length].
  pose proof (parseFormatted_noPanic (l - headerLen) r1) as Hn2.
  destruct (parseFormatted _ r1) as [[fb r2]|e| |] eqn:E2; cbn [bind];
    try discriminate; [|contradiction].
  apply parseFormatted_split in E2 as [-> Hl].
  pose proof (parseStrings_noPanic r2) as Hn3.
  destruct (parseStrings r2) as [[ss r3]|e| |] eqn:E3; cbn [bind];
    try discriminate; [|contradiction].
  set (h := {| Type_ := ty; Length := l; Handle := Uint16 [h0; h1] |}).
  destruct (interpret P (junk P k) (Version_ d) h fb ss)
    as [[ss' si]|e| |] eqn:Ei; cbn [bind]; try discriminate.
  intros _.
  destruct (Z.eq_dec ty 0) as [?|N0]; [auto|].
  destruct (Z.eq_dec ty 1) as [?|N1]; [auto|].
  right. right.
  destruct (Z.eq_dec l 4) as [L4|L4].
  - destruct (Z.eq_dec ty 17) as [?|N17]; [right; lia|]. left.
    split; [|exact L4].
    destruct (Z.eq_dec ty 2); [auto|]. destruct (Z.eq_dec ty 3); [auto|].
    destruct (Z.eq_dec ty 4); [auto|]. exfalso.
    destruct (@interpret_Ok P (junk P k) (Version_ d) h fb ss)
      as [st Hst]; cbn [Type_ h]; try lia; congruence.
  - right. unfold headerLen in Hl.
    destruct (Z.eq_dec ty 17) as [E17|N17].
    + split; [exact E17|]. destruct (Z_lt_dec l 14) as [?|Hge]; [assumption|].
      exfalso.
      destruct (@interpret_Ok P (junk P k) (Version_ d) h fb ss)
        as [st Hst]; cbn [Type_ h]; try lia; congruence.
    + exfalso.
      destruct (@interpret_Ok P (junk P k) (Version_ d) h fb ss)
        as [st Hst]; cbn [Type_ h]; try lia; try congruence.
      intros _ ->. unfold len in Hl. simpl in Hl. lia.
Qed.

Lemma next_panics_only_in_typed_blocks_witness :
  let ty := at_ (br (NewDecoder noEndOfTable)) 0 in
  let l := at_ (br (NewDecoder noEndOfTable)) 1 in
  ty = 0 \/ ty = 1 \/
  ((ty = 2 \/ ty = 3 \/ ty = 4) /\ l = 4) \/
  (ty = 17 /\ l < 14).
Proof.
  apply (@next_panics_only_in_typed_blocks amd64 0 (NewDecoder noEndOfTable)).
  vm_compute. reflexivity.
Defined.

(** ** Little-endian integers *)

Section LittleEndianFacts.

Lemma byte_high_bits (x n : Z) : is_byte x -> 8 <= n -> Z.testbit x n = false.
Proof.
  intros [H0 H1] Hn. destruct (Z.eq_dec x 0) as [->|Hx].
  - apply Z.bits_0.
  - apply Z.bits_above_log2; [lia|].
    assert (Z.log2 x < 8) by (apply Z.log2_lt_pow2; lia). lia.
Qed.

Lemma land_byte_shiftl (x r : Z) : is_byte x -> Z.land x (Z.shiftl r 8) = 0.
Proof.
  intros Hx. apply Z.bits_inj'. intros n Hn.
  rewrite Z.land_spec, Z.bits_0.
  destruct (Z_lt_dec n 8) as [Hlt|Hge].
  - rewrite Z.shiftl_spec_low by lia. apply andb_false_r.
  - rewrite (byte_high_bits Hx) by lia. reflexivity.
Qed.

(** On a byte and a shifted value, bitwise or is addition. *)
Lemma lor_byte_shiftl (x r : Z) :
  is_byte x -> Z.lor x (Z.shiftl r 8) = x + 256 * r.
Proof.
  intros Hx. rewrite <- Z.lxor_lor by now apply land_byte_shiftl.
  rewrite <- Z.add_nocarry_lxor by now apply land_byte_shiftl.
  rewrite Z.shiftl_mul_pow2 by lia. change (2 ^ 8) with 256. lia.
Qed.

Lemma LittleEndian_cons (x : Z) (b : list Z) :
  is_byte x -> LittleEndian (x :: b) = x + 256 * LittleEndian b.
Proof. intros Hx. cbn [LittleEndian]. now apply lor_byte_shiftl. Qed.

Lemma LittleEndian_range (b : list Z) :
  bytes_ok b -> 0 <= LittleEndian b < 256 ^ len b.
Proof.
  unfold len. induction 1 as [|x b Hx Hb IH].
  - cbn. lia.
  - rewrite (LittleEndian_cons _ Hx).
    replace (Z.of_nat (length (x :: b))) with (Z.succ (Z.of_nat (length b)))
      by (simpl; lia).
    rewrite Z.pow_succ_r by lia. unfold is_byte in Hx. lia.
Qed.

Lemma bytes_ok_firstn (b : list Z) (n : nat) :
  bytes_ok b -> bytes_ok (firstn n b).
Proof.
  unfold bytes_ok. intros H. rewrite <- (firstn_skipn n b) in H.
  now apply Forall_app in H as [H _].
Qed.

Lemma Uint32_range (b : list Z) : bytes_ok b -> 0 <= Uint32 b < 2 ^ 32.
Proof.
  intros Hb. unfold Uint32.
  pose proof (LittleEndian_range (bytes_ok_firstn 4 Hb)) as H.
  assert (Hl : 0 <= len (firstn 4 b) <= 4).
  { unfold len. rewrite length_firstn. lia. }
  assert (256 ^ len (firstn 4 b) <= 256 ^ 4)
    by (apply Z.pow_le_mono_r; lia).
  change (2 ^ 32) with (256 ^ 4). lia.
Qed.

Lemma Uint16_range (b : list Z) : bytes_ok b -> 0 <= Uint16 b < 2 ^ 16.
Proof.
  intros Hb. unfold Uint16.
  pose proof (LittleEndian_range (bytes_ok_firstn 2 Hb)) as H.
  assert (Hl : 0 <= len (firstn 2 b) <= 2).
  { unfold len. rewrite length_firstn. lia. }
  assert (256 ^ len (firstn 2 b) <= 256 ^ 2)
    by (apply Z.pow_le_mono_r; lia).
  change (2 ^ 16) with (256 ^ 2). lia.
Qed.

End LittleEndianFacts.

(** ** The memory-device block *)

Section MemoryDevice.

Lemma highBitFacts_hold (b8 b9 : Z) :
  is_byte b8 -> is_byte b9 -> highBitFacts b8 b9 = true.
Proof. apply for_all_bytes2. vm_compute. reflexivity. Qed.

Lemma slice_two (fb : list Z) (i : nat) :
  (i + 2 <= length fb)%nat ->
  slice fb i (i + 2) = [at_ fb i; at_ fb (S i)].
Proof.
  intros H.
  assert (Hl : length (slice fb i (i + 2)) = 2%nat).
  { unfold slice. rewrite length_firstn, length_skipn. lia. }
  assert (E0 : at_ (slice fb i (i + 2)) 0 = at_ fb i).
  { rewrite at_slice by lia. f_equal. lia. }
  assert (E1 : at_ (slice fb i (i + 2)) 1 = at_ fb (S i)).
  { rewrite at_slice by lia. f_equal. lia. }
  destruct (slice fb i (i + 2)) as [|x [|y [|z l]]]; try discriminate.
  unfold at_ in E0, E1. cbn [nth] in E0, E1. now subst.
Qed.

Lemma index_at (fb : list Z) (i : nat) :
  (i < length fb)%nat -> index fb (Z.of_nat i) = Ok (at_ fb i).
Proof.
  intros H. unfold index, at_.
  replace (Z.of_nat i <? 0) with false by (symmetry; apply Z.ltb_ge; lia).
  rewrite Nat2Z.id. now rewrite (nth_error_nth' fb 0 H).
Qed.

Lemma PhyMemory_set_Memory v s : PhyMemory (set_Memory v s) = PhyMemory s.
Proof. now destruct s. Qed.

Lemma PhyMemory_set_PhyMemory v s : PhyMemory (set_PhyMemory v s) = v.
Proof. now destruct s. Qed.

(** The sizes in the inventory after the memory-device block. *)
Lemma interpMemoryDevice_sizes h fb ss si :
  Type_ h = 17 -> (10 <= length fb)%nat ->
  let b := memSizeInByte (readMemInfo fb) (len fb) (at_ fb 9) in
  exists si',
    interpMemoryDevice h fb (ss, si) = Ok (ss, si') /\
    map pmSizeInBytes (PhyMemory si') =
    map pmSizeInBytes (PhyMemory si) ++ (if b =? 0 then [] else [b]).
Proof.
  intros Ht Hl b. unfold interpMemoryDevice. rewrite Ht.
  cbn [Z.eqb Pos.eqb].
  destruct (lookupChecked_Ok ss (Manufacturer (readMemInfo fb))) as [m ->].
  cbn [bind].
  assert (H9 : index fb 9 = Ok (at_ fb 9)) by (apply (@index_at fb 9); lia).
  destruct ((_ >? 0) && (_ <=? uint8 (len ss))) eqn:G; cbn [bind].
  - apply andb_true_iff in G as [G1 G2].
    destruct (@index_in_range _ ss (SerialNumber (readMemInfo fb) - 1))
      as [s Hs].
    { pose proof (uint8_len_le ss). lia. }
    rewrite Hs. cbn [bind]. rewrite H9. cbn [bind]. fold b.
    destruct (b =? 0); cbn [negb]; eexists; (split; [reflexivity|]).
    + now rewrite PhyMemory_set_Memory, app_nil_r.
    + rewrite PhyMemory_set_PhyMemory, PhyMemory_set_Memory, map_app.
      reflexivity.
  - rewrite H9. cbn [bind]. fold b.
    destruct (b =? 0); cbn [negb]; eexists; (split; [reflexivity|]).
    + now rewrite app_nil_r.
    + rewrite PhyMemory_set_PhyMemory, map_app. reflexivity.
Qed.

(** The size computation in closed form. *)
Lemma memSizeInByte_reportedBytes (fb : list Z) :
  bytes_ok fb -> (17 <= length fb)%nat ->
  memSizeInByte (readMemInfo fb) (len fb) (at_ fb 9) =
  reportedBytes (Uint16 (slice fb 8 10)) (Uint32 (slice fb 24 28)) (len fb).
Proof.
  intros Hb Hl.
  assert (HS : Size (readMemInfo fb) = Uint16 (slice fb 8 10)).
  { cbn [readMemInfo Size]. unfold sizeAsPer2_1, len.
    now replace (Z.of_nat (length fb) >=? 17) with true
      by (symmetry; apply Z.geb_le; lia). }
  assert (HE : (len fb >=? sizeAsPer2_7) = true ->
               ExtendedSize (readMemInfo fb) = Uint32 (slice fb 24 28)).
  { intros H. cbn [readMemInfo ExtendedSize]. now rewrite H. }
  pose proof (Uint16_range (bytes_ok_slice 8 10 Hb)) as Hr16.
  pose proof (Uint32_range (bytes_ok_slice 24 28 Hb)) as Hr32.
  pose proof (highBitFacts_hold (at_is_byte 8 Hb) (at_is_byte 9 Hb)) as F.
  unfold highBitFacts in F. apply Bool.eqb_prop in F.
  rewrite <- (@slice_two fb 8) in F by lia.
  change (8 + 2)%nat with 10%nat in F.
  unfold memSizeInByte, reportedBytes. rewrite F, HS.
  unfold extendedSizeThreyshold, mbToByteConvRatio, kbToByteConvRatio, uint64
    in *.
  destruct ((Uint16 (slice fb 8 10) =? 32767) && (len fb >=? sizeAsPer2_7))
    eqn:G.
  - apply andb_true_iff in G as [G1 G2]. rewrite (HE G2).
    apply Z.eqb_eq in G1. rewrite G1. cbn [Z.ltb Z.compare Pos.compare].
    change (32767 <? 32768) with true. cbv iota.
    apply Z.mod_small. lia.
  - destruct (Uint16 (slice fb 8 10) <? 32768); apply Z.mod_small; lia.
Qed.

End MemoryDevice.

(** X12.  For a memory device (type 17) with a formatted block of at least
    17 bytes, interpretation succeeds and the physical-memory inventory
    holds one entry with the size in bytes [extended_size * 1048576] when
    the size field is 0x7FFF and the block has at least 30 bytes, [size *
    1048576] when the size field is below 0x8000, and [size * 1024] (the
    whole 16-bit value) otherwise; when that number is zero (an empty slot)
    the inventory stays empty while the structure is still returned. *)
Theorem memory_device_reported_size
  (P : Platform) (heap : nat -> Z) (ver : SMBIOSVersion) (h : Header)
  (fb : list Z) (ss : list GoString) :
  Type_ h = 17 ->
  bytes_ok fb ->
  (17 <= length fb)%nat ->
  let bytes := reportedBytes (Uint16 (slice fb 8 10))
                 (Uint32 (slice fb 24 28)) (len fb) in
  exists si,
    interpret P heap ver h fb ss = Ok (ss, si) /\
    map pmSizeInBytes (PhyMemory si) = (if bytes =? 0 then [] else [bytes]).
Proof.
  intros Ht Hb Hl bytes.
  destruct (@interpMemoryDevice_sizes h fb ss SystemInfo0 Ht)
    as (si & E & Hs); [lia|].
  rewrite (memSizeInByte_reportedBytes Hb Hl) in Hs. fold bytes in Hs.
  exists si. split; [|exact Hs].
  unfold interpret.
  rewrite interpSystem_skip by lia. cbn [bind].
  rewrite interpBaseboard_skip by lia. cbn [bind].
  rewrite interpEnclosure_skip by lia. cbn [bind].
  rewrite interpProcessor_skip by lia. cbn [bind].
  rewrite E. cbn [bind]. apply interpBIOS_skip. lia.
Qed.

Lemma memory_device_reported_size_witness :
  let fb := memoryFormatted 0 0 in
  let bytes := reportedBytes (Uint16 (slice fb 8 10))
                 (Uint32 (slice fb 24 28)) (len fb) in
  exists si,
    interpret amd64 (junk amd64 0) {| Major := 2; Minor := 8 |}
      {| Type_ := 17; Length := 27; Handle := 17 |} fb [str "DIMM0"] =
    Ok ([str "DIMM0"], si) /\
    map pmSizeInBytes (PhyMemory si) = (if bytes =? 0 then [] else [bytes]).
Proof.
  apply (@memory_device_reported_size amd64 (junk amd64 0)
           {| Major := 2; Minor := 8 |}
           {| Type_ := 17; Length := 27; Handle := 17 |}
           (memoryFormatted 0 0) [str "DIMM0"]).
  - reflexivity.
  - apply bytes_ok_dec. vm_compute. reflexivity.
  - vm_compute. lia.
Defined.

(** ** The baseboard and enclosure blocks *)

Section Baseboard.

Lemma lookupChecked_pick (ss : list GoString) (n : Z) :
  lookupChecked ss (uint8 (len ss)) n = Ok (pick ss n).
Proof.
  unfold lookupChecked, pick, uint8.
  destruct ((n >? 0) && (n <=? len ss mod 256)) eqn:G; [|reflexivity].
  apply andb_true_iff in G as [G1 G2].
  pose proof (uint8_len_le ss) as Hle. unfold uint8 in Hle.
  unfold index.
  replace (n - 1 <? 0) with false by (symmetry; apply Z.ltb_ge; lia).
  destruct (nth_error ss (Z.to_nat (n - 1))) eqn:E.
  - now rewrite (nth_error_nth _ _ _ E).
  - apply nth_error_None in E. unfold len in *. lia.
Qed.

Lemma BaseboardInfo_set_BaseboardInfo v s :
  BaseboardInfo_ (set_BaseboardInfo v s) = v.
Proof. now destruct s. Qed.

Lemma MotherboardAdapter_set_BaseboardInfo v s :
  MotherboardAdapter (set_BaseboardInfo v s) = MotherboardAdapter s.
Proof. now destruct s. Qed.

Lemma MotherboardAdapter_set_MotherboardAdapter v s :
  MotherboardAdapter (set_MotherboardAdapter v s) = v.
Proof. now destruct s. Qed.

Lemma index_pick (ss : list GoString) (n : Z) :
  (n >? 0) && (n <=? uint8 (len ss)) = true ->
  index ss (n - 1) = Ok (pick ss n).
Proof.
  intros G. pose proof (lookupChecked_pick ss n) as H.
  unfold lookupChecked in H. now rewrite G in H.
Qed.

Lemma pick_unguarded (ss : list GoString) (n : Z) :
  (n >? 0) && (n <=? uint8 (len ss)) = false -> pick ss n = [].
Proof. intros G. unfold pick. unfold uint8 in G. now rewrite G. Qed.

Lemma interpBaseboard_fields (heap : nat -> Z) h fb ss :
  Type_ h = 2 -> (4 <= length fb)%nat ->
  exists si,
    interpBaseboard heap h fb (ss, SystemInfo0) = Ok (ss, si) /\
    BaseboardInfo_ si =
      Some {| bbManufacturer := pick ss (at_ fb 0);
              bbProduct := pick ss (at_ fb 1);
              bbVersion := pick ss (at_ fb 2);
              bbSerialNumber := pick ss (at_ fb 3) |} /\
    MotherboardAdapter si = pick ss (at_ fb 3).
Proof.
  intros Ht Hl. unfold interpBaseboard. rewrite Ht. cbn [Z.eqb Pos.eqb].
  destruct fb as [|x fb']; [simpl in Hl; lia|]. cbn [addrOfFirst bind].
  set (fb := x :: fb') in *.
  unfold SMBIOSBaseboardInfo.Manufacturer, SMBIOSBaseboardInfo.Product,
    SMBIOSBaseboardInfo.Version, SMBIOSBaseboardInfo.SerialNumber.
  rewrite !peek8_in_range by lia. rewrite !lookupChecked_pick. cbn [bind].
  destruct ((at_ fb 3 >? 0) && (at_ fb 3 <=? uint8 (len ss))) eqn:G.
  - rewrite (index_pick _ _ G). cbn [bind].
    eexists. split; [reflexivity|].
    now rewrite BaseboardInfo_set_BaseboardInfo,
      MotherboardAdapter_set_BaseboardInfo,
      MotherboardAdapter_set_MotherboardAdapter.
  - cbn [bind]. rewrite (pick_unguarded _ _ G).
    eexists. split; [reflexivity|].
    now rewrite BaseboardInfo_set_BaseboardInfo,
      MotherboardAdapter_set_BaseboardInfo.
Qed.

End Baseboard.

(** X13.  For a baseboard structure (type 2) with at least four formatted
    bytes, interpretation succeeds, leaves the strings as framed, and fills
    manufacturer, product, version and serial number from the string indices
    at formatted offsets 0, 1, 2 and 3: index [n] gives the [n]-th string
    counted from 1 when 0 < n <= (number of strings mod 256), and the empty
    string otherwise; the serial number is also copied to
    [MotherboardAdapter]. *)
Theorem baseboard_fields_follow_checked_lookup
  (P : Platform) (heap : nat -> Z) (ver : SMBIOSVersion) (h : Header)
  (fb : list Z) (ss : list GoString) :
  Type_ h = 2 ->
  (4 <= length fb)%nat ->
  exists si,
    interpret P heap ver h fb ss = Ok (ss, si) /\
    BaseboardInfo_ si =
      Some {| bbManufacturer := pick ss (at_ fb 0);
              bbProduct := pick ss (at_ fb 1);
              bbVersion := pick ss (at_ fb 2);
              bbSerialNumber := pick ss (at_ fb 3) |} /\
    MotherboardAdapter si = pick ss (at_ fb 3).
Proof.
  intros Ht Hl.
  destruct (@interpBaseboard_fields heap h fb ss Ht Hl) as (si & E & Hbb).
  exists si. split; [|exact Hbb].
  unfold interpret.
  rewrite interpSystem_skip by lia. cbn [bind]. rewrite E. cbn [bind].
  rewrite interpEnclosure_skip by lia. cbn [bind].
  rewrite interpProcessor_skip by lia. cbn [bind].
  rewrite interpMemoryDevice_skip by lia. cbn [bind].
  apply interpBIOS_skip. lia.
Qed.

Lemma baseboard_fields_follow_checked_lookup_witness :
  exists si,
    interpret amd64 (junk amd64 0) {| Major := 2; Minor := 8 |}
      {| Type_ := 2; Length := 8; Handle := 2 |} [1; 2; 0; 9]
      [str "Acme"; str "Board"] = Ok ([str "Acme"; str "Board"], si) /\
    BaseboardInfo_ si =
      Some {| bbManufacturer := pick [str "Acme"; str "Board"] (at_ [1; 2; 0; 9] 0);
              bbProduct := pick [str "Acme"; str "Board"] (at_ [1; 2; 0; 9] 1);
              bbVersion := pick [str "Acme"; str "Board"] (at_ [1; 2; 0; 9] 2);
              bbSerialNumber :=
                pick [str "Acme"; str "Board"] (at_ [1; 2; 0; 9] 3) |} /\
    MotherboardAdapter si = pick [str "Acme"; str "Board"] (at_ [1; 2; 0; 9] 3).
Proof.
  apply (@baseboard_fields_follow_checked_lookup amd64 (junk amd64 0)
           {| Major := 2; Minor := 8 |}
           {| Type_ := 2; Length := 8; Handle := 2 |} [1; 2; 0; 9]
           [str "Acme"; str "Board"]).
  - reflexivity.
  - simpl. lia.
Defined.

(** X14.  For a system-enclosure structure (type 3) with a non-empty
    formatted block, interpretation succeeds, leaves the strings as framed
    and reports a chassis type between 0 and 127: the chassis-lock bit is
    never part of the reported type. *)
Theorem enclosure_type_is_masked
  (P : Platform) (heap : nat -> Z) (ver : SMBIOSVersion) (h : Header)
  (fb : list Z) (ss : list GoString) :
  Type_ h = 3 ->
  fb <> [] ->
  exists si e,
    interpret P heap ver h fb ss = Ok (ss, si) /\
    SystemEnclosure_ si = Some e /\
    0 <= seType e < 128.
Proof.
  intros Ht Hfb. destruct fb as [|x fb']; [congruence|].
  unfold interpret.
  rewrite interpSystem_skip by lia. cbn [bind].
  rewrite interpBaseboard_skip by lia. cbn [bind].
  unfold interpEnclosure at 1. rewrite Ht. cbn [Z.eqb Pos.eqb addrOfFirst bind].
  rewrite interpProcessor_skip by lia. cbn [bind].
  rewrite interpMemoryDevice_skip by lia. cbn [bind].
  rewrite interpBIOS_skip by lia.
  eexists. eexists. split; [reflexivity|]. split; [reflexivity|].
  cbn [seType]. change 127 with (Z.ones 7).
  rewrite Z.land_ones by lia. apply Z.mod_pos_bound. lia.
Qed.

Lemma enclosure_type_is_masked_witness :
  exists si e,
    interpret amd64 (junk amd64 0) {| Major := 2; Minor := 8 |}
      {| Type_ := 3; Length := 5; Handle := 3 |} [0x97] [] = Ok ([], si) /\
    SystemEnclosure_ si = Some e /\
    0 <= seType e < 128.
Proof.
  apply (@enclosure_type_is_masked amd64 (junk amd64 0)
           {| Major := 2; Minor := 8 |}
           {| Type_ := 3; Length := 5; Handle := 3 |} [0x97] []).
  - reflexivity.
  - discriminate.
Defined.

(** ** The UUID of a system structure *)

Section UUID.

(** The early-exit loop computes "all bytes are 0xFF" and "all bytes are
    0x00". *)
Lemma uuidScan_flags (u : list Z) :
  forall a b,
    uuidScan u a b = (a && allEqual 255 u, b && allEqual 0 u).
Proof.
  unfold allEqual. induction u as [|x u IH]; intros a b; cbn [uuidScan].
  - cbn. now rewrite !andb_true_r.
  - destruct a, b; cbn [orb]; try reflexivity; rewrite IH; cbn [forallb];
      rewrite (Z.eqb_sym x 0), (Z.eqb_sym x 255);
      destruct (0 =? x), (255 =? x); reflexivity.
Qed.

Lemma uuid_in_block (heap : nat -> Z) (fb : list Z) :
  (20 <= length fb)%nat ->
  map (fun i => peek8 fb heap (SMBIOSSystemInfo.UUID + i)) (seq 0 16) =
  uuidOf fb.
Proof.
  intros H. unfold uuidOf. apply map_ext_in. intros i Hi.
  apply in_seq in Hi. apply peek8_in_range.
  unfold SMBIOSSystemInfo.UUID. lia.
Qed.

Lemma VirtualMachineUUID_set_SystemManufacturerRef v s :
  VirtualMachineUUID (set_SystemManufacturerRef v s) = VirtualMachineUUID s.
Proof. now destruct s. Qed.

Lemma VirtualMachineUUID_set_SystemProductName v s :
  VirtualMachineUUID (set_SystemProductName v s) = VirtualMachineUUID s.
Proof. now destruct s. Qed.

Lemma VirtualMachineUUID_set_BiosSerial v s :
  VirtualMachineUUID (set_BiosSerial v s) = VirtualMachineUUID s.
Proof. now destruct s. Qed.

Lemma VirtualMachineUUID_set_VirtualMachineUUID v s :
  VirtualMachineUUID (set_VirtualMachineUUID v s) = v.
Proof. now destruct s. Qed.

Lemma interpSystem_uuid (heap : nat -> Z) h fb ss ss' si :
  Type_ h = 1 -> Length h > 8 -> (20 <= length fb)%nat ->
  interpSystem heap h fb (ss, SystemInfo0) = Ok (ss', si) ->
  if allEqual 0 (uuidOf fb) || allEqual 255 (uuidOf fb)
  then VirtualMachineUUID si = [] /\ ss' = ss
  else VirtualMachineUUID si = renderUUID (uuidOf fb) /\
       ss' = ss ++ [renderUUID (uuidOf fb)].
Proof.
  intros Ht Hlen Hl. unfold interpSystem. rewrite Ht. cbn [Z.eqb Pos.eqb].
  intros H. apply bind_Ok in H as (a & _ & H).
  rewrite (@uuid_in_block heap fb Hl) in H.
  replace (Length h >? 8) with true in H by (symmetry; apply Z.gtb_lt; lia).
  rewrite uuidScan_flags in H. cbn [andb] in H.
  destruct (allEqual 0 (uuidOf fb)), (allEqual 255 (uuidOf fb));
    cbn [negb andb orb] in H |- *;
    apply bind_Ok in H as (s1 & E1 & H);
    apply bind_Ok in H as (s2 & E2 & H);
    apply bind_Ok in H as (s3 & E3 & H);
    injection H as <- <-;
    repeat match goal with
           | E : (if ?c then _ else _) = Ok _ |- _ =>
               destruct c;
               [apply bind_Ok in E as (? & _ & E)|]; injection E as <-
           end;
    now rewrite ?VirtualMachineUUID_set_BiosSerial,
      ?VirtualMachineUUID_set_SystemProductName,
      ?VirtualMachineUUID_set_SystemManufacturerRef,
      ?VirtualMachineUUID_set_VirtualMachineUUID.
Qed.

End UUID.

(** X15.  For a system structure (type 1) with header length above 8 whose
    formatted block holds the sixteen UUID bytes (offsets 4 to 19), whenever
    interpretation succeeds: if the UUID bytes are all 0x00 or all 0xFF, no
    UUID is reported and the strings are the framed ones; otherwise the
    reported UUID is the rendering of these bytes and the same text is
    appended to the strings. *)
Theorem system_uuid_reported_unless_blank
  (P : Platform) (heap : nat -> Z) (ver : SMBIOSVersion) (h : Header)
  (fb : list Z) (ss ss' : list GoString) (si : SystemInfo) :
  Type_ h = 1 ->
  Length h > 8 ->
  (20 <= length fb)%nat ->
  interpret P heap ver h fb ss = Ok (ss', si) ->
  if allEqual 0 (uuidOf fb) || allEqual 255 (uuidOf fb)
  then VirtualMachineUUID si = [] /\ ss' = ss
  else VirtualMachineUUID si = renderUUID (uuidOf fb) /\
       ss' = ss ++ [renderUUID (uuidOf fb)].
Proof.
  intros Ht Hlen Hl H. unfold interpret in H.
  apply bind_Ok in H as ([s1 i1] & E & H).
  rewrite interpBaseboard_skip in H by lia. cbn [bind] in H.
  rewrite interpEnclosure_skip in H by lia. cbn [bind] in H.
  rewrite interpProcessor_skip in H by lia. cbn [bind] in H.
  rewrite interpMemoryDevice_skip in H by lia. cbn [bind] in H.
  rewrite interpBIOS_skip in H by lia. injection H as <- <-.
  exact (@interpSystem_uuid heap h fb ss s1 i1 Ht Hlen Hl E).
Qed.

Lemma system_uuid_reported_unless_blank_witness :
  let fb := [1; 2; 0; 3] ++ systemUUID ++ [6; 0; 0] in
  if allEqual 0 (uuidOf fb) || allEqual 255 (uuidOf fb)
  then VirtualMachineUUID
         (set_BiosSerial (str "S123")
            (set_SystemProductName (str "Acme")
               (set_SystemManufacturerRef (str "Widget")
                  (set_VirtualMachineUUID (renderUUID systemUUID)
                     SystemInfo0)))) = [] /\
       systemStrings ++ [renderUUID systemUUID] = systemStrings
  else VirtualMachineUUID
         (set_BiosSerial (str "S123")
            (set_SystemProductName (str "Acme")
               (set_SystemManufacturerRef (str "Widget")
                  (set_VirtualMachineUUID (renderUUID systemUUID)
                     SystemInfo0)))) = renderUUID (uuidOf fb) /\
       systemStrings ++ [renderUUID systemUUID] =
       systemStrings ++ [renderUUID (uuidOf fb)].
Proof.
  apply (@system_uuid_reported_unless_blank amd64 (junk amd64 0)
           {| Major := 2; Minor := 8 |}
           {| Type_ := 1; Length := 27; Handle := 1 |}
           ([1; 2; 0; 3] ++ systemUUID ++ [6; 0; 0]) systemStrings).
  - reflexivity.
  - cbn. lia.
  - vm_compute. lia.
  - vm_compute. reflexivity.
Defined.

(** ** The bytes behind a string-set *)

Section Reencoding.

Lemma ReadBytes_noNul :
  forall r raw r',
    ReadBytes 0 r = Ok (raw, r') ->
    exists pre, raw = pre ++ [0] /\ r = raw ++ r' /\ noNul pre.
Proof.
  induction r as [|x r IH]; intros raw r'; simpl; [discriminate|].
  destruct (Z.eqb_spec x 0) as [->|Hne].
  - intros H. injection H as <- <-. exists []. repeat split. constructor.
  - destruct (ReadBytes 0 r) as [[raw0 r0]|e| |] eqn:E; simpl;
      try discriminate.
    intros H. injection H as <- <-.
    destruct (IH _ _ eq_refl) as (pre & -> & -> & Hpre).
    exists (x :: pre). repeat split. now constructor.
Qed.

Lemma terminated_app (a b : list GoString) :
  terminated (a ++ b) = terminated a ++ terminated b.
Proof. unfold terminated. now rewrite map_app, concat_app. Qed.

Lemma parseStringsLoop_reencodes :
  forall fuel r acc out r',
    parseStringsLoop fuel r acc = Ok (out, r') ->
    exists new,
      out = acc ++ new /\ new <> [] /\
      r = terminated new ++ [0] ++ r' /\ Forall noNul new.
Proof.
  induction fuel as [|fuel IH]; intros r acc out r'; simpl; [discriminate|].
  unfold parseString.
  destruct (ReadBytes 0 r) as [[raw r1]|e| |] eqn:E; simpl;
    try discriminate.
  apply ReadBytes_noNul in E as (pre & -> & -> & Hpre).
  rewrite (TrimRight_terminated Hpre).
  destruct r1 as [|p r2]; [discriminate|].
  destruct (Z.eqb_spec p 0) as [->|Hp]; simpl.
  - intros H. injection H as <- <-. exists [pre].
    split; [reflexivity|]. split; [discriminate|].
    split; [|now constructor].
    unfold terminated. simpl. now rewrite app_nil_r, <- !app_assoc.
  - intros H. apply IH in H as (new & -> & _ & -> & Hnew).
    exists (pre :: new). split; [now rewrite <- app_assoc|].
    split; [discriminate|]. split; [|now constructor].
    rewrite terminated_cons. now rewrite <- !app_assoc.
Qed.

Lemma parseStrings_reencodes (r : list Z) ss r' :
  parseStrings r = Ok (ss, r') ->
  r = encodeStrings ss ++ r' /\ Forall noNul ss.
Proof.
  unfold parseStrings. destruct r as [|t0 [|t1 r0]]; try discriminate.
  assert (Hloop : parseStringsLoop (length (t0 :: t1 :: r0))
                    (t0 :: t1 :: r0) [] = Ok (ss, r') ->
                  t0 :: t1 :: r0 = encodeStrings ss ++ r' /\
                  Forall noNul ss).
  { intros H. apply parseStringsLoop_reencodes in H
      as (new & -> & Hne & E & Hnew).
    cbn [app]. split; [|exact Hnew]. rewrite E.
    destruct new; [congruence|]. unfold encodeStrings.
    now rewrite <- app_assoc. }
  destruct (Z.eqb_spec t0 0) as [->|H0]; cbn [andb]; [|exact Hloop].
  destruct (Z.eqb_spec t1 0) as [->|H1]; [|exact Hloop].
  intros H. injection H as <- <-. split; [reflexivity|constructor].
Qed.

End Reencoding.

(** X16.  Whenever [parseStrings] succeeds, the bytes it consumed are the
    encoding of the strings it returns: each string followed by one zero
    byte, then one more zero byte (two zero bytes alone for no strings); and
    no returned string contains a zero byte. *)
Theorem string_set_bytes_are_encoding_of_result
  (r : list Z) (ss : list GoString) (r' : list Z) :
  parseStrings r = Ok (ss, r') ->
  r = encodeStrings ss ++ r' /\ Forall noNul ss.
Proof. apply parseStrings_reencodes. Qed.

Lemma string_set_bytes_are_encoding_of_result_witness :
  [0; 65; 0; 66; 67; 0; 0; 9] =
    encodeStrings [[]; [65]; [66; 67]] ++ [9] /\
  Forall noNul [[]; [65]; [66; 67]].
Proof.
  apply (@string_set_bytes_are_encoding_of_result
           [0; 65; 0; 66; 67; 0; 0; 9] [[]; [65]; [66; 67]] [9]).
  reflexivity.
Defined.

Section Reframing.

Variable P : Platform.

Lemma next_reencodes (k : nat) (d : Decoder) (s : Structure) (d' : Decoder) :
  next P k d = Ok (s, d') ->
  exists x,
    br d = encodeStructure x ++ br d' /\ encodes s x /\
    Version_ d' = Version_ d.
Proof.
  unfold next, parseHeader.
  destruct (ReadFull (br d) 4) as [[b r1]|e| |] eqn:E1; cbn [bind];
    try discriminate.
  apply ReadFull_split in E1 as [E1 Hb].
  destruct b as [|ty [|l [|h0 [|h1 [|]]]]]; try discriminate.
  cbn [at_ nth slice skipn firstn Nat.sub].
  destruct (parseFormatted _ r1) as [[fb r2]|e| |] eqn:E2; cbn [bind];
    try discriminate.
  apply parseFormatted_split in E2 as [-> Hl].
  destruct (parseStrings r2) as [[ss r3]|e| |] eqn:E3; cbn [bind];
    try discriminate.
  apply parseStrings_reencodes in E3 as [-> Hss].
  destruct (interpret _ _ _ _ _ _) as [[ss' si]|e| |] eqn:E4; cbn [bind];
    try discriminate.
  intros H. injection H as <- <-.
  cbn [Length] in Hl.
  assert (Hlen : l = headerLen + len fb) by (unfold headerLen in *; lia).
  exists {| rawType := ty; rawH0 := h0; rawH1 := h1; rawFormatted := fb;
            rawStrings := ss |}.
  split; [|split; [|reflexivity]].
  - rewrite E1. unfold encodeStructure.
    cbn [rawType rawH0 rawH1 rawFormatted rawStrings br].
    rewrite <- Hlen. cbn [app]. now rewrite <- !app_assoc.
  - unfold encodes.
    cbn [rawType rawH0 rawH1 rawFormatted rawStrings Header_ Formatted
         Length Type_ Handle Strings].
    repeat split; try assumption.
    apply interpret_strings in E4 as [->|[Ht ->]]; [now left|].
    right. split; [exact Ht|]. eexists. reflexivity.
Qed.

Lemma length_encodeStrings (ss : list GoString) :
  (2 <= length (encodeStrings ss))%nat.
Proof.
  destruct ss as [|s ss]; [simpl; lia|]. unfold encodeStrings.
  rewrite length_app, terminated_cons, length_app. simpl. lia.
Qed.

Lemma length_encodeStructure (s : Structure) (x : Raw) :
  encodes s x -> Length (Header_ s) + 2 <= len (encodeStructure x).
Proof.
  intros (_ & _ & Hl & Hf & _). unfold encodeStructure, len in *.
  rewrite !length_app. pose proof (length_encodeStrings (rawStrings x)).
  rewrite Hl, <- Hf. unfold headerLen. cbn [length]. lia.
Qed.

(** The structures framed from a stream are encoded, one after the other,
    at its start. *)
Lemma framed_reencodes :
  forall k d ss,
    framed P k d ss ->
    exists xs rest,
      br d = encodeAll xs ++ rest /\ Forall2 encodes ss xs.
Proof.
  induction 1 as [k d s d' E Ht|k d s d' ss E Ht Hf IH].
  - apply next_reencodes in E as (x & E & Hx & _).
    exists [x], (br d'). split; [|constructor; [exact Hx|constructor]].
    unfold encodeAll. cbn [map concat]. now rewrite app_nil_r.
  - apply next_reencodes in E as (x & E & Hx & _).
    destruct IH as (xs & rest & E' & Hxs).
    exists (x :: xs), rest. split; [|now constructor].
    unfold encodeAll in *. cbn [map concat].
    now rewrite E, E', <- app_assoc.
Qed.

Lemma encodeAll_bound :
  forall ss xs,
    Forall2 encodes ss xs ->
    fold_right (fun s n => Length (Header_ s) + 2 + n) 0 ss <=
    len (encodeAll xs).
Proof.
  induction 1 as [|s x ss xs Hx Hxs IH]; [cbn; lia|].
  unfold encodeAll in *. cbn [map concat fold_right].
  pose proof (length_encodeStructure Hx) as Hl.
  unfold len in *. rewrite length_app. lia.
Qed.

(** A successful read depends only on the bytes it consumed. *)
Lemma ReadFull_consumed (r : list Z) (n : nat) b r' :
  ReadFull r n = Ok (b, r') ->
  forall r2, ReadFull (b ++ r2) n = Ok (b, r2).
Proof.
  intros H r2. apply ReadFull_split in H as [_ <-]. apply ReadFull_exact.
Qed.

Lemma parseFormatted_consumed (l : Z) (r : list Z) fb r' :
  parseFormatted l r = Ok (fb, r') ->
  forall r2, parseFormatted l (fb ++ r2) = Ok (fb, r2).
Proof.
  unfold parseFormatted. destruct (l <? 0); [discriminate|].
  destruct (l =? 0).
  - intros H r2. now injection H as <- _.
  - apply ReadFull_consumed.
Qed.

Lemma parseStringsLoop_consumed :
  forall fuel r acc out r',
    parseStringsLoop fuel r acc = Ok (out, r') ->
    exists c,
      (2 <= length c)%nat /\ r = c ++ r' /\
      forall r2 fuel', (length c <= fuel')%nat ->
        parseStringsLoop fuel' (c ++ r2) acc = Ok (out, r2).
Proof.
  induction fuel as [|fuel IH]; intros r acc out r'; simpl; [discriminate|].
  unfold parseString.
  destruct (ReadBytes 0 r) as [[raw r1]|e| |] eqn:E; simpl;
    try discriminate.
  apply ReadBytes_noNul in E as (pre & -> & -> & Hpre).
  rewrite (TrimRight_terminated Hpre).
  destruct r1 as [|p r2]; [discriminate|].
  destruct (Z.eqb_spec p 0) as [->|Hp]; simpl.
  - intros H. injection H as <- <-.
    exists ((pre ++ [0]) ++ [0]).
    split; [rewrite !length_app; simpl; lia|].
    split; [now rewrite <- !app_assoc|].
    intros r3 fuel' Hf. destruct fuel' as [|fuel'].
    { rewrite !length_app in Hf. simpl in Hf. lia. }
    rewrite <- !app_assoc. cbn [app parseStringsLoop].
    rewrite (parseString_last r3 Hpre). reflexivity.
  - intros H. apply IH in H as (c1 & Hne & Ec & Hc1).
    destruct c1 as [|q c1]; [simpl in Hne; lia|]. injection Ec as <- Ec.
    exists ((pre ++ [0]) ++ p :: c1).
    split; [rewrite !length_app; simpl; lia|].
    split; [now rewrite Ec, <- !app_assoc|].
    intros r3 fuel' Hf. destruct fuel' as [|fuel'].
    { rewrite !length_app in Hf. simpl in Hf. lia. }
    rewrite <- !app_assoc. cbn [app parseStringsLoop].
    rewrite (@parseString_more pre (c1 ++ r3) p Hpre Hp). cbn [bind].
    apply (Hc1 r3). rewrite !length_app in Hf. simpl in Hf. simpl. lia.
Qed.

Lemma parseStrings_consumed (r : list Z) ss r' :
  parseStrings r = Ok (ss, r') ->
  exists c,
    r = c ++ r' /\ forall r2, parseStrings (c ++ r2) = Ok (ss, r2).
Proof.
  unfold parseStrings. destruct r as [|t0 [|t1 r0]]; try discriminate.
  destruct ((t0 =? 0) && (t1 =? 0)) eqn:G.
  - intros H. injection H as <- <-. exists [t0; t1].
    split; [reflexivity|]. intros r2. cbn [app]. now rewrite G.
  - intros H. apply parseStringsLoop_consumed in H as (c & Hne & Ec & Hc).
    exists c. split; [exact Ec|]. intros r2.
    destruct c as [|c0 [|c1 c]]; [simpl in Hne; lia|simpl in Hne; lia|].
    injection Ec as <- <- _. cbn [app]. rewrite G.
    apply (Hc r2). simpl. rewrite length_app. lia.
Qed.

Lemma next_consumed (k : nat) (d : Decoder) (s : Structure) (d' : Decoder) :
  next P k d = Ok (s, d') ->
  exists c,
    br d = c ++ br d' /\
    forall r2,
      next P k {| br := c ++ r2; Version_ := Version_ d |} =
      Ok (s, {| br := r2; Version_ := Version_ d |}).
Proof.
  unfold next, parseHeader. cbn [br Version_].
  destruct (ReadFull (br d) 4) as [[b r1]|e| |] eqn:E1; cbn [bind];
    try discriminate.
  pose proof (ReadFull_consumed _ _ E1) as C1.
  apply ReadFull_split in E1 as [E1 _].
  destruct (parseFormatted _ r1) as [[fb r2]|e| |] eqn:E2; cbn [bind];
    try discriminate.
  pose proof (parseFormatted_consumed _ _ E2) as C2.
  apply parseFormatted_split in E2 as [-> _].
  destruct (parseStrings r2) as [[ss r3]|e| |] eqn:E3; cbn [bind];
    try discriminate.
  apply parseStrings_consumed in E3 as (c & -> & C3).
  destruct (interpret _ _ _ _ _ _) as [[ss' si]|e| |] eqn:E4; cbn [bind];
    try discriminate.
  intros H. injection H as <- <-. cbn [br].
  exists (b ++ fb ++ c). split; [now rewrite E1, <- !app_assoc|].
  intros r0. rewrite <- !app_assoc, C1. cbn [bind].
  rewrite C2. cbn [bind]. rewrite C3. cbn [bind]. rewrite E4. reflexivity.
Qed.

(** The structures framed from a stream are encoded at its start, and they
    are framed alike from these encodings followed by any other bytes. *)
Lemma framed_consumed :
  forall k d ss,
    framed P k d ss ->
    exists xs rest,
      br d = encodeAll xs ++ rest /\ Forall2 encodes ss xs /\
      forall rest',
        framed P k {| br := encodeAll xs ++ rest'; Version_ := Version_ d |}
          ss.
Proof.
  induction 1 as [k d s d' E Ht|k d s d' ss E Ht Hf IH].
  - pose proof (next_consumed _ _ E) as (c & Ec & Hc).
    apply next_reencodes in E as (x & E & Hx & _).
    assert (c = encodeStructure x) as ->.
    { rewrite Ec in E. now apply app_inv_tail in E. }
    exists [x], (br d'). split; [|split].
    + unfold encodeAll. cbn [map concat]. now rewrite app_nil_r.
    + constructor; [exact Hx|constructor].
    + intros rest'. eapply framed_last; [|exact Ht].
      unfold encodeAll. cbn [map concat]. rewrite app_nil_r. apply Hc.
  - pose proof (next_consumed _ _ E) as (c & Ec & Hc).
    apply next_reencodes in E as (x & E & Hx & Hv).
    assert (c = encodeStructure x) as ->.
    { rewrite Ec in E. now apply app_inv_tail in E. }
    destruct IH as (xs & rest & E' & Hxs & Hrest).
    exists (x :: xs), rest. split; [|split].
    + unfold encodeAll in *. cbn [map concat].
      now rewrite E, E', <- app_assoc.
    + now constructor.
    + intros rest'. eapply framed_more; [|exact Ht|].
      * unfold encodeAll. cbn [map concat]. rewrite <- app_assoc.
        apply Hc.
      * rewrite <- Hv. apply Hrest.
Qed.

End Reframing.

(** X17.  Whenever [next] returns a structure, the bytes it consumed are the
    encoding of that structure: type, length (four plus the size of the
    formatted block), handle (little-endian), the formatted block, and the
    encoding of the string-set read, in which no string holds a zero byte.
    The strings returned are the ones read, with at most one string added at
    the end and only for a structure of type 1; the version of the decoder
    is kept. *)
Theorem next_input_is_encoding_of_result
  (P : Platform) (k : nat) (d : Decoder) (s : Structure) (d' : Decoder) :
  next P k d = Ok (s, d') ->
  exists x,
    br d = encodeStructure x ++ br d' /\ encodes s x /\
    Version_ d' = Version_ d.
Proof. apply next_reencodes. Qed.

Lemma next_input_is_encoding_of_result_witness :
  exists x,
    br {| br := encodeStructure oemRaw ++ [127];
          Version_ := {| Major := 2; Minor := 8 |} |} =
      encodeStructure x ++
      br {| br := [127]; Version_ := {| Major := 2; Minor := 8 |} |} /\
    encodes (rawStructure oemRaw) x /\
    Version_ {| br := [127]; Version_ := {| Major := 2; Minor := 8 |} |} =
    Version_ {| br := encodeStructure oemRaw ++ [127];
                Version_ := {| Major := 2; Minor := 8 |} |}.
Proof.
  apply (@next_input_is_encoding_of_result amd64 0
           {| br := encodeStructure oemRaw ++ [127];
              Version_ := {| Major := 2; Minor := 8 |} |}).
  vm_compute. reflexivity.
Defined.

(** X27.  Whenever Decode succeeds, the stream begins with the encodings of
    the structures it returns, one after the other in the order returned,
    and the result depends on nothing else: Decode returns the same
    structures on these encodings followed by any other bytes, or by
    none. *)
Theorem decode_input_is_encoding_of_result
  (P : Platform) (d : Decoder) (ss : list Structure) :
  Decode P d = Ok ss ->
  exists xs rest,
    br d = encodeAll xs ++ rest /\ Forall2 encodes ss xs /\
    forall rest',
      Decode P {| br := encodeAll xs ++ rest'; Version_ := Version_ d |} =
      Ok ss.
Proof.
  intros H. destruct (Decode_outcomes P d) as (_ & Hiff & _).
  apply Hiff in H. apply framed_consumed in H as (xs & rest & E & Hxs & Hr).
  exists xs, rest. split; [exact E|]. split; [exact Hxs|].
  intros rest'.
  destruct (Decode_outcomes P
              {| br := encodeAll xs ++ rest'; Version_ := Version_ d |})
    as (_ & Hiff' & _).
  apply Hiff'. apply Hr.
Qed.

Lemma decode_input_is_encoding_of_result_witness :
  exists xs rest,
    br {| br := encodeAll [oemRaw] ++ encodeStructure endRaw ++ [1; 2; 3];
          Version_ := {| Major := 2; Minor := 8 |} |} =
      encodeAll xs ++ rest /\
    Forall2 encodes (map rawStructure ([oemRaw] ++ [endRaw])) xs /\
    forall rest',
      Decode amd64
        {| br := encodeAll xs ++ rest';
           Version_ :=
             Version_
               {| br := encodeAll [oemRaw] ++ encodeStructure endRaw ++
                        [1; 2; 3];
                  Version_ := {| Major := 2; Minor := 8 |} |} |} =
      Ok (map rawStructure ([oemRaw] ++ [endRaw])).
Proof.
  apply (@decode_input_is_encoding_of_result amd64
           {| br := encodeAll [oemRaw] ++ encodeStructure endRaw ++ [1; 2; 3];
              Version_ := {| Major := 2; Minor := 8 |} |}).
  vm_compute. reflexivity.
Defined.

(** X28.  Decode never returns more than the stream holds: the header
    lengths of the structures returned, plus the two bytes that close each
    string-set, add up to at most the length of the stream.  In particular a
    stream of [n] bytes yields at most [n / 6] structures. *)
Theorem decode_result_is_bounded_by_stream
  (P : Platform) (d : Decoder) (ss : list Structure) :
  Decode P d = Ok ss ->
  fold_right (fun s n => Length (Header_ s) + 2 + n) 0 ss <= len (br d) /\
  6 * len ss <= len (br d).
Proof.
  intros H. destruct (Decode_outcomes P d) as (_ & Hiff & _).
  apply Hiff in H. apply framed_reencodes in H as (xs & rest & E & Hxs).
  pose proof (encodeAll_bound Hxs) as Hb.
  assert (Hrest : len (encodeAll xs) <= len (br d)).
  { rewrite E. unfold len. rewrite length_app. lia. }
  split; [lia|].
  assert (Hsix : 6 * len ss <=
                 fold_right (fun s n => Length (Header_ s) + 2 + n) 0 ss).
  { clear -Hxs. induction Hxs as [|s x ss xs Hx Hxs IH]; [cbn; lia|].
    cbn [fold_right]. destruct Hx as (_ & _ & Hl & _).
    unfold len in *. cbn [length]. unfold headerLen in Hl. lia. }
  lia.
Qed.

Lemma decode_result_is_bounded_by_stream_witness :
  fold_right (fun s n => Length (Header_ s) + 2 + n) 0
    (map rawStructure ([oemRaw] ++ [endRaw])) <=
    len (br {| br := encodeAll [oemRaw] ++ encodeStructure endRaw;
               Version_ := {| Major := 2; Minor := 8 |} |}) /\
  6 * len (map rawStructure ([oemRaw] ++ [endRaw])) <=
    len (br {| br := encodeAll [oemRaw] ++ encodeStructure endRaw;
               Version_ := {| Major := 2; Minor := 8 |} |}).
Proof.
  apply (@decode_result_is_bounded_by_stream amd64
           {| br := encodeAll [oemRaw] ++ encodeStructure endRaw;
              Version_ := {| Major := 2; Minor := 8 |} |}).
  vm_compute. reflexivity.
Defined.

(** ** Entry points in memory *)

Lemma findEntryPoint_start (magicPrefix mem : list Z) (start end_ a : Z) :
  findEntryPoint magicPrefix mem start end_ = Ok a -> 0 <= start.
Proof.
  unfold findEntryPoint, Seek.
  destruct (Z.ltb_spec start 0) as [Hn|Hn]; [discriminate|].
  intros _. assumption.
Qed.

Lemma Seek_Ok (m : list Z) (o : Z) (rs : list Z) :
  Seek m o = Ok rs -> 0 <= o /\ rs = skipn (Z.to_nat o) m.
Proof.
  unfold Seek. destruct (Z.ltb_spec o 0) as [Hn|Hn]; [discriminate|].
  intros E. injection E as <-. split; [assumption|reflexivity].
Qed.

Lemma Seek_nonneg (m : list Z) (o : Z) :
  0 <= o -> Seek m o = Ok (skipn (Z.to_nat o) m).
Proof.
  intros H. unfold Seek.
  now replace (o <? 0) with false by (symmetry; apply Z.ltb_ge; lia).
Qed.

Section MemoryStream.

Variable magicPrefix : list Z.
Variable mem : list Z.
Hypothesis prefix_fits : (length magicPrefix <= 16)%nat.

Lemma findEntryPoint_Ok_iff (start end_ a : Z) :
  0 <= start ->
  findEntryPoint magicPrefix mem start end_ = Ok a <->
  firstAlignedAnchor magicPrefix mem start end_ a /\ readableAt mem a.
Proof.
  intros Hs.
  assert (Hres : findEntryPoint magicPrefix mem start end_ =
                 findLoop (Z.to_nat (end_ - start)) magicPrefix
                   (skipn (Z.to_nat start) mem) start end_).
  { unfold findEntryPoint, Seek.
    replace (start <? 0) with false by (symmetry; apply Z.ltb_ge; lia).
    reflexivity. }
  destruct (@findLoop_spec magicPrefix mem prefix_fits end_
              (Z.to_nat (end_ - start)) start Hs (le_n _))
    as (Hok & Hno & Herr & Hpanic & Hfuel).
  rewrite <- Hres in Hok, Hno, Herr, Hpanic, Hfuel.
  destruct (findEntryPoint magicPrefix mem start end_) as [a'|e| |];
    try congruence.
  - split; [intros E; injection E as <-; now apply Hok|].
    intros [(Hal & Han & Hfirst) Hra].
    destruct (Hok a' eq_refl) as [(Hal' & Han' & Hfirst') _].
    f_equal. destruct (Z.lt_trichotomy a' a) as [Hlt|[Heq|Hgt]].
    + exfalso. exact (Hfirst a' Hal' Hlt Han').
    + exact Heq.
    + exfalso. exact (Hfirst' a Hal Hgt Han).
  - split; [discriminate|].
    intros [(Hal & Han & Hfirst) Hra]. exfalso.
    destruct (error_eq_NoEntryPoint_dec e) as [->|Hne].
    + exact (proj2 (Hno eq_refl a Hal) Han).
    + destruct (Herr e eq_refl Hne) as [_ (a'' & Hal'' & Hnr & Hb)].
      destruct (Z_lt_dec a a'') as [Hlt|Hge].
      * exact (proj2 (Hb a Hal Hlt) Han).
      * apply Hnr. unfold readableAt in *. lia.
Qed.

End MemoryStream.

Section EntryPointLength.

Lemma len_ReadAllLimit (r : list Z) :
  len (ReadAllLimit r 64) = Z.min 64 (len r).
Proof. unfold ReadAllLimit, len. rewrite length_firstn. lia. Qed.

Lemma parse32_length (b : list Z) ep :
  parse32 b = Ok ep -> Length32 ep = len b /\ 31 <= len b.
Proof.
  unfold parse32. destruct (Z.ltb_spec (len b) 31) as [Hlt|Hge]; [discriminate|].
  destruct (Z.eqb_spec (len b) (at_ b 5)) as [E|E]; [|discriminate].
  cbn [negb]. destruct (bytesEqual _ _); [|discriminate]. cbn [negb].
  destruct (checksum _ _ _); cbn [bind]; try discriminate.
  intros H. injection H as <-. cbn [Length32]. split; [congruence|lia].
Qed.

Lemma parse64_length (b : list Z) ep :
  parse64 b = Ok ep -> Length64 ep = len b /\ 24 <= len b.
Proof.
  unfold parse64. destruct (Z.ltb_spec (len b) 24) as [Hlt|Hge]; [discriminate|].
  destruct (Z.eqb_spec (len b) (at_ b 6)) as [E|E]; [|discriminate].
  cbn [negb].
  destruct (checksum _ _ _); cbn [bind]; try discriminate.
  intros H. injection H as <-. cbn [Length64]. split; [congruence|lia].
Qed.

Lemma ParseEntryPoint_length (r : list Z) ep :
  ParseEntryPoint r = Ok ep ->
  entryLength ep = Z.min 64 (len r) /\
  match ep with
  | EP32 _ => HasPrefix r magic32 = true /\ 31 <= len r
  | EP64 _ => HasPrefix r magic64 = true /\ 24 <= len r
  end.
Proof.
  unfold ParseEntryPoint. rewrite <- len_ReadAllLimit.
  destruct (_ <? 4); [discriminate|].
  assert (Hpre : forall p, (length p <= 64)%nat ->
                 HasPrefix (ReadAllLimit r 64) p = true ->
                 HasPrefix r p = true).
  { intros p Hp H. apply HasPrefix_true_iff in H. apply HasPrefix_true_iff.
    unfold ReadAllLimit in H. rewrite firstn_firstn in H.
    now replace (Nat.min (length p) 64) with (length p) in H by lia. }
  pose proof (len_ReadAllLimit r) as Hlen.
  destruct (HasPrefix _ magic32) eqn:H32.
  - destruct (parse32 _) as [h| | |] eqn:E; cbn [bind]; try discriminate.
    intros H. injection H as <-. apply parse32_length in E as [E1 E2].
    cbn [entryLength]. split; [exact E1|].
    split; [apply Hpre; [vm_compute; lia|exact H32] | lia].
  - destruct (HasPrefix _ magic64) eqn:H64; [|discriminate].
    destruct (parse64 _) as [h| | |] eqn:E; cbn [bind]; try discriminate.
    intros H. injection H as <-. apply parse64_length in E as [E1 E2].
    cbn [entryLength]. split; [exact E1|].
    split; [apply Hpre; [vm_compute; lia|exact H64] | lia].
Qed.

Lemma ParseEntryPoint_long (r : list Z) :
  64 <= len r -> at_ r 5 <> 64 -> at_ r 6 <> 64 ->
  exists e, ParseEntryPoint r = Err e.
Proof.
  intros Hl H5 H6.
  destruct (ParseEntryPoint r) as [ep|e| |] eqn:E; [|now exists e| |].
  - exfalso. pose proof E as E'. apply ParseEntryPoint_length in E' as [E1 _].
    rewrite Z.min_l in E1 by lia.
    unfold ParseEntryPoint in E.
    destruct (_ <? 4); [discriminate|].
    assert (Hat : forall i, (i < 64)%nat -> at_ (ReadAllLimit r 64) i = at_ r i).
    { intros i Hi. unfold at_, ReadAllLimit. rewrite nth_firstn.
      now replace (i <? 64)%nat with true by (symmetry; apply Nat.ltb_lt; lia). }
    destruct (HasPrefix _ magic32).
    + destruct (parse32 _) as [h| | |] eqn:Ep; cbn [bind] in E;
        try discriminate.
      injection E as <-. cbn [entryLength] in E1.
      unfold parse32 in Ep. destruct (_ <? 31); [discriminate|].
      destruct (negb _); [discriminate|]. destruct (negb _); [discriminate|].
      destruct (checksum _ _ _); cbn [bind] in Ep; try discriminate.
      injection Ep as <-. cbn [Length32] in E1.
      rewrite Hat in E1 by lia. contradiction.
    + destruct (HasPrefix _ magic64); [|discriminate].
      destruct (parse64 _) as [h| | |] eqn:Ep; cbn [bind] in E;
        try discriminate.
      injection E as <-. cbn [entryLength] in E1.
      unfold parse64 in Ep. destruct (_ <? 24); [discriminate|].
      destruct (negb _); [discriminate|].
      destruct (checksum _ _ _); cbn [bind] in Ep; try discriminate.
      injection Ep as <-. cbn [Length64] in E1.
      rewrite Hat in E1 by lia. contradiction.
  - exfalso. unfold ParseEntryPoint in E.
    destruct (_ <? 4); [discriminate|].
    destruct (HasPrefix _ magic32).
    + unfold parse32 in E. destruct (_ <? 31); [discriminate|].
      destruct (negb _); [discriminate|]. destruct (negb _); [discriminate|].
      unfold checksum in E. destruct (negb _); discriminate.
    + destruct (HasPrefix _ magic64); [|discriminate].
      unfold parse64 in E. destruct (_ <? 24); [discriminate|].
      destruct (negb _); [discriminate|].
      unfold checksum in E. destruct (negb _); discriminate.
  - exfalso. unfold ParseEntryPoint in E.
    destruct (_ <? 4); [discriminate|].
    destruct (HasPrefix _ magic32).
    + unfold parse32 in E. destruct (_ <? 31); [discriminate|].
      destruct (negb _); [discriminate|]. destruct (negb _); [discriminate|].
      unfold checksum in E. destruct (negb _); discriminate.
    + destruct (HasPrefix _ magic64); [|discriminate].
      unfold parse64 in E. destruct (_ <? 24); [discriminate|].
      destruct (negb _); [discriminate|].
      unfold checksum in E. destruct (negb _); discriminate.
Qed.

End EntryPointLength.

(** X18.  An entry point is accepted only when its length byte equals the
    number of bytes read, which is the whole input up to 64 bytes: the
    accepted record begins with its anchor, is at least 31 bytes (32-bit)
    or 24 bytes (64-bit) long, and nothing follows it within the first 64
    bytes of the input. *)
Theorem entry_point_length_is_number_of_bytes_read
  (r : list Z) (ep : EntryPoint) :
  ParseEntryPoint r = Ok ep ->
  entryLength ep = Z.min 64 (len r) /\
  match ep with
  | EP32 _ => HasPrefix r magic32 = true /\ 31 <= len r
  | EP64 _ => HasPrefix r magic64 = true /\ 24 <= len r
  end.
Proof. apply ParseEntryPoint_length. Qed.

Lemma entry_point_length_is_number_of_bytes_read_witness :
  match ParseEntryPoint ep32_ok with
  | Ok ep =>
      entryLength ep = Z.min 64 (len ep32_ok) /\
      match ep with
      | EP32 _ => HasPrefix ep32_ok magic32 = true /\ 31 <= len ep32_ok
      | EP64 _ => HasPrefix ep32_ok magic64 = true /\ 24 <= len ep32_ok
      end
  | _ => False
  end.
Proof.
  destruct (ParseEntryPoint ep32_ok) as [ep| | |] eqn:E;
    [|discriminate E..].
  apply (@entry_point_length_is_number_of_bytes_read ep32_ok ep). exact E.
Defined.

(** X19.  When [memoryStream] succeeds, the entry point it returns was
    parsed from the bytes at the first aligned anchor of the window, and the
    stream it returns is the copy of the [size] bytes of memory that begin
    at the table address the entry point names; address and size are not
    negative. *)
Theorem memoryStream_returns_table_bytes
  (Table : EntryPoint -> Z * Z) (magicPrefix mem : list Z)
  (startAddr endAddr : Z) (out : list Z) (ep : EntryPoint) :
  (length magicPrefix <= 16)%nat ->
  memoryStream Table magicPrefix mem startAddr endAddr = Ok (out, ep) ->
  exists a,
    firstAlignedAnchor magicPrefix mem startAddr endAddr a /\
    ParseEntryPoint (skipn (Z.to_nat a) mem) = Ok ep /\
    0 <= fst (Table ep) /\ 0 <= snd (Table ep) /\
    len out = snd (Table ep) /\
    out = slice mem (Z.to_nat (fst (Table ep)))
            (Z.to_nat (fst (Table ep) + snd (Table ep))).
Proof.
  intros Hp. unfold memoryStream.
  destruct (findEntryPoint _ _ _ _) as [a| | |] eqn:E1; cbn [bind];
    try discriminate.
  pose proof (findEntryPoint_start _ _ _ _ E1) as Hs.
  apply (@findEntryPoint_Ok_iff magicPrefix mem Hp startAddr endAddr a Hs)
    in E1 as [Hfirst Hread].
  destruct (Seek mem a) as [rs| | |] eqn:E2; cbn [bind]; try discriminate.
  apply Seek_Ok in E2 as [Ha ->].
  destruct (ParseEntryPoint _) as [ep0| | |] eqn:E3; cbn [bind];
    try discriminate.
  destruct (Table ep0) as [tableAddr tableSize] eqn:ET.
  destruct (Seek mem tableAddr) as [rs| | |] eqn:E4; cbn [bind];
    try discriminate.
  apply Seek_Ok in E4 as [Hta ->].
  destruct (Z.ltb_spec tableSize 0) as [Hneg|Hsz]; [discriminate|].
  destruct (ReadFull _ _) as [[o r']| | |] eqn:E5; cbn [bind];
    try discriminate.
  intros H. injection H as <- <-. rewrite ET. cbn [fst snd].
  apply ReadFull_Ok in E5 as (-> & _ & Hn).
  exists a. split; [exact Hfirst|]. split; [exact E3|].
  split; [exact Hta|]. split; [exact Hsz|]. split.
  - unfold len. rewrite length_firstn. lia.
  - unfold slice. f_equal. lia.
Qed.

Lemma memoryStream_returns_table_bytes_witness :
  exists a,
    firstAlignedAnchor (str "_SM") entryPointLast 0 32 a /\
    ParseEntryPoint (skipn (Z.to_nat a) entryPointLast) =
      Ok (EP64 {| Anchor64 := magic64; Checksum64 := 0x86; Length64 := 24;
                  Major64 := 3; Minor64 := 0; Revision64 := 0;
                  EntryPointRevision64 := 1; Reserved64 := 0;
                  StructureTableMaxSize := 0x953;
                  StructureTableAddress64 := 0xeb3b0 |}) /\
    0 <= 0 /\ 0 <= 16 /\ len (repeat 7 16) = 16 /\
    repeat 7 16 = slice entryPointLast (Z.to_nat 0) (Z.to_nat (0 + 16)).
Proof.
  apply (@memoryStream_returns_table_bytes (fun _ => (0, 16)) (str "_SM")
           entryPointLast 0 32).
  - vm_compute. lia.
  - vm_compute. reflexivity.
Defined.

(** X20.  Read from a memory image in which at least 64 bytes follow the
    first aligned anchor of the window, an entry point is rejected unless
    its length byte is 64: [memoryStream] then fails with an error, whatever
    the table it would name. *)
Theorem memoryStream_rejects_entry_point_followed_by_memory
  (Table : EntryPoint -> Z * Z) (magicPrefix mem : list Z)
  (startAddr endAddr a : Z) :
  (length magicPrefix <= 16)%nat ->
  0 <= startAddr ->
  firstAlignedAnchor magicPrefix mem startAddr endAddr a ->
  a + 64 <= len mem ->
  at_ mem (Z.to_nat a + 5) <> 64 ->
  at_ mem (Z.to_nat a + 6) <> 64 ->
  exists e, memoryStream Table magicPrefix mem startAddr endAddr = Err e.
Proof.
  intros Hp Hs Hfirst Hlen H5 H6. unfold memoryStream.
  assert (Ha : 0 <= a).
  { destruct Hfirst as [[? _] _]. lia. }
  assert (E1 : findEntryPoint magicPrefix mem startAddr endAddr = Ok a).
  { apply (@findEntryPoint_Ok_iff magicPrefix mem Hp startAddr endAddr a Hs).
    split; [exact Hfirst|]. unfold readableAt. lia. }
  rewrite E1. cbn [bind]. rewrite Seek_nonneg by exact Ha. cbn [bind].
  destruct (@ParseEntryPoint_long (skipn (Z.to_nat a) mem)) as [e E].
  - unfold len in *. rewrite length_skipn. lia.
  - unfold at_ in *. now rewrite nth_skipn.
  - unfold at_ in *. now rewrite nth_skipn.
  - exists e. now rewrite E.
Qed.

Lemma memoryStream_rejects_entry_point_followed_by_memory_witness :
  exists e,
    memoryStream (fun _ => (0, 16)) (str "_SM") entryPointInMemory 0 32 =
    Err e.
Proof.
  apply (@memoryStream_rejects_entry_point_followed_by_memory
           (fun _ => (0, 16)) (str "_SM") entryPointInMemory 0 32 16).
  - vm_compute. lia.
  - lia.
  - split; [|split].
    + split; [lia|reflexivity].
    + split; [lia|reflexivity].
    + intros a' [Hr Hm] Hlt [_ Han].
      assert (a' = 0) as -> by (Z.div_mod_to_equations; lia).
      discriminate Han.
  - vm_compute. discriminate.
  - vm_compute. discriminate.
  - vm_compute. discriminate.
Defined.

(** ** Writing and reading back a 64-bit entry point *)

Section Marshal.

Lemma uint8_is_byte (v : Z) : is_byte (uint8 v).
Proof. unfold is_byte, uint8. apply Z.mod_pos_bound. lia. Qed.

Lemma LittleEndian_leBytes (n : nat) :
  forall v, LittleEndian (leBytes n v) = v mod 256 ^ Z.of_nat n.
Proof.
  induction n as [|n IH]; intros v.
  - cbn. now rewrite Z.mod_1_r.
  - cbn [leBytes]. rewrite (LittleEndian_cons _ (uint8_is_byte v)), IH.
    rewrite Nat2Z.inj_succ, Z.pow_succ_r by lia.
    rewrite Z.shiftr_div_pow2 by lia. change (2 ^ 8) with 256.
    unfold uint8. rewrite Z.rem_mul_r by lia. reflexivity.
Qed.

Lemma PutUint32_leBytes (v : Z) : PutUint32 v = leBytes 4 v.
Proof.
  unfold PutUint32. cbn [leBytes]. now rewrite !Z.shiftr_shiftr by lia.
Qed.

Lemma PutUint64_leBytes (v : Z) : PutUint64 v = leBytes 8 v.
Proof.
  unfold PutUint64. cbn [leBytes]. now rewrite !Z.shiftr_shiftr by lia.
Qed.

Lemma Uint32_PutUint32 (v : Z) (rest : list Z) :
  0 <= v < 2 ^ 32 -> Uint32 (PutUint32 v ++ rest) = v.
Proof.
  intros Hv. unfold Uint32.
  change (firstn 4 (PutUint32 v ++ rest)) with (PutUint32 v).
  rewrite PutUint32_leBytes, LittleEndian_leBytes.
  apply Z.mod_small. exact Hv.
Qed.

Lemma Uint64_PutUint64 (v : Z) (rest : list Z) :
  0 <= v < 2 ^ 64 -> Uint64 (PutUint64 v ++ rest) = v.
Proof.
  intros Hv. unfold Uint64.
  change (firstn 8 (PutUint64 v ++ rest)) with (PutUint64 v).
  rewrite PutUint64_leBytes, LittleEndian_leBytes.
  apply Z.mod_small. exact Hv.
Qed.

(** The bytes [marshal64] writes after the checksum byte. *)
Lemma marshal64_bytes (ep : EntryPoint64Bit) :
  exists c,
    marshal64 24 5 ep =
    Ok ([95; 83; 77; 51; 95; c; 24; Major64 ep; Minor64 ep; Revision64 ep;
         EntryPointRevision64 ep; Reserved64 ep] ++
        PutUint32 (StructureTableMaxSize ep) ++
        PutUint64 (StructureTableAddress64 ep)) /\
    is_byte c /\
    (c + (95 + 83 + 77 + 51 + 95 + 24 + Major64 ep + Minor64 ep +
          Revision64 ep + EntryPointRevision64 ep + Reserved64 ep +
          byteSum (PutUint32 (StructureTableMaxSize ep)) +
          byteSum (PutUint64 (StructureTableAddress64 ep)))) mod 256 = 0.
Proof.
  set (b0 := [95; 83; 77; 51; 95; 0; 24; Major64 ep; Minor64 ep;
              Revision64 ep; EntryPointRevision64 ep; Reserved64 ep] ++
             PutUint32 (StructureTableMaxSize ep) ++
             PutUint64 (StructureTableAddress64 ep)).
  exists (uint8 (256 - checksumLoop 5 0 b0 0)).
  split; [reflexivity|]. split; [apply uint8_is_byte|].
  pose proof (checksumLoop_mod 5 b0 0 0) as Hm.
  pose proof (checksumLoop_range 5 b0 0 (chk := 0) ltac:(lia)) as Hr.
  rewrite Z.mod_small in Hm by exact Hr.
  cbn [Nat.leb Nat.sub] in Hm. change (nth 5 b0 0) with 0 in Hm.
  set (chk := checksumLoop 5 0 b0 0) in *.
  assert (Hs : byteSum b0 =
               95 + 83 + 77 + 51 + 95 + 24 + Major64 ep + Minor64 ep +
               Revision64 ep + EntryPointRevision64 ep + Reserved64 ep +
               byteSum (PutUint32 (StructureTableMaxSize ep)) +
               byteSum (PutUint64 (StructureTableAddress64 ep))).
  { unfold b0, PutUint32, PutUint64. cbn [app byteSum fold_right]. lia. }
  rewrite <- Hs. unfold uint8. clearbody chk. clear Hs.
  generalize dependent (byteSum b0). intros S Hm.
  rewrite Z.add_0_l, Z.sub_0_r in Hm. subst chk.
  rewrite Z.add_mod_idemp_l by lia.
  replace (256 - S mod 256 + S) with (256 + (S - S mod 256)) by lia.
  rewrite (Z.div_mod S 256) at 1 by lia.
  replace (256 + (256 * (S / 256) + S mod 256 - S mod 256))
    with ((1 + S / 256) * 256) by lia.
  apply Z.mod_mul. lia.
Qed.

End Marshal.

(** X21.  With the length constant 24 and the checksum index 5 of the
    64-bit entry point, the bytes [marshal64] writes for an entry point are
    accepted by [ParseEntryPoint], which returns the same version, revision
    and reserved bytes, table size and table address, the anchor "_SM3_",
    the length 24 and the checksum byte that [marshal64] computed. *)
Theorem marshal64_round_trip
  (expLen64 chkIndex64 : nat) (ep : EntryPoint64Bit) :
  expLen64 = 24%nat ->
  chkIndex64 = 5%nat ->
  wellTyped64 ep ->
  exists b,
    marshal64 expLen64 chkIndex64 ep = Ok b /\
    ParseEntryPoint b =
    Ok (EP64 {| Anchor64 := magic64;
                Checksum64 := at_ b 5;
                Length64 := 24;
                Major64 := Major64 ep;
                Minor64 := Minor64 ep;
                Revision64 := Revision64 ep;
                EntryPointRevision64 := EntryPointRevision64 ep;
                Reserved64 := Reserved64 ep;
                StructureTableMaxSize := StructureTableMaxSize ep;
                StructureTableAddress64 := StructureTableAddress64 ep |}).
Proof.
  intros -> -> (HM & Hm & HR & HE & HRs & Hsz & Had).
  destruct (marshal64_bytes ep) as (c & -> & Hc & Hsum).
  eexists. split; [reflexivity|].
  set (b := _ ++ _ ++ _).
  assert (Hb : bytes_ok b).
  { unfold b, PutUint32, PutUint64. cbn [app].
    repeat (constructor;
            [assumption || apply uint8_is_byte || (unfold is_byte; lia)|]).
    constructor. }
  assert (Hchk : checksum c 5 b = Ok tt).
  { pose proof (@checksum_ok_iff b 5 Hb) as Hiff.
    change (at_ b 5) with c in Hiff.
    assert (Hzero : byteSum b mod 256 = 0).
    { rewrite <- Hsum. f_equal.
      unfold b, PutUint32, PutUint64. cbn [app byteSum fold_right]. lia. }
    apply Hiff in Hzero.
    destruct (checksum c 5 b) as [[]| | |]; [reflexivity|discriminate..]. }
  unfold ParseEntryPoint.
  change (ReadAllLimit b 64) with b. cbv zeta.
  change (len b) with 24.
  change (HasPrefix b magic32) with false.
  change (HasPrefix b magic64) with true.
  cbn [Z.ltb Z.compare Pos.compare Pos.compare_cont].
  unfold parse64. change (len b) with 24. change (at_ b 6) with 24.
  change (at_ b 5) with c. cbn [Z.ltb Z.eqb Pos.eqb Z.compare Pos.compare
                                  Pos.compare_cont negb].
  rewrite Hchk. cbn [bind]. do 2 f_equal.
  change (slice b 12 16) with (PutUint32 (StructureTableMaxSize ep) ++ []).
  change (slice b 16 24) with (PutUint64 (StructureTableAddress64 ep) ++ []).
  rewrite Uint32_PutUint32 by exact Hsz.
  rewrite Uint64_PutUint64 by exact Had.
  reflexivity.
Qed.

Lemma marshal64_round_trip_witness :
  exists b,
    marshal64 24 5 testEntryPoint64 = Ok b /\
    ParseEntryPoint b =
    Ok (EP64 {| Anchor64 := magic64;
                Checksum64 := at_ b 5;
                Length64 := 24;
                Major64 := 0;
                Minor64 := 0;
                Revision64 := 0;
                EntryPointRevision64 := 0;
                Reserved64 := 0;
                StructureTableMaxSize := 512;
                StructureTableAddress64 := 0x00f0 |}).
Proof.
  apply (@marshal64_round_trip 24 5 testEntryPoint64).
  - reflexivity.
  - reflexivity.
  - unfold wellTyped64, is_byte. cbn. lia.
Defined.

(** ** The rendering of a UUID *)

Section UUIDRendering.

Lemma bytesEqual_eq (a : list Z) :
  forall b, bytesEqual a b = true -> a = b.
Proof.
  induction a as [|x a IH]; intros [|y b]; simpl; try discriminate;
    [reflexivity|].
  intros H. apply andb_true_iff in H as [E H]. apply Z.eqb_eq in E.
  subst. f_equal. now apply IH.
Qed.

Lemma fmtX2_hexPair (x : Z) : is_byte x -> fmtX 2 x = hexPair x.
Proof.
  intros Hx. apply bytesEqual_eq.
  assert (H : forallb (fun x => bytesEqual (fmtX 2 x) (hexPair x)) byteRange
              = true) by (vm_compute; reflexivity).
  rewrite forallb_forall in H. apply H. now apply byteRange_complete.
Qed.

Lemma hexDigit_upper (x : Z) :
  is_byte x ->
  isUpperHex (hexDigit (x / 16)) = true /\
  isUpperHex (hexDigit (x mod 16)) = true.
Proof.
  intros [H0 H1]. unfold isUpperHex, hexDigit.
  assert (0 <= x / 16 < 16) by (Z.div_mod_to_equations; lia).
  assert (0 <= x mod 16 < 16) by (Z.div_mod_to_equations; lia).
  split.
  - destruct (Z.ltb_spec (x / 16) 10); lia.
  - destruct (Z.ltb_spec (x mod 16) 10); lia.
Qed.

Lemma hexPair_inj (x y : Z) :
  is_byte x -> is_byte y ->
  hexDigit (x / 16) = hexDigit (y / 16) ->
  hexDigit (x mod 16) = hexDigit (y mod 16) ->
  x = y.
Proof.
  intros [Hx0 Hx1] [Hy0 Hy1]. unfold hexDigit.
  assert (0 <= x / 16 < 16) by (Z.div_mod_to_equations; lia).
  assert (0 <= x mod 16 < 16) by (Z.div_mod_to_equations; lia).
  assert (0 <= y / 16 < 16) by (Z.div_mod_to_equations; lia).
  assert (0 <= y mod 16 < 16) by (Z.div_mod_to_equations; lia).
  intros Hq Hr.
  assert (x / 16 = y / 16).
  { destruct (Z.ltb_spec (x / 16) 10), (Z.ltb_spec (y / 16) 10); lia. }
  assert (x mod 16 = y mod 16).
  { destruct (Z.ltb_spec (x mod 16) 10), (Z.ltb_spec (y mod 16) 10); lia. }
  rewrite (Z.div_mod x 16), (Z.div_mod y 16) by lia. congruence.
Qed.

Ltac sixteen u Hu Hl :=
  do 16 (destruct u as [|? u]; [discriminate Hl|]);
  destruct u; [|discriminate Hl]; clear Hl;
  unfold bytes_ok in Hu;
  repeat match goal with
         | H : Forall _ (_ :: _) |- _ => inversion H; subst; clear H
         | H : Forall _ [] |- _ => clear H
         end.

Lemma renderUUID_shape (u : list Z) :
  bytes_ok u -> length u = 16%nat -> uuidShape (renderUUID u) = true.
Proof.
  intros Hu Hl. sixteen u Hu Hl.
  unfold renderUUID. cbn [nth]. rewrite !fmtX2_hexPair by assumption.
  unfold hexPair. change dash with [45]. cbn [app].
  repeat match goal with
         | H : is_byte _ |- _ => apply hexDigit_upper in H as [? ?]
         end.
  unfold uuidShape. cbn [length Nat.eqb andb seq combine forallb fst snd].
  cbn [dashAt Nat.eqb orb].
  repeat match goal with
         | H : isUpperHex _ = true |- _ => rewrite H; clear H
         end.
  reflexivity.
Qed.

Lemma renderUUID_inj (u v : list Z) :
  bytes_ok u -> length u = 16%nat ->
  bytes_ok v -> length v = 16%nat ->
  renderUUID u = renderUUID v -> u = v.
Proof.
  intros Hu Hl Hv Hl'. sixteen u Hu Hl. sixteen v Hv Hl'.
  unfold renderUUID. cbn [nth]. rewrite !fmtX2_hexPair by assumption.
  unfold hexPair. change dash with [45]. cbn [app]. intros E.
  injection E as E3 E3' E2 E2' E1 E1' E0 E0' E5 E5' E4 E4' E7 E7' E6 E6'
    E8 E8' E9 E9' E10 E10' E11 E11' E12 E12' E13 E13' E14 E14' E15 E15'.
  repeat f_equal; now apply hexPair_inj.
Qed.

End UUIDRendering.

(** X22.  The UUID of sixteen bytes is rendered as 36 characters: upper-case
    hexadecimal digits with dashes at positions 8, 13, 18 and 23; and two
    different UUIDs are never rendered alike. *)
Theorem uuid_rendering_is_canonical (u v : list Z) :
  bytes_ok u -> length u = 16%nat ->
  bytes_ok v -> length v = 16%nat ->
  uuidShape (renderUUID u) = true /\
  (renderUUID u = renderUUID v -> u = v).
Proof.
  intros Hu Hl Hv Hl'. split.
  - now apply renderUUID_shape.
  - now apply renderUUID_inj.
Qed.

Lemma uuid_rendering_is_canonical_witness :
  uuidShape (renderUUID systemUUID) = true /\
  (renderUUID systemUUID = renderUUID (repeat 255 16) ->
   systemUUID = repeat 255 16).
Proof.
  apply (@uuid_rendering_is_canonical systemUUID (repeat 255 16)).
  - apply bytes_ok_dec. reflexivity.
  - reflexivity.
  - apply bytes_ok_dec. reflexivity.
  - reflexivity.
Defined.

(** ** The Windows stream *)

Section WindowsStream.

Import Windows.

Lemma bufferAfter_exact (written : list Z) :
  bufferAfter (len written) written = written.
Proof.
  unfold bufferAfter, len. rewrite Nat2Z.id.
  rewrite firstn_app, Nat.sub_diag, firstn_all. cbn [firstn].
  apply app_nil_r.
Qed.

Lemma nativeUint32_put (be : bool) (v : Z) (rest : list Z) :
  0 <= v < 2 ^ 32 ->
  nativeUint32 be (firstn 4 (nativePutUint32 be v ++ rest)) = v.
Proof.
  intros Hv. destruct be; unfold nativeUint32, nativePutUint32.
  - unfold BigEndianUint32, BigEndianPutUint32.
    change (rev (firstn 4 (firstn 4 (rev (PutUint32 v) ++ rest))))
      with (PutUint32 v).
    rewrite <- (app_nil_r (PutUint32 v)).
    exact (Uint32_PutUint32 [] Hv).
  - change (firstn 4 (PutUint32 v ++ rest)) with (PutUint32 v ++ []).
    exact (Uint32_PutUint32 [] Hv).
Qed.

Lemma length_nativePutUint32 (be : bool) (v : Z) :
  length (nativePutUint32 be v) = 4%nat.
Proof. now destruct be. Qed.

Lemma bufferAfter_bytes (n : Z) (written : list Z) :
  bytes_ok written -> bytes_ok (bufferAfter n written).
Proof.
  intros H. unfold bufferAfter. apply bytes_ok_firstn.
  unfold bytes_ok. apply Forall_app. split; [exact H|].
  apply Forall_forall. intros x Hx. apply repeat_spec in Hx. subst.
  unfold is_byte. lia.
Qed.

Lemma nativeUint32_range (be : bool) (b : list Z) :
  bytes_ok b -> 0 <= nativeUint32 be b < 2 ^ 32.
Proof.
  intros Hb. destruct be; unfold nativeUint32; [|now apply Uint32_range].
  unfold BigEndianUint32.
  assert (Hr : bytes_ok (rev (firstn 4 b))).
  { unfold bytes_ok. apply Forall_rev. now apply bytes_ok_firstn. }
  pose proof (LittleEndian_range Hr) as H.
  assert (Hl : 0 <= len (rev (firstn 4 b)) <= 4).
  { unfold len. rewrite length_rev, length_firstn. lia. }
  assert (256 ^ len (rev (firstn 4 b)) <= 256 ^ 4)
    by (apply Z.pow_le_mono_r; lia).
  change (2 ^ 32) with (256 ^ 4). lia.
Qed.

End WindowsStream.

(** X23.  When the system call reports and writes exactly the buffer that
    [makeRawSMBIOSData] builds for a stream shorter than 2^32 - 8 bytes, the
    Windows [stream] returns that stream, its length as the table size and
    the three version bytes, in either host byte order. *)
Theorem windows_stream_round_trip
  (be : bool) (major minor revision : Z) (s : list Z) :
  len s < 2 ^ 32 - 8 ->
  let raw := Windows.makeRawSMBIOSData be major minor revision s in
  Windows.stream be (len raw) (fun _ => (len raw, raw)) =
  Windows.Returned
    (s, {| Windows.Size := len s;
           Windows.MajorVersion := major;
           Windows.MinorVersion := minor;
           Windows.Revision := revision |}).
Proof.
  intros Hs raw.
  assert (Hlen : len raw = 8 + len s).
  { unfold raw, Windows.makeRawSMBIOSData, len.
    rewrite !length_app, length_nativePutUint32. cbn [length]. lia. }
  assert (Hs0 : 0 <= len s) by (unfold len; lia).
  assert (Hu : Windows.uint32 (len raw) = len raw).
  { unfold Windows.uint32. apply Z.mod_small. lia. }
  assert (Hv : Windows.uint32 (len s) = len s).
  { unfold Windows.uint32. apply Z.mod_small. lia. }
  unfold Windows.stream. rewrite Hu.
  replace (len raw =? 0) with false by (symmetry; apply Z.eqb_neq; lia).
  replace (len raw <? Windows.rawSMBIOSDataHeaderSize) with false
    by (symmetry; apply Z.ltb_ge; unfold Windows.rawSMBIOSDataHeaderSize;
        lia).
  rewrite bufferAfter_exact, Z.gtb_ltb, Z.ltb_irrefl.
  assert (Ht : Windows.nativeUint32 be (slice raw 4 8) = len s).
  { unfold raw, Windows.makeRawSMBIOSData. rewrite Hv.
    change (slice ([0; major; minor; revision] ++
                   Windows.nativePutUint32 be (len s) ++ s) 4 8)
      with (firstn 4 (Windows.nativePutUint32 be (len s) ++ s)).
    apply nativeUint32_put. lia. }
  rewrite Ht.
  replace (Windows.uint32 (Windows.rawSMBIOSDataHeaderSize + len s))
    with (len raw)
    by (unfold Windows.uint32, Windows.rawSMBIOSDataHeaderSize;
        rewrite Z.mod_small; lia).
  rewrite Z.gtb_ltb, Z.ltb_irrefl.
  replace (len raw <? Windows.rawSMBIOSDataHeaderSize) with false
    by (symmetry; apply Z.ltb_ge; unfold Windows.rawSMBIOSDataHeaderSize;
        lia).
  f_equal. f_equal.
  unfold slice.
  replace (Z.to_nat (len raw) - 8)%nat with (length s)
    by (unfold len in *; lia).
  unfold raw, Windows.makeRawSMBIOSData.
  destruct be; cbn [Windows.nativePutUint32 app skipn];
    apply firstn_all.
Qed.

Lemma windows_stream_round_trip_witness :
  let raw := Windows.makeRawSMBIOSData false 2 4 1 okMultiple in
  Windows.stream false (len raw) (fun _ => (len raw, raw)) =
  Windows.Returned
    (okMultiple, {| Windows.Size := len okMultiple;
                    Windows.MajorVersion := 2;
                    Windows.MinorVersion := 4;
                    Windows.Revision := 1 |}).
Proof.
  apply (@windows_stream_round_trip false 2 4 1 okMultiple).
  vm_compute. reflexivity.
Defined.

(** X24.  Whenever the Windows [stream] succeeds on bytes written by the
    system call, the table it returns lies inside the bytes reported as
    written: it is the [Size] bytes of the buffer from offset 8, with
    [8 + Size] at most the byte count of the second call, itself at most
    the buffer size; [Size] is the length field at offsets 4 to 7 in host
    byte order, and the version bytes are those at offsets 1, 2 and 3. *)
Theorem windows_stream_table_within_bytes_written
  (be : bool) (sizeCall : Z) (readCall : Z -> Z * list Z)
  (out : list Z) (ep : Windows.WindowsEntryPoint) :
  let bufferSize := Windows.uint32 sizeCall in
  let bytesWritten := Windows.uint32 (fst (readCall bufferSize)) in
  let buffer := Windows.bufferAfter bufferSize (snd (readCall bufferSize)) in
  bytes_ok (snd (readCall bufferSize)) ->
  Windows.stream be sizeCall readCall = Windows.Returned (out, ep) ->
  8 + Windows.Size ep <= bytesWritten <= bufferSize /\
  out = slice buffer 8 (8 + Z.to_nat (Windows.Size ep)) /\
  len out = Windows.Size ep /\
  Windows.Size ep = Windows.nativeUint32 be (slice buffer 4 8) /\
  Windows.Version ep = (at_ buffer 1, at_ buffer 2, at_ buffer 3).
Proof.
  intros bufferSize bytesWritten buffer Hb. unfold Windows.stream.
  fold bufferSize. unfold Windows.rawSMBIOSDataHeaderSize.
  destruct (sizeCall =? 0); [discriminate|].
  destruct (sizeCall <? 8); [discriminate|].
  destruct (Z.eqb_spec bufferSize 0) as [Hz|Hz]; [discriminate|].
  unfold bytesWritten, buffer in *. clear bytesWritten buffer.
  destruct (readCall bufferSize) as [r1 written]. cbn [fst snd] in *.
  set (buffer := Windows.bufferAfter bufferSize written).
  set (bytesWritten := Windows.uint32 r1).
  destruct (Z.gtb_spec bytesWritten bufferSize) as [Hgt|Hle];
    [discriminate|].
  destruct (bytesWritten =? 0); [discriminate|].
  destruct (Z.ltb_spec bytesWritten 8) as [Hlt|Hge]; [discriminate|].
  pose proof (@nativeUint32_range be (slice buffer 4 8)
                (bytes_ok_slice 4 8 (bufferAfter_bytes bufferSize Hb)))
    as Hr.
  set (tableSize := Windows.nativeUint32 be (slice buffer 4 8)) in *.
  set (high := Windows.uint32 (8 + tableSize)).
  assert (Hhigh : 8 <= high -> high = 8 + tableSize).
  { unfold high, Windows.uint32. intros Hge'.
    destruct (Z_lt_dec (8 + tableSize) (2 ^ 32)) as [Hsmall|Hbig].
    - apply Z.mod_small. lia.
    - exfalso.
      replace (8 + tableSize) with (8 + tableSize - 2 ^ 32 + 1 * 2 ^ 32)
        in Hge' by lia.
      rewrite Z.mod_add in Hge' by lia.
      rewrite Z.mod_small in Hge' by lia. lia. }
  clearbody high.
  destruct (Z.gtb_spec high bytesWritten) as [Hgt'|Hle']; [discriminate|].
  destruct (Z.ltb_spec high 8) as [Hlt'|Hge']; [discriminate|].
  specialize (Hhigh Hge').
  intros E. injection E as <- <-.
  cbn [Windows.Size Windows.Version Windows.MajorVersion
       Windows.MinorVersion Windows.Revision].
  rewrite Hhigh in *. clear Hhigh.
  assert (Hbs : 0 <= bufferSize < 2 ^ 32).
  { unfold bufferSize, Windows.uint32. apply Z.mod_pos_bound. lia. }
  assert (Hbl : len buffer = bufferSize).
  { unfold buffer, Windows.bufferAfter, len.
    rewrite length_firstn, length_app, repeat_length. lia. }
  assert (Hnat : Z.to_nat (8 + tableSize) = (8 + Z.to_nat tableSize)%nat)
    by lia.
  rewrite Hnat.
  split; [lia|]. split; [reflexivity|]. split; [|split; reflexivity].
  unfold slice, len in *. rewrite length_firstn, length_skipn. lia.
Qed.

Lemma windows_stream_table_within_bytes_written_witness :
  let raw := Windows.makeRawSMBIOSData false 2 4 1 okMultiple in
  let bufferSize := Windows.uint32 (len raw) in
  let bytesWritten := Windows.uint32 (len raw) in
  let buffer := Windows.bufferAfter bufferSize raw in
  8 + len okMultiple <= bytesWritten <= bufferSize /\
  okMultiple = slice buffer 8 (8 + Z.to_nat (len okMultiple)) /\
  len okMultiple = len okMultiple /\
  len okMultiple = Windows.nativeUint32 false (slice buffer 4 8) /\
  (2, 4, 1) = (at_ buffer 1, at_ buffer 2, at_ buffer 3).
Proof.
  apply (@windows_stream_table_within_bytes_written false
           (len (Windows.makeRawSMBIOSData false 2 4 1 okMultiple))
           (fun _ => (len (Windows.makeRawSMBIOSData false 2 4 1 okMultiple),
                      Windows.makeRawSMBIOSData false 2 4 1 okMultiple))
           okMultiple
           {| Windows.Size := len okMultiple;
              Windows.MajorVersion := 2;
              Windows.MinorVersion := 4;
              Windows.Revision := 1 |}).
  - apply bytes_ok_dec. vm_compute. reflexivity.
  - vm_compute. reflexivity.
Defined.

(** X25.  A length field of 2^32 - 8 or more defeats the size check of the
    Windows [stream]: the 32-bit sum [8 + tableSize] wraps around to a value
    below 8, the check against the bytes written passes, and the slice
    expression that follows panics. *)
Theorem windows_stream_panics_on_wrapping_length
  (be : bool) (sizeCall : Z) (readCall : Z -> Z * list Z) :
  let bufferSize := Windows.uint32 sizeCall in
  let bytesWritten := Windows.uint32 (fst (readCall bufferSize)) in
  let buffer := Windows.bufferAfter bufferSize (snd (readCall bufferSize)) in
  8 <= sizeCall ->
  8 <= bytesWritten <= bufferSize ->
  2 ^ 32 - 8 <= Windows.nativeUint32 be (slice buffer 4 8) < 2 ^ 32 ->
  Windows.stream be sizeCall readCall = Windows.Panicked.
Proof.
  intros bufferSize bytesWritten buffer H8 Hw Ht. unfold Windows.stream.
  fold bufferSize.
  replace (sizeCall =? 0) with false by (symmetry; apply Z.eqb_neq; lia).
  unfold Windows.rawSMBIOSDataHeaderSize.
  replace (sizeCall <? 8) with false by (symmetry; apply Z.ltb_ge; lia).
  replace (bufferSize =? 0) with false by (symmetry; apply Z.eqb_neq; lia).
  unfold bytesWritten, buffer in *. clear bytesWritten buffer.
  destruct (readCall bufferSize) as [r1 written]. cbn [fst snd] in *.
  set (buffer := Windows.bufferAfter bufferSize written) in *.
  set (bytesWritten := Windows.uint32 r1) in *.
  set (tableSize := Windows.nativeUint32 be (slice buffer 4 8)) in *.
  replace (bytesWritten >? bufferSize) with false
    by (symmetry; rewrite Z.gtb_ltb; apply Z.ltb_ge; lia).
  replace (bytesWritten =? 0) with false by (symmetry; apply Z.eqb_neq; lia).
  replace (bytesWritten <? 8) with false by (symmetry; apply Z.ltb_ge; lia).
  assert (Hhigh : Windows.uint32 (8 + tableSize) = 8 + tableSize - 2 ^ 32).
  { unfold Windows.uint32.
    replace (8 + tableSize) with (8 + tableSize - 2 ^ 32 + 1 * 2 ^ 32)
      at 1 by lia.
    rewrite Z.mod_add by lia. apply Z.mod_small. lia. }
  rewrite Hhigh.
  replace (8 + tableSize - 2 ^ 32 >? bytesWritten) with false
    by (symmetry; rewrite Z.gtb_ltb; apply Z.ltb_ge; lia).
  replace (8 + tableSize - 2 ^ 32 <? 8) with true
    by (symmetry; apply Z.ltb_lt; lia).
  reflexivity.
Qed.

Lemma windows_stream_panics_on_wrapping_length_witness :
  Windows.stream false 8 (fun _ => (8, [0; 2; 4; 1; 255; 255; 255; 255])) =
  Windows.Panicked.
Proof.
  apply (@windows_stream_panics_on_wrapping_length false 8
           (fun _ => (8, [0; 2; 4; 1; 255; 255; 255; 255]))).
  - lia.
  - vm_compute. split; discriminate.
  - vm_compute. split; [discriminate|reflexivity].
Defined.

(** ** The processor ID *)

Section ProcessorID.

Variable P : Platform.
Variable heap : nat -> Z.
Variable ver : SMBIOSVersion.

Lemma idWordFacts_hold (b0 b1 : Z) :
  is_byte b0 -> is_byte b1 -> idWordFacts b0 b1 = true.
Proof. apply for_all_bytes2. vm_compute. reflexivity. Qed.

Lemma idWord_facts (be : bool) (b0 b1 : Z) :
  is_byte b0 -> is_byte b1 ->
  (nativeUint16 be [b0; b1] >? 0) = negb ((0 =? b0) && (0 =? b1)) /\
  length (fmtX 4 (nativeUint16 be [b0; b1])) = 4%nat.
Proof.
  intros H0 H1. pose proof (idWordFacts_hold H0 H1) as F.
  unfold idWordFacts in F. rewrite forallb_forall in F.
  assert (Hin : In be [true; false]) by (destruct be; simpl; auto).
  specialize (F be Hin). cbv zeta in F.
  apply andb_true_iff in F as [F1 F2].
  apply Bool.eqb_prop in F1. apply Nat.eqb_eq in F2. now split.
Qed.

Lemma ProcessorID_set_ProcessorID v s :
  ProcessorID (set_ProcessorID v s) = v.
Proof. now destruct s. Qed.

Lemma ProcessorID_set_ProcessorType v s :
  ProcessorID (set_ProcessorType v s) = ProcessorID s.
Proof. now destruct s. Qed.

Lemma ProcessorID_set_Processors v s :
  ProcessorID (set_Processors v s) = ProcessorID s.
Proof. now destruct s. Qed.

(** The processor block on a formatted block that holds the ID words. *)
Lemma interpProcessor_id (h : Header) (fb : list Z) (ss : list GoString) :
  Type_ h = 4 -> bytes_ok fb -> (12 <= length fb)%nat ->
  exists si p,
    interpProcessor P heap ver h fb (ss, SystemInfo0) = Ok (ss, si) /\
    Processors si = [p] /\
    if allEqual 0 (slice fb 4 12)
    then procID p = [] /\ ProcessorID si = []
    else procID p = cpuIDOf (hostBigEndian P) fb /\
         ProcessorID si = cpuIDOf (hostBigEndian P) fb /\
         length (cpuIDOf (hostBigEndian P) fb) = 16%nat.
Proof.
  intros Ht Hb Hl. unfold interpProcessor. rewrite Ht. cbn [Z.eqb Pos.eqb].
  do 12 (destruct fb as [|? fb]; [simpl in Hl; lia|]). clear Hl.
  cbn [addrOfFirst bind].
  unfold bytes_ok in Hb.
  repeat match goal with
         | H : Forall _ (_ :: _) |- _ =>
             let Hx := fresh "Hx" in
             let Hr := fresh "Hr" in
             apply Forall_cons_iff in H as [Hx Hr]
         end.
  set (fb0 := z :: z0 :: z1 :: z2 :: z3 :: z4 :: z5 :: z6 :: z7 :: z8 ::
              z9 :: z10 :: fb) in *.
  set (pm := peek8 fb0 heap SMBIOSProcessorType.ProcessorManufacturer).
  set (be := hostBigEndian P).
  assert (Hw : forall i b0 b1,
             nth_error fb0 (4 + 2 * i) = Some b0 ->
             nth_error fb0 (S (4 + 2 * i)) = Some b1 ->
             peek16 be fb0 heap (SMBIOSProcessorType.ProcessorID + 2 * i) =
             nativeUint16 be [b0; b1]).
  { intros i b0 b1 E0 E1. unfold peek16, peek8, nativeUint16.
    change (SMBIOSProcessorType.ProcessorID + 2 * i)%nat
      with (4 + 2 * i)%nat.
    rewrite E0, E1. destruct be; [reflexivity|].
    symmetry. apply Uint16_cons2. }
  assert (W0 := Hw 0%nat z3 z4 eq_refl eq_refl).
  assert (W1 := Hw 1%nat z5 z6 eq_refl eq_refl).
  assert (W2 := Hw 2%nat z7 z8 eq_refl eq_refl).
  assert (W3 := Hw 3%nat z9 z10 eq_refl eq_refl).
  cbn [map seq nth existsb].
  rewrite W0, W1, W2, W3.
  destruct (@idWord_facts be z3 z4) as [F0 L0]; try assumption.
  destruct (@idWord_facts be z5 z6) as [F1 L1]; try assumption.
  destruct (@idWord_facts be z7 z8) as [F2 L2]; try assumption.
  destruct (@idWord_facts be z9 z10) as [F3 L3]; try assumption.
  rewrite F0, F1, F2, F3.
  assert (Hall : allEqual 0 (slice fb0 4 12) =
                 (0 =? z3) && (0 =? z4) && ((0 =? z5) && (0 =? z6)) &&
                 ((0 =? z7) && (0 =? z8)) && ((0 =? z9) && (0 =? z10))).
  { unfold allEqual, fb0. cbn [slice skipn firstn Nat.sub forallb].
    destruct (0 =? z3), (0 =? z4), (0 =? z5), (0 =? z6), (0 =? z7),
      (0 =? z8), (0 =? z9), (0 =? z10); reflexivity. }
  assert (Hid : cpuIDOf be fb0 =
                fmtX 4 (nativeUint16 be [z9; z10]) ++
                fmtX 4 (nativeUint16 be [z7; z8]) ++
                fmtX 4 (nativeUint16 be [z5; z6]) ++
                fmtX 4 (nativeUint16 be [z3; z4])) by reflexivity.
  assert (Hlen : length (cpuIDOf be fb0) = 16%nat).
  { rewrite Hid, !length_app, L0, L1, L2, L3. reflexivity. }
  rewrite Hall, Hid in *. clear Hall.
  set (anyWord := negb ((0 =? z3) && (0 =? z4)) ||
                  (negb ((0 =? z5) && (0 =? z6)) ||
                   (negb ((0 =? z7) && (0 =? z8)) ||
                    (negb ((0 =? z9) && (0 =? z10)) || false)))).
  assert (Hany : (0 =? z3) && (0 =? z4) && ((0 =? z5) && (0 =? z6)) &&
                 ((0 =? z7) && (0 =? z8)) && ((0 =? z9) && (0 =? z10)) =
                 negb anyWord).
  { unfold anyWord.
    destruct (0 =? z3), (0 =? z4), (0 =? z5), (0 =? z6), (0 =? z7),
      (0 =? z8), (0 =? z9), (0 =? z10); reflexivity. }
  rewrite Hany. clearbody anyWord.
  assert (Hprod : exists product,
             (if (pm >? 0) && (pm <? uint8 (len ss))
              then s <- index ss pm ;; Ok (TrimSpace P s)
              else Ok []) = Ok product).
  { destruct ((pm >? 0) && (pm <? uint8 (len ss))) eqn:Hg; [|eauto].
    apply andb_true_iff in Hg as [Hg1 Hg2].
    destruct (@index_in_range _ ss pm) as [s Hs].
    { pose proof (uint8_len_le ss). lia. }
    rewrite Hs. cbn [bind]. eauto. }
  destruct Hprod as [product ->]. cbn [bind].
  assert (Hkeep : forall (c1 c2 : bool) v1 v2,
             Processors
               (if c2 then set_ProcessorType v2
                             (if c1 then set_ProcessorID v1 SystemInfo0
                              else SystemInfo0)
                else if c1 then set_ProcessorID v1 SystemInfo0
                     else SystemInfo0) = []).
  { intros [|] [|] v1 v2;
      now rewrite ?Processors_set_ProcessorType, ?Processors_set_ProcessorID. }
  eexists. eexists. split; [reflexivity|].
  rewrite Processors_set_Processors, ProcessorID_set_Processors, Hkeep.
  split; [reflexivity|]. cbn [procID].
  destruct anyWord; cbn [negb];
    destruct (peek8 fb0 heap SMBIOSProcessorType.ProcessorType >? 0);
    rewrite ?ProcessorID_set_ProcessorType, ?ProcessorID_set_ProcessorID;
    cbn [ProcessorID SystemInfo0];
    repeat split; try reflexivity; exact Hlen.
Qed.

End ProcessorID.

(** X26.  For a processor structure (type 4) whose formatted block holds
    the eight ID bytes (offsets 4 to 11), interpretation succeeds and records
    exactly one processor.  When all eight bytes are zero no processor ID is
    reported; otherwise the ID, of the processor and of the system
    information alike, is the four 16-bit words (host byte order) rendered
    with four upper-case hexadecimal digits each, the last word first:
    sixteen characters. *)
Theorem processor_id_reported_unless_zero
  (P : Platform) (heap : nat -> Z) (ver : SMBIOSVersion) (h : Header)
  (fb : list Z) (ss : list GoString) :
  Type_ h = 4 ->
  bytes_ok fb ->
  (12 <= length fb)%nat ->
  exists si p,
    interpret P heap ver h fb ss = Ok (ss, si) /\
    Processors si = [p] /\
    if allEqual 0 (slice fb 4 12)
    then procID p = [] /\ ProcessorID si = []
    else procID p = cpuIDOf (hostBigEndian P) fb /\
         ProcessorID si = cpuIDOf (hostBigEndian P) fb /\
         length (cpuIDOf (hostBigEndian P) fb) = 16%nat.
Proof.
  intros Ht Hb Hl.
  destruct (@interpProcessor_id P heap ver h fb ss Ht Hb Hl)
    as (si & p & E & Hp & Hid).
  exists si, p. split; [|split; assumption].
  unfold interpret.
  rewrite interpSystem_skip by lia. cbn [bind].
  rewrite interpBaseboard_skip by lia. cbn [bind].
  rewrite interpEnclosure_skip by lia. cbn [bind].
  rewrite E. cbn [bind].
  rewrite interpMemoryDevice_skip by lia. cbn [bind].
  now rewrite interpBIOS_skip by lia.
Qed.

Lemma processor_id_reported_unless_zero_witness :
  exists si p,
    interpret amd64 (junk amd64 0) {| Major := 3; Minor := 0 |}
      {| Type_ := 4; Length := 48; Handle := 4 |}
      (processorFormatted 1 4 4 0) processorStrings =
      Ok (processorStrings, si) /\
    Processors si = [p] /\
    if allEqual 0 (slice (processorFormatted 1 4 4 0) 4 12)
    then procID p = [] /\ ProcessorID si = []
    else procID p = cpuIDOf (hostBigEndian amd64)
                      (processorFormatted 1 4 4 0) /\
         ProcessorID si = cpuIDOf (hostBigEndian amd64)
                            (processorFormatted 1 4 4 0) /\
         length (cpuIDOf (hostBigEndian amd64)
                   (processorFormatted 1 4 4 0)) = 16%nat.
Proof.
  apply (@processor_id_reported_unless_zero amd64 (junk amd64 0)
           {| Major := 3; Minor := 0 |}
           {| Type_ := 4; Length := 48; Handle := 4 |}
           (processorFormatted 1 4 4 0) processorStrings).
  - reflexivity.
  - apply bytes_ok_dec. vm_compute. reflexivity.
  - vm_compute. lia.
Defined.
